(** * Verification of the reactivity core, scheduler and reconciler

    A shallow embedding of the TypeScript sources of the reactivity
    package (dep.ts, effect.ts, ref.ts, computed.ts, baseHandlers.ts),
    of the scheduler (scheduler.ts), of the keyed children diff of the
    renderer (renderer.ts), of the keep-alive cache (KeepAlive.ts) and of
    the suspense boundary (Suspense.ts).

    JavaScript objects live in explicit heaps (lists indexed by object
    identity); module-level variables are fields of a state record that is
    threaded through every function; user callbacks are trees of calls
    into the library. *)

From Stdlib Require Import ZArith List Bool Lia String Arith PeanoNat Sorted.
From stdpp Require Import base list.
Import ListNotations.

(** * Shared helpers: JavaScript [Set] and [Array] on lists *)

Module JS.

(** [Array.prototype.includes] on object identities. *)
Definition includes (x : nat) (l : list nat) : bool := existsb (Nat.eqb x) l.

(** [Set.prototype.add]: a [Set] iterates in insertion order and adding a
    present element changes nothing. *)
Definition set_add (x : nat) (s : list nat) : list nat :=
  if includes x s then s else s ++ [x].

(** [Set.prototype.delete]. *)
Definition set_delete (x : nat) (s : list nat) : list nat :=
  List.filter (fun y => negb (Nat.eqb x y)) s.

(** [new Set(array)]: elements are added one after the other. *)
Definition set_of_array (l : list nat) : list nat :=
  fold_left (fun s x => set_add x s) l [].

(** [1 << n] on 32-bit integers: the shift count is taken modulo 32 and
    the result is read as a signed 32-bit integer. *)
Definition wrap32 (z : Z) : Z :=
  let m := (z mod 4294967296)%Z in
  if (m <? 2147483648)%Z then m else (m - 4294967296)%Z.

Definition shl1 (n : nat) : Z := wrap32 (Z.shiftl 1 (Z.of_nat n mod 32)).

End JS.

(** * The reactivity package *)

Module Reactivity.

(** ** Data model *)

(** Identities of heap objects. *)
Definition ObjId := nat.
Definition RefId := nat.
Definition CompId := nat.
Definition EffectId := nat.
Definition DepId := nat.

(** Property keys.  [KIdx i] is the integer-like string key [String(i)],
    [KLength] is ['length'], [KStr s] any other string key (which
    [Number] turns into [NaN]); [KIterate] and [KMapKeyIterate] are the
    symbols [ITERATE_KEY] and [MAP_KEY_ITERATE_KEY] of effect.ts. *)
Inductive Key :=
| KStr (s : string)
| KIdx (i : nat)
| KLength
| KIterate
| KMapKeyIterate.

Definition Key_eqb (a b : Key) : bool :=
  match a, b with
  | KStr s, KStr t => String.eqb s t
  | KIdx i, KIdx j => Nat.eqb i j
  | KLength, KLength => true
  | KIterate, KIterate => true
  | KMapKeyIterate, KMapKeyIterate => true
  | _, _ => false
  end.

(** [isIntegerKey] of @vue/shared. *)
Definition isIntegerKey (k : Key) : bool :=
  match k with KIdx _ => true | _ => false end.

(** JavaScript values.  [VProxy ro sh o] is the proxy of the raw object
    [o] made by [reactive] ([ro = false]) or [readonly] ([ro = true]), in
    its deep ([sh = false]) or shallow variant; [VRef] is a [RefImpl]
    instance, [VComputed] a [ComputedRefImpl] instance and [VFun] a
    function the model does not look into. *)
Inductive Value :=
| VUndefined
| VNum (n : Z)
| VObj (o : ObjId)
| VProxy (ro sh : bool) (o : ObjId)
| VRef (r : RefId)
| VComputed (c : CompId)
| VFun (name : string).

Definition Value_eqb (a b : Value) : bool :=
  match a, b with
  | VUndefined, VUndefined => true
  | VNum x, VNum y => Z.eqb x y
  | VObj x, VObj y => Nat.eqb x y
  | VProxy r1 s1 x, VProxy r2 s2 y => Bool.eqb r1 r2 && Bool.eqb s1 s2 && Nat.eqb x y
  | VRef x, VRef y => Nat.eqb x y
  | VComputed x, VComputed y => Nat.eqb x y
  | VFun x, VFun y => String.eqb x y
  | _, _ => false
  end.

(** The kinds of target [trigger] and the handlers tell apart with
    [isArray] and [isMap]. *)
Inductive TargetKind := TPlain | TArray | TMap | TSet.

Definition isArrayKind (k : TargetKind) : bool :=
  match k with TArray => true | _ => false end.
Definition isMapKind (k : TargetKind) : bool :=
  match k with TMap => true | _ => false end.

(** A raw object: its own properties in insertion order; for an array
    the [length] is kept apart from the indexed elements. *)
Record Obj := mkObj {
  o_kind : TargetKind;
  o_props : list (Key * Value);
  o_length : nat
}.

(** dep.ts: [Dep = Set<ReactiveEffect> & TrackedMarkers]. *)
Record Dep := mkDep {
  subs : list EffectId;
  dep_w : Z;
  dep_n : Z
}.

(** [TriggerOpTypes] of operations.ts. *)
Inductive TriggerOpTypes := SET | ADD | DELETE | CLEAR.

(** What a user function does, as far as the library can see it: a tree
    of calls into the library, each continuation receiving the value the
    call returned.  [OGet p k] is the expression [p[k]], [OSet p k v] the
    assignment [p[k] = v], [ODelete p k] is [delete p[k]], [OValue r] is
    [r.value] and [OSetValue r v] is [r.value = v]. *)
Inductive Op :=
| OGet (p : Value) (k : Key)
| OSet (p : Value) (k : Key) (v : Value)
| ODelete (p : Value) (k : Key)
| OValue (r : Value)
| OSetValue (r : Value) (v : Value).

Inductive Prog :=
| PRet (v : Value)
| PBind (op : Op) (k : Value -> Prog).

(** The scheduler of an effect: the closure built by the
    [ComputedRefImpl] constructor, or a user function. *)
Inductive Scheduler :=
| SchedComputed (c : CompId)
| SchedProg (p : Prog).

(** effect.ts: [class ReactiveEffect]. *)
Record ReactiveEffect := mkEffect {
  active : bool;
  deps : list DepId;
  allowRecurse : bool;
  fn : Prog;
  scheduler : option Scheduler
}.

(** ref.ts: [class RefImpl]. *)
Record RefImpl := mkRef {
  r_value : Value;
  r_rawValue : Value;
  r_dep : option DepId;
  r_shallow : bool
}.

(** computed.ts: [class ComputedRefImpl]; [c_setter = None] stands for
    the setter [computed] installs when only a getter is given. *)
Record ComputedRefImpl := mkComputed {
  c_dep : option DepId;
  c_value : Value;
  c_dirty : bool;
  c_effect : EffectId;
  c_setter : option (Value -> Prog)
}.

(** Instrumentation: what was called, in order. *)
Inductive Event :=
| EvFn (e : EffectId)            (* [this.fn()] inside [run] *)
| EvScheduler (e : EffectId)     (* [effect.scheduler()] inside [triggerEffects] *)
| EvRun (e : EffectId)           (* [effect.run()] inside [triggerEffects] *)
| EvTrigger (o : ObjId) (t : TriggerOpTypes) (k : option Key)  (* a call of [trigger] *)
| EvWarn (o : ObjId) (k : Key).  (* [console.warn] of the readonly handlers *)

(** The heaps and the module-level variables of effect.ts.  The two
    stacks keep their top at the head of the list.  [DEV] is the build
    flag [__DEV__]; no function writes it. *)
Record World := mkWorld {
  DEV : bool;
  objs : list Obj;
  refs : list RefImpl;
  comps : list ComputedRefImpl;
  effects : list ReactiveEffect;
  depHeap : list Dep;
  targetMap : list (ObjId * list (Key * DepId));
  effectTrackDepth : nat;
  trackOpBit : Z;
  effectStack : list EffectId;
  activeEffect : option EffectId;
  shouldTrack : bool;
  trackStack : list bool;
  trace : list Event
}.

Definition maxMarkerBits : nat := 30.

Definition initialWorld (dev : bool) : World :=
  mkWorld dev [] [] [] [] [] [] 0 1 [] None true [] [].

(** Field updates. *)
Definition with_objs (x : list Obj) (w : World) : World :=
  mkWorld (DEV w) x (refs w) (comps w) (effects w) (depHeap w) (targetMap w)
    (effectTrackDepth w) (trackOpBit w) (effectStack w) (activeEffect w)
    (shouldTrack w) (trackStack w) (trace w).
Definition with_refs (x : list RefImpl) (w : World) : World :=
  mkWorld (DEV w) (objs w) x (comps w) (effects w) (depHeap w) (targetMap w)
    (effectTrackDepth w) (trackOpBit w) (effectStack w) (activeEffect w)
    (shouldTrack w) (trackStack w) (trace w).
Definition with_comps (x : list ComputedRefImpl) (w : World) : World :=
  mkWorld (DEV w) (objs w) (refs w) x (effects w) (depHeap w) (targetMap w)
    (effectTrackDepth w) (trackOpBit w) (effectStack w) (activeEffect w)
    (shouldTrack w) (trackStack w) (trace w).
Definition with_effects (x : list ReactiveEffect) (w : World) : World :=
  mkWorld (DEV w) (objs w) (refs w) (comps w) x (depHeap w) (targetMap w)
    (effectTrackDepth w) (trackOpBit w) (effectStack w) (activeEffect w)
    (shouldTrack w) (trackStack w) (trace w).
Definition with_depHeap (x : list Dep) (w : World) : World :=
  mkWorld (DEV w) (objs w) (refs w) (comps w) (effects w) x (targetMap w)
    (effectTrackDepth w) (trackOpBit w) (effectStack w) (activeEffect w)
    (shouldTrack w) (trackStack w) (trace w).
Definition with_targetMap (x : list (ObjId * list (Key * DepId))) (w : World) : World :=
  mkWorld (DEV w) (objs w) (refs w) (comps w) (effects w) (depHeap w) x
    (effectTrackDepth w) (trackOpBit w) (effectStack w) (activeEffect w)
    (shouldTrack w) (trackStack w) (trace w).
Definition with_depth (d : nat) (bit : Z) (w : World) : World :=
  mkWorld (DEV w) (objs w) (refs w) (comps w) (effects w) (depHeap w) (targetMap w)
    d bit (effectStack w) (activeEffect w)
    (shouldTrack w) (trackStack w) (trace w).
Definition with_stack (s : list EffectId) (a : option EffectId) (w : World) : World :=
  mkWorld (DEV w) (objs w) (refs w) (comps w) (effects w) (depHeap w) (targetMap w)
    (effectTrackDepth w) (trackOpBit w) s a
    (shouldTrack w) (trackStack w) (trace w).
Definition with_tracking (b : bool) (s : list bool) (w : World) : World :=
  mkWorld (DEV w) (objs w) (refs w) (comps w) (effects w) (depHeap w) (targetMap w)
    (effectTrackDepth w) (trackOpBit w) (effectStack w) (activeEffect w)
    b s (trace w).
Definition log (ev : Event) (w : World) : World :=
  mkWorld (DEV w) (objs w) (refs w) (comps w) (effects w) (depHeap w) (targetMap w)
    (effectTrackDepth w) (trackOpBit w) (effectStack w) (activeEffect w)
    (shouldTrack w) (trackStack w) (trace w ++ [ev]).

(** Heap reads; an identity that was never allocated reads as an inert
    object. *)
Definition noEffect : ReactiveEffect := mkEffect false [] false (PRet VUndefined) None.
Definition noDep : Dep := mkDep [] 0 0.
Definition noObj : Obj := mkObj TPlain [] 0.
Definition noRef : RefImpl := mkRef VUndefined VUndefined None true.
Definition noComputed : ComputedRefImpl := mkComputed None VUndefined false 0 None.

Definition getEffect (e : EffectId) (w : World) : ReactiveEffect := nth e (effects w) noEffect.
Definition getDep (d : DepId) (w : World) : Dep := nth d (depHeap w) noDep.
Definition getObj (o : ObjId) (w : World) : Obj := nth o (objs w) noObj.
Definition getRef (r : RefId) (w : World) : RefImpl := nth r (refs w) noRef.
Definition getComputed (c : CompId) (w : World) : ComputedRefImpl := nth c (comps w) noComputed.

Definition alterDep (f : Dep -> Dep) (d : DepId) (w : World) : World :=
  with_depHeap (alter f d (depHeap w)) w.
Definition alterEffect (f : ReactiveEffect -> ReactiveEffect) (e : EffectId) (w : World) : World :=
  with_effects (alter f e (effects w)) w.
Definition alterObj (f : Obj -> Obj) (o : ObjId) (w : World) : World :=
  with_objs (alter f o (objs w)) w.
Definition alterRef (f : RefImpl -> RefImpl) (r : RefId) (w : World) : World :=
  with_refs (alter f r (refs w)) w.
Definition alterComputed (f : ComputedRefImpl -> ComputedRefImpl) (c : CompId) (w : World) : World :=
  with_comps (alter f c (comps w)) w.

Definition set_deps (ds : list DepId) (e : ReactiveEffect) : ReactiveEffect :=
  mkEffect (active e) ds (allowRecurse e) (fn e) (scheduler e).
Definition set_active (b : bool) (e : ReactiveEffect) : ReactiveEffect :=
  mkEffect b (deps e) (allowRecurse e) (fn e) (scheduler e).
Definition set_subs (s : list EffectId) (d : Dep) : Dep := mkDep s (dep_w d) (dep_n d).
Definition set_w (z : Z) (d : Dep) : Dep := mkDep (subs d) z (dep_n d).
Definition set_n (z : Z) (d : Dep) : Dep := mkDep (subs d) (dep_w d) z.

(** ** dep.ts *)

(** [createDep(effects)]: [new Set(effects)] with both markers at 0. *)
Definition createDep (effs : list EffectId) : Dep := mkDep (JS.set_of_array effs) 0 0.

(** [(dep.w & trackOpBit) > 0] and [(dep.n & trackOpBit) > 0]. *)
Definition wasTracked (w : World) (d : Dep) : bool := (Z.land (dep_w d) (trackOpBit w) >? 0)%Z.
Definition newTracked (w : World) (d : Dep) : bool := (Z.land (dep_n d) (trackOpBit w) >? 0)%Z.

(** [initDepMarkers]: [deps[i].w |= trackOpBit] for every dep of the
    effect. *)
Definition initDepMarkers (e : EffectId) (w : World) : World :=
  fold_left
    (fun w d => alterDep (fun dep => set_w (Z.lor (dep_w dep) (trackOpBit w)) dep) d w)
    (deps (getEffect e w)) w.

(** One turn of the loop of [finalizeDepMarkers]; [kept] is the prefix
    [deps[0..ptr)] written so far. *)
Definition finalize_step (e : EffectId) (acc : World * list DepId) (d : DepId)
  : World * list DepId :=
  let '(w, kept) := acc in
  let dep := getDep d w in
  let '(w1, kept1) :=
    if wasTracked w dep && negb (newTracked w dep)
    then (alterDep (fun x => set_subs (JS.set_delete e (subs x)) x) d w, kept)
    else (w, kept ++ [d]) in
  let bit := trackOpBit w1 in
  (alterDep (fun x => set_n (Z.land (dep_n x) (Z.lnot bit))
                        (set_w (Z.land (dep_w x) (Z.lnot bit)) x)) d w1,
   kept1).

Definition finalizeDepMarkers (e : EffectId) (w : World) : World :=
  match deps (getEffect e w) with
  | [] => w
  | ds =>
      let '(w', kept) := fold_left (finalize_step e) ds (w, []) in
      alterEffect (set_deps kept) e w'
  end.

(** ** effect.ts: subscribing *)

(** [cleanupEffect]: leave every dep, then [deps.length = 0]. *)
Definition cleanupEffect (e : EffectId) (w : World) : World :=
  alterEffect (set_deps []) e
    (fold_left
       (fun w d => alterDep (fun x => set_subs (JS.set_delete e (subs x)) x) d w)
       (deps (getEffect e w)) w).

Definition pauseTracking (w : World) : World :=
  with_tracking false (shouldTrack w :: trackStack w) w.

Definition enableTracking (w : World) : World :=
  with_tracking true (shouldTrack w :: trackStack w) w.

(** [resetTracking]: [last === undefined ? true : last]. *)
Definition resetTracking (w : World) : World :=
  match trackStack w with
  | [] => with_tracking true [] w
  | last :: s => with_tracking last s w
  end.

Definition isTracking (w : World) : bool :=
  shouldTrack w && match activeEffect w with Some _ => true | None => false end.

(** [trackEffects(dep)].  Both callers test [isTracking()] first, so an
    effect is active. *)
Definition trackEffects (d : DepId) (w : World) : World :=
  match activeEffect w with
  | None => w
  | Some e =>
      let dep := getDep d w in
      let markers := effectTrackDepth w <=? maxMarkerBits in
      let unseen := markers && negb (newTracked w dep) in
      let w1 :=
        if unseen then alterDep (fun x => set_n (Z.lor (dep_n x) (trackOpBit w)) x) d w
        else w in
      let should :=
        if markers then unseen && negb (wasTracked w dep)
        else negb (JS.includes e (subs dep)) in
      if should then
        alterEffect (fun x => set_deps (deps x ++ [d]) x) e
          (alterDep (fun x => set_subs (JS.set_add e (subs x)) x) d w1)
      else w1
  end.

(** [Map.prototype.get] and [Map.prototype.set] on an insertion-ordered
    association list. *)
Fixpoint assoc {A B : Type} (eqb : A -> A -> bool) (k : A) (l : list (A * B)) : option B :=
  match l with
  | [] => None
  | (k', v) :: l' => if eqb k k' then Some v else assoc eqb k l'
  end.

Fixpoint assoc_set {A B : Type} (eqb : A -> A -> bool) (k : A) (v : B) (l : list (A * B))
  : list (A * B) :=
  match l with
  | [] => [(k, v)]
  | (k', v') :: l' => if eqb k k' then (k, v) :: l' else (k', v') :: assoc_set eqb k v l'
  end.

Definition depsMapOf (o : ObjId) (w : World) : option (list (Key * DepId)) :=
  assoc Nat.eqb o (targetMap w).

(** The dep of a slot, when there is one. *)
Definition depOf (o : ObjId) (k : Key) (w : World) : option DepId :=
  match depsMapOf o w with
  | Some m => assoc Key_eqb k m
  | None => None
  end.

(** [track(target, type, key)]; [type] only feeds the debugger event. *)
Definition track (o : ObjId) (k : Key) (w : World) : World :=
  if negb (isTracking w) then w
  else
    let depsMap := match depsMapOf o w with Some m => m | None => [] end in
    let w1 :=
      match depsMapOf o w with
      | Some _ => w
      | None => with_targetMap (assoc_set Nat.eqb o [] (targetMap w)) w
      end in
    match assoc Key_eqb k depsMap with
    | Some d => trackEffects d w1
    | None =>
        let d := length (depHeap w1) in
        trackEffects d
          (with_targetMap
             (assoc_set Nat.eqb o (assoc_set Key_eqb k d depsMap) (targetMap w1))
             (with_depHeap (depHeap w1 ++ [createDep []]) w1))
    end.

(** ** effect.ts: [trigger], the deps it collects *)

(** [key >= newValue] for a key of an array and a new length. *)
Definition key_ge (k : Key) (newValue : Value) : bool :=
  match k, newValue with
  | KIdx i, VNum n => (n <=? Z.of_nat i)%Z
  | _, _ => false
  end.

(** The array [deps] built by [trigger]; [None] is an [undefined]
    pushed by [deps.push(depsMap.get(...))]. *)
Definition trigger_deps (kind : TargetKind) (depsMap : list (Key * DepId))
    (type : TriggerOpTypes) (key : option Key) (newValue : Value) : list (option DepId) :=
  match type with
  | CLEAR => map (fun kd => Some (snd kd)) depsMap
  | _ =>
      if match key with Some KLength => isArrayKind kind | _ => false end then
        map (fun kd => Some (snd kd))
          (List.filter
             (fun kd => match fst kd with KLength => true | k => key_ge k newValue end)
             depsMap)
      else
        match key with Some k => [assoc Key_eqb k depsMap] | None => [] end ++
        match type with
        | ADD =>
            if negb (isArrayKind kind) then
              assoc Key_eqb KIterate depsMap ::
              (if isMapKind kind then [assoc Key_eqb KMapKeyIterate depsMap] else [])
            else if match key with Some k => isIntegerKey k | None => false end then
              [assoc Key_eqb KLength depsMap]
            else []
        | DELETE =>
            if negb (isArrayKind kind) then
              assoc Key_eqb KIterate depsMap ::
              (if isMapKind kind then [assoc Key_eqb KMapKeyIterate depsMap] else [])
            else []
        | SET => if isMapKind kind then [assoc Key_eqb KIterate depsMap] else []
        | CLEAR => []
        end
  end.

(** The effects [trigger] hands to [triggerEffects], in iteration order:
    the one dep itself when exactly one was collected, otherwise
    [createDep(effects)] of all their members. *)
Definition trigger_effects (w : World) (ds : list (option DepId)) : list EffectId :=
  match ds with
  | [Some d] => subs (getDep d w)
  | [None] => []
  | _ =>
      subs (createDep
              (concat (map (fun od => match od with
                                      | Some d => subs (getDep d w)
                                      | None => []
                                      end) ds)))
  end.

(** ** Computations on the world

    A library call returns a value and a new world, or nothing when the
    recursion budget of the interpreter is used up. *)
Definition M (A : Type) : Type := World -> option (A * World).

Definition ret {A : Type} (a : A) : M A := fun w => Some (a, w).

Definition bind {A B : Type} (m : M A) (f : A -> M B) : M B :=
  fun w => match m w with Some (a, w') => f a w' | None => None end.

Definition modify (f : World -> World) : M unit := fun w => Some (tt, f w).

Definition get {A : Type} (f : World -> A) : M A := fun w => Some (f w, w).

Notation "x <- m ;; k" := (bind m (fun x => k))
  (at level 63, m at next level, right associativity, only parsing).
Notation "m ;;; k" := (bind m (fun _ => k))
  (at level 63, right associativity, only parsing).

(** [for (const x of l) body(x)]. *)
Fixpoint for_each {A : Type} (body : A -> M unit) (l : list A) : M unit :=
  match l with
  | [] => ret tt
  | x :: l' => body x ;;; for_each body l'
  end.

(** ** Values: reactive.ts and ref.ts helpers *)

(** Modelled from the spec: reactive.ts is not among the sources.
    [toRaw] unwraps a proxy ("raw-unwrap"), [isReadonly] and [isReactive]
    read the introspection keys, [reactive] and [readonly] wrap a raw
    object in the proxy of their variant and give back a value that is
    already such a proxy ("a given raw object maps to at most one proxy
    per variant"); [toReactive] wraps objects only. *)
Definition toRaw (v : Value) : Value :=
  match v with VProxy _ _ o => VObj o | _ => v end.

Definition isReadonly (v : Value) : bool :=
  match v with VProxy true _ _ => true | _ => false end.

Definition isObject (v : Value) : bool :=
  match v with
  | VObj _ | VProxy _ _ _ | VRef _ | VComputed _ => true
  | _ => false
  end.

Definition reactive (v : Value) : Value :=
  match v with VObj o => VProxy false false o | _ => v end.

Definition readonly (v : Value) : Value :=
  match v with
  | VObj o => VProxy true false o
  | VProxy false _ o => VProxy true false o
  | _ => v
  end.

Definition toReactive (v : Value) : Value := reactive v.

(** [hasChanged(value, oldValue)] is [!Object.is(value, oldValue)]. *)
Definition hasChanged (v old : Value) : bool := negb (Value_eqb v old).

(** [isRef(r)]: [r.__v_isRef === true]. *)
Definition isRef (v : Value) : bool :=
  match v with VRef _ | VComputed _ => true | _ => false end.

(** [Reflect.get], [hasOwn], [Reflect.set] and [Reflect.deleteProperty]
    on raw objects without accessors and without a prototype chain. *)
Definition Reflect_get (o : Obj) (k : Key) : Value :=
  match o_kind o, k with
  | TArray, KLength => VNum (Z.of_nat (o_length o))
  | _, _ => match assoc Key_eqb k (o_props o) with Some v => v | None => VUndefined end
  end.

Definition hasOwn (o : Obj) (k : Key) : bool :=
  match o_kind o, k with
  | TArray, KLength => true
  | _, _ => match assoc Key_eqb k (o_props o) with Some _ => true | None => false end
  end.

Definition Reflect_set (k : Key) (v : Value) (o : Obj) : Obj :=
  match o_kind o, k, v with
  | TArray, KLength, VNum n =>
      mkObj TArray
        (List.filter (fun kv => negb (key_ge (fst kv) (VNum n))) (o_props o))
        (Z.to_nat n)
  | TArray, KLength, _ => o
  | TArray, KIdx i, _ =>
      mkObj TArray (assoc_set Key_eqb k v (o_props o)) (Nat.max (o_length o) (S i))
  | kind, _, _ => mkObj kind (assoc_set Key_eqb k v (o_props o)) (o_length o)
  end.

Definition Reflect_deleteProperty (k : Key) (o : Obj) : Obj :=
  match o_kind o, k with
  | TArray, KLength => o
  | kind, _ =>
      mkObj kind (List.filter (fun kv => negb (Key_eqb k (fst kv))) (o_props o)) (o_length o)
  end.

(** The two classes with a [dep] field ([RefBase] of ref.ts). *)
Inductive RefBase := RBRef (r : RefId) | RBComputed (c : CompId).

Definition refDep (rb : RefBase) (w : World) : option DepId :=
  match rb with
  | RBRef r => r_dep (getRef r w)
  | RBComputed c => c_dep (getComputed c w)
  end.

Definition setRefDep (rb : RefBase) (d : DepId) (w : World) : World :=
  match rb with
  | RBRef r =>
      alterRef (fun x => mkRef (r_value x) (r_rawValue x) (Some d) (r_shallow x)) r w
  | RBComputed c =>
      alterComputed
        (fun x => mkComputed (Some d) (c_value x) (c_dirty x) (c_effect x) (c_setter x)) c w
  end.

(** [trackRefValue(ref)]. *)
Definition trackRefValue (rb : RefBase) (w : World) : World :=
  if isTracking w then
    match refDep rb w with
    | Some d => trackEffects d w
    | None =>
        let d := length (depHeap w) in
        trackEffects d (setRefDep rb d (with_depHeap (depHeap w ++ [createDep []]) w))
    end
  else w.

(** [makeMap(`__proto__,__v_isRef,__isVue`)] of baseHandlers.ts. *)
Definition isNonTrackableKeys (k : Key) : bool :=
  match k with
  | KStr s => String.eqb s "__proto__" || String.eqb s "__v_isRef" || String.eqb s "__isVue"
  | _ => false
  end.

(** [hasOwn(arrayInstrumentations, key)]. *)
Definition isArrayInstrumentation (k : Key) : option string :=
  match k with
  | KStr s =>
      if existsb (String.eqb s)
           ["includes"; "indexOf"; "lastIndexOf"; "push"; "pop"; "shift"; "unshift"; "splice"]%string
      then Some s else None
  | _ => None
  end.

(** ** The library, open on its re-entrant calls

    [run_rec e] is [effect.run()], [sched_rec e] is [effect.scheduler()]
    and [call_rec p] a call of the user function [p], wherever the
    library makes such a call from inside another one. *)
Section Knot.

Variable run_rec : EffectId -> M Value.
Variable sched_rec : EffectId -> M unit.
Variable call_rec : Prog -> M Value.

(** [triggerEffects(dep)] on the array [[...dep]]. *)
Definition triggerEffects (l : list EffectId) : M unit :=
  for_each
    (fun e w =>
       let eff := getEffect e w in
       if negb (match activeEffect w with Some a => Nat.eqb e a | None => false end)
          || allowRecurse eff
       then
         match scheduler eff with
         | Some _ => (modify (log (EvScheduler e)) ;;; sched_rec e) w
         | None => (modify (log (EvRun e)) ;;; _ <- run_rec e ;; ret tt) w
         end
       else Some (tt, w))
    l.

(** [trigger(target, type, key, newValue)]. *)
Definition trigger (o : ObjId) (type : TriggerOpTypes) (key : option Key) (newValue : Value)
  : M unit :=
  modify (log (EvTrigger o type key)) ;;;
  (fun w =>
     match depsMapOf o w with
     | None => Some (tt, w)
     | Some depsMap =>
         triggerEffects
           (trigger_effects w (trigger_deps (o_kind (getObj o w)) depsMap type key newValue)) w
     end).

(** [triggerRefValue(ref)]. *)
Definition triggerRefValue (rb : RefBase) : M unit :=
  fun w =>
    match refDep rb w with
    | Some d => triggerEffects (subs (getDep d w)) w
    | None => Some (tt, w)
    end.

(** [RefImpl]: [get value()] and [set value(newVal)]. *)
Definition RefImpl_get_value (r : RefId) : M Value :=
  modify (trackRefValue (RBRef r)) ;;; get (fun w => r_value (getRef r w)).

Definition RefImpl_set_value (r : RefId) (newVal : Value) : M unit :=
  fun w =>
    let this := getRef r w in
    let newVal := if r_shallow this then newVal else toRaw newVal in
    if hasChanged newVal (r_rawValue this) then
      (modify (alterRef
                 (fun x => mkRef (if r_shallow x then newVal else toReactive newVal)
                                 newVal (r_dep x) (r_shallow x)) r) ;;;
       triggerRefValue (RBRef r)) w
    else Some (tt, w).

(** [ComputedRefImpl]: [get value()], the scheduler closure of the
    constructor, and [set value(newValue)]. *)
Definition ComputedRefImpl_get_value (c : CompId) : M Value :=
  modify (trackRefValue (RBComputed c)) ;;;
  (fun w =>
     let self := getComputed c w in
     ((if c_dirty self then
         modify (alterComputed
                   (fun x => mkComputed (c_dep x) (c_value x) false (c_effect x) (c_setter x)) c) ;;;
         v <- run_rec (c_effect self) ;;
         modify (alterComputed
                   (fun x => mkComputed (c_dep x) v (c_dirty x) (c_effect x) (c_setter x)) c)
       else ret tt) ;;;
      get (fun w => c_value (getComputed c w))) w).

Definition ComputedRefImpl_scheduler (c : CompId) : M unit :=
  fun w =>
    if negb (c_dirty (getComputed c w)) then
      (modify (alterComputed
                 (fun x => mkComputed (c_dep x) (c_value x) true (c_effect x) (c_setter x)) c) ;;;
       triggerRefValue (RBComputed c)) w
    else Some (tt, w).

Definition ComputedRefImpl_set_value (c : CompId) (newValue : Value) : M unit :=
  fun w =>
    match c_setter (getComputed c w) with
    | Some setter => (_ <- call_rec (setter newValue) ;; ret tt) w
    | None => Some (tt, w)
    end.

(** [r.value] and [r.value = v] on any value. *)
Definition value_of (r : Value) : M Value :=
  match r with
  | VRef r => RefImpl_get_value r
  | VComputed c => ComputedRefImpl_get_value c
  | _ => ret VUndefined
  end.

Definition set_value_of (r : Value) (v : Value) : M unit :=
  match r with
  | VRef r => RefImpl_set_value r v
  | VComputed c => ComputedRefImpl_set_value c v
  | _ => ret tt
  end.

(** [unref(ref)]. *)
Definition unref (v : Value) : M Value :=
  if isRef v then value_of v else ret v.

(** ** baseHandlers.ts *)

(** [createGetter(isReadonly, shallow)].  The keys of [ReactiveFlags]
    are not keys of the model, so the function starts at
    [const targetIsArray = isArray(target)]. *)
Definition createGetter (isReadonly shallow : bool) (o : ObjId) (key : Key) : M Value :=
  fun w =>
    let target := getObj o w in
    let targetIsArray := isArrayKind (o_kind target) in
    match (if negb isReadonly && targetIsArray then isArrayInstrumentation key else None) with
    | Some name => Some (VFun name, w)
    | None =>
        let res := Reflect_get target key in
        if isNonTrackableKeys key then Some (res, w)
        else
          let w1 := if negb isReadonly then track o key w else w in
          if shallow then Some (res, w1)
          else if isRef res then
            if negb targetIsArray || negb (isIntegerKey key) then value_of res w1
            else Some (res, w1)
          else if isObject res then
            Some (if isReadonly then readonly res else reactive res, w1)
          else Some (res, w1)
    end.

(** [createSetter(shallow)]; the result is what the trap returns. *)
Definition createSetter (shallow : bool) (o : ObjId) (key : Key) (value : Value)
    (receiver : Value) : M bool :=
  fun w =>
    let target := getObj o w in
    let isArr := isArrayKind (o_kind target) in
    let oldValue := Reflect_get target key in
    let plain := negb shallow && negb (isReadonly value) in
    let value' := if plain then toRaw value else value in
    let oldValue' := if plain then toRaw oldValue else oldValue in
    if plain && negb isArr && isRef oldValue' && negb (isRef value') then
      (set_value_of oldValue' value' ;;; ret true) w
    else
      let hadKey :=
        match key with
        | KIdx i => if isArr then i <? o_length target else hasOwn target key
        | _ => hasOwn target key
        end in
      let w1 := alterObj (Reflect_set key value') o w in
      if Value_eqb (VObj o) (toRaw receiver) then
        if negb hadKey then (trigger o ADD (Some key) value' ;;; ret true) w1
        else if hasChanged value' oldValue' then (trigger o SET (Some key) value' ;;; ret true) w1
        else Some (true, w1)
      else Some (true, w1).

(** [deleteProperty] of [mutableHandlers]; the only own property that
    cannot be deleted in the model is the [length] of an array. *)
Definition deleteProperty (o : ObjId) (key : Key) : M bool :=
  fun w =>
    let target := getObj o w in
    let hadKey := hasOwn target key in
    let result :=
      negb (isArrayKind (o_kind target) && Key_eqb key KLength) in
    let w1 := alterObj (Reflect_deleteProperty key) o w in
    if result && hadKey then (trigger o DELETE (Some key) VUndefined ;;; ret result) w1
    else Some (result, w1).

(** [readonlyHandlers.set] and [readonlyHandlers.deleteProperty]; the
    handlers of [shallowReadonlyHandlers] are the same functions, as
    [extend({}, readonlyHandlers, { get: shallowReadonlyGet })] only
    replaces [get]. *)
Definition readonly_set (o : ObjId) (key : Key) : M bool :=
  fun w => Some (true, if DEV w then log (EvWarn o key) w else w).

Definition readonly_deleteProperty (o : ObjId) (key : Key) : M bool :=
  fun w => Some (true, if DEV w then log (EvWarn o key) w else w).

(** The traps a proxy of each variant installs, as [createReactiveObject]
    receives them: [mutableHandlers], [shallowReactiveHandlers],
    [readonlyHandlers] and [shallowReadonlyHandlers]. *)
Definition proxy_get (p : Value) (key : Key) : M Value :=
  match p with
  | VProxy ro sh o => createGetter ro sh o key
  | VObj o => get (fun w => Reflect_get (getObj o w) key)
  | _ => ret VUndefined
  end.

Definition proxy_set (p : Value) (key : Key) (value : Value) : M bool :=
  match p with
  | VProxy false sh o => createSetter sh o key value p
  | VProxy true _ o => readonly_set o key
  | VObj o => modify (alterObj (Reflect_set key value) o) ;;; ret true
  | _ => ret false
  end.

Definition proxy_deleteProperty (p : Value) (key : Key) : M bool :=
  match p with
  | VProxy false _ o => deleteProperty o key
  | VProxy true _ o => readonly_deleteProperty o key
  | VObj o =>
      fun w =>
        Some (negb (isArrayKind (o_kind (getObj o w)) && Key_eqb key KLength),
              alterObj (Reflect_deleteProperty key) o w)
  | _ => ret true
  end.

(** ** Running user functions *)

Definition do_op (op : Op) : M Value :=
  match op with
  | OGet p k => proxy_get p k
  | OSet p k v => _ <- proxy_set p k v ;; ret v
  | ODelete p k => b <- proxy_deleteProperty p k ;; ret (if b then VNum 1 else VNum 0)
  | OValue r => value_of r
  | OSetValue r v => set_value_of r v ;;; ret v
  end.

Fixpoint exec (p : Prog) : M Value :=
  match p with
  | PRet v => ret v
  | PBind op k => v <- do_op op ;; exec (k v)
  end.

(** [ReactiveEffect.prototype.run]; the user functions of the model do
    not throw, so the [finally] block is what follows [this.fn()].
    [run_try] is the [try] block up to the call of [this.fn()] and
    [run_finally] the [finally] block. *)
Definition run_try (e : EffectId) (w : World) : World :=
  let w1 := with_stack (e :: effectStack w) (Some e) w in
  let w2 := enableTracking w1 in
  let w3 := with_depth (S (effectTrackDepth w2)) (JS.shl1 (S (effectTrackDepth w2))) w2 in
  if effectTrackDepth w3 <=? maxMarkerBits then initDepMarkers e w3 else cleanupEffect e w3.

Definition run_finally (e : EffectId) (w : World) : World :=
  let w1 := if effectTrackDepth w <=? maxMarkerBits then finalizeDepMarkers e w else w in
  let w2 := with_depth (effectTrackDepth w1 - 1) (JS.shl1 (effectTrackDepth w1 - 1)) w1 in
  let w3 := resetTracking w2 in
  with_stack (tl (effectStack w3)) (head (tl (effectStack w3))) w3.

Definition ReactiveEffect_run (e : EffectId) : M Value :=
  fun w =>
    let this := getEffect e w in
    if negb (active this) then
      (modify (log (EvFn e)) ;;; exec (fn this)) w
    else if negb (JS.includes e (effectStack w)) then
      (modify (run_try e) ;;;
       modify (log (EvFn e)) ;;;
       v <- exec (fn this) ;;
       modify (run_finally e) ;;;
       ret v) w
    else Some (VUndefined, w).

(** [effect.scheduler()]. *)
Definition call_scheduler (e : EffectId) : M unit :=
  fun w =>
    match scheduler (getEffect e w) with
    | Some (SchedComputed c) => ComputedRefImpl_scheduler c w
    | Some (SchedProg p) => (_ <- call_rec p ;; ret tt) w
    | None => Some (tt, w)
    end.

End Knot.

(** ** Closing the recursion: [fuel] bounds the depth of nested calls *)

Fixpoint run (fuel : nat) (e : EffectId) : M Value :=
  match fuel with
  | 0 => fun _ => None
  | S f => ReactiveEffect_run (run f) (sched f) (call f) e
  end
with sched (fuel : nat) (e : EffectId) : M unit :=
  match fuel with
  | 0 => fun _ => None
  | S f => call_scheduler (run f) (sched f) (call f) e
  end
with call (fuel : nat) (p : Prog) : M Value :=
  match fuel with
  | 0 => fun _ => None
  | S f => exec (run f) (sched f) (call f) p
  end.

(** ** The public functions, called from outside any effect *)

(** [new ReactiveEffect(fn, scheduler)]; effect scopes are not modelled. *)
Definition new_ReactiveEffect (f : Prog) (s : option Scheduler) (w : World) : EffectId * World :=
  (length (effects w), with_effects (effects w ++ [mkEffect true [] false f s]) w).

(** [effect(fn, options)] with the options [lazy], [scheduler] and
    [allowRecurse]; the result is the effect of the runner. *)
Definition effect (fuel : nat) (f : Prog) (lazy : bool) (s : option Scheduler)
    (recurse : bool) : M EffectId :=
  fun w =>
    let e := length (effects w) in
    let w1 := with_effects (effects w ++ [mkEffect true [] recurse f s]) w in
    if lazy then Some (e, w1)
    else (_ <- run fuel e ;; ret e) w1.

(** [ReactiveEffect.prototype.stop]; no [onStop] callback in the model. *)
Definition stop (e : EffectId) (w : World) : World :=
  if active (getEffect e w) then alterEffect (set_active false) e (cleanupEffect e w) else w.

(** [computed(getter)]: the effect of a computed gets the scheduler
    closure of its [ComputedRefImpl]. *)
Definition computed (getter : Prog) (setter : option (Value -> Prog)) (w : World)
  : CompId * World :=
  let c := length (comps w) in
  let e := length (effects w) in
  (c,
   with_comps (comps w ++ [mkComputed None VUndefined true e setter])
     (with_effects (effects w ++ [mkEffect true [] false getter (Some (SchedComputed c))]) w)).

(** [ref(value)] and [shallowRef(value)] through [createRef]. *)
Definition createRef (rawValue : Value) (shallow : bool) (w : World) : Value * World :=
  if isRef rawValue then (rawValue, w)
  else
    (VRef (length (refs w)),
     with_refs (refs w ++ [mkRef (if shallow then rawValue else toReactive rawValue)
                                 (if shallow then rawValue else toRaw rawValue)
                                 None shallow]) w).

Definition ref (value : Value) : World -> Value * World := createRef value false.

(** An object literal or array literal. *)
Definition new_object (kind : TargetKind) (props : list (Key * Value)) (len : nat) (w : World)
  : ObjId * World :=
  (length (objs w), with_objs (objs w ++ [mkObj kind props len]) w).

(** [p[k] = v], [p[k]], [delete p[k]], [r.value] and [r.value = v] as
    statements of a program. *)
Definition set_prop (fuel : nat) (p : Value) (k : Key) (v : Value) : M bool :=
  proxy_set (run fuel) (sched fuel) (call fuel) p k v.

Definition get_prop (fuel : nat) (p : Value) (k : Key) : M Value :=
  proxy_get (run fuel) p k.

Definition delete_prop (fuel : nat) (p : Value) (k : Key) : M bool :=
  proxy_deleteProperty (run fuel) (sched fuel) p k.

Definition read_value (fuel : nat) (r : Value) : M Value := value_of (run fuel) r.

Definition write_value (fuel : nat) (r : Value) (v : Value) : M unit :=
  set_value_of (run fuel) (sched fuel) (call fuel) r v.

(** [n] reads of [r.value] in a row; the result is the value of the last. *)
Fixpoint read_times (fuel : nat) (r : Value) (n : nat) : M Value :=
  match n with
  | 0 => ret VUndefined
  | 1 => read_value fuel r
  | S n' => _ <- read_value fuel r ;; read_times fuel r n'
  end.

(** ** What the claims speak about *)

(** The number of calls of the function of effect [e] so far. *)
Definition fn_calls (e : EffectId) (w : World) : nat :=
  length (List.filter (fun ev => match ev with EvFn e' => Nat.eqb e e' | _ => false end)
            (trace w)).

(** Effect [e] is a member of the dep of slot [(o, k)]. *)
Definition subscribed (e : EffectId) (o : ObjId) (k : Key) (w : World) : Prop :=
  exists d, depOf o k w = Some d /\ In e (subs (getDep d w)).

(** The slots a function made of property reads visits in store [w], in
    order, and the condition that it is made of reads of slots holding
    primitive values through deep reactive proxies. *)
Fixpoint reads_of (p : Prog) (w : World) : list (ObjId * Key) :=
  match p with
  | PBind (OGet (VProxy false false o) k) c =>
      (o, k) :: reads_of (c (Reflect_get (getObj o w) k)) w
  | _ => []
  end.

Definition plain_slot (o : ObjId) (k : Key) (w : World) : Prop :=
  isArrayInstrumentation k = None /\
  isNonTrackableKeys k = false /\
  isObject (Reflect_get (getObj o w) k) = false.

Fixpoint plain_reads (p : Prog) (w : World) : Prop :=
  match p with
  | PRet _ => True
  | PBind (OGet (VProxy false false o) k) c =>
      plain_slot o k w /\ plain_reads (c (Reflect_get (getObj o w) k)) w
  | PBind _ _ => False
  end.

(** The value such a function returns in store [w]. *)
Fixpoint result_of (p : Prog) (w : World) : Value :=
  match p with
  | PRet v => v
  | PBind (OGet (VProxy false false o) k) c =>
      result_of (c (Reflect_get (getObj o w) k)) w
  | PBind _ _ => VUndefined
  end.

(** Nothing but warnings happened between [w] and [w']: same heaps, same
    subscriptions, and only [console.warn] calls appended to the trace. *)
Definition is_warning (ev : Event) : bool :=
  match ev with EvWarn _ _ => true | _ => false end.

Definition only_warned (w w' : World) : Prop :=
  objs w' = objs w /\ refs w' = refs w /\ comps w' = comps w /\
  effects w' = effects w /\ depHeap w' = depHeap w /\ targetMap w' = targetMap w /\
  exists warnings, trace w' = trace w ++ warnings /\ forallb is_warning warnings = true.

(** The calls [triggerEffects] makes for the effects [l] in world [w]. *)
Definition dispatch (w : World) (e : EffectId) : list Event :=
  let eff := getEffect e w in
  if negb (match activeEffect w with Some a => Nat.eqb e a | None => false end)
     || allowRecurse eff
  then match scheduler eff with Some _ => [EvScheduler e] | None => [EvRun e] end
  else [].

(** Callees that do nothing, to observe the calls of one [trigger]. *)
Definition inert_run : EffectId -> M Value := fun _ => ret VUndefined.
Definition inert_sched : EffectId -> M unit := fun _ => ret tt.

Definition log_all (evs : list Event) (w : World) : World :=
  fold_left (fun w ev => log ev w) evs w.

(** Every dep is a [Set]: no effect occurs twice in it. *)
Definition deps_are_sets (w : World) : Prop :=
  forall d, NoDup (subs (getDep d w)).

(** The dep map is well formed: every dep it names is allocated and no
    dep serves two slots. *)
Definition targetMap_wf (w : World) : Prop :=
  (forall o k d, depOf o k w = Some d -> d < length (depHeap w)) /\
  (forall o k o' k' d, depOf o k w = Some d -> depOf o' k' w = Some d -> o = o' /\ k = k').

(** Effect [e] can start a run with marker bits: it is active and not
    running, the nesting depth leaves a marker bit free, that bit is
    clear in every dep, and the two directions of the subscription graph
    agree for [e]. *)
Definition ready (e : EffectId) (w : World) : Prop :=
  e < length (effects w) /\
  active (getEffect e w) = true /\
  ~ In e (effectStack w) /\
  effectTrackDepth w < maxMarkerBits /\
  (forall d, Z.land (dep_w (getDep d w)) (JS.shl1 (S (effectTrackDepth w))) = 0%Z /\
             Z.land (dep_n (getDep d w)) (JS.shl1 (S (effectTrackDepth w))) = 0%Z) /\
  NoDup (deps (getEffect e w)) /\
  (forall d, In d (deps (getEffect e w)) -> d < length (depHeap w)) /\
  (forall d, In e (subs (getDep d w)) <-> In d (deps (getEffect e w))) /\
  deps_are_sets w /\
  targetMap_wf w.

(** The world of an effect that reads [a[0]], [a[1]] and [a.length] of a
    reactive array [a] of two numbers. *)
Definition array_reader_world : World :=
  let '(o, w1) := new_object TArray [(KIdx 0, VNum 7); (KIdx 1, VNum 8)] 2 (initialWorld true) in
  let a := VProxy false false o in
  let body :=
    PBind (OGet a (KIdx 0)) (fun _ =>
    PBind (OGet a (KIdx 1)) (fun _ =>
    PBind (OGet a KLength) PRet)) in
  match effect 1 body false None false w1 with
  | Some (_, w2) => w2
  | None => w1
  end.

(** What a [RefImpl] holds after [value] was assigned to it. *)
Definition stored_value (shallow : bool) (value : Value) : Value :=
  if shallow then toRaw value else toReactive (toRaw value).

(** The [RefImpl] [r] exists and is as its constructor and its setter
    leave it: [_value] is [_rawValue], wrapped unless the ref is shallow. *)
Definition ref_wf (r : RefId) (w : World) : Prop :=
  r < length (refs w) /\
  r_value (getRef r w) =
    (if r_shallow (getRef r w) then r_rawValue (getRef r w)
     else toReactive (r_rawValue (getRef r w))) /\
  toRaw (r_rawValue (getRef r w)) = r_rawValue (getRef r w).

(** No effect is subscribed to the ref [r]. *)
Definition no_subscribers (r : RefId) (w : World) : Prop :=
  match r_dep (getRef r w) with
  | Some d => subs (getDep d w) = []
  | None => True
  end.

(** Ref-preserving assignment, as the spec words it: when slot [k] of
    the target [o] of proxy [p] holds the ref [r], then after [p[k] = v]
    the slot still holds [r], [r] holds [v], and [p[k]] reads as what
    [r] holds. *)
Definition ref_preserved (fuel : nat) (p : Value) (o : ObjId) (k : Key) (v : Value)
    (w : World) : Prop :=
  forall r, Reflect_get (getObj o w) k = VRef r ->
    exists w',
      set_prop fuel p k v w = Some (true, w') /\
      Reflect_get (getObj o w') k = VRef r /\
      r_rawValue (getRef r w') = toRaw v /\
      r_value (getRef r w') = stored_value (r_shallow (getRef r w)) v /\
      exists w'', get_prop fuel p k w' = Some (r_value (getRef r w'), w'').

(** The world of [const a = reactive([ref(1)])]. *)
Definition array_of_ref_world : World :=
  let '(r, w1) := ref (VNum 1) (initialWorld true) in
  snd (new_object TArray [(KIdx 0, r)] 1 w1).

(** The world of [const state = reactive({}); state.x = ref(1)]. *)
Definition state_x_world (fuel : nat) : option World :=
  let '(o, w1) := new_object TPlain [] 0 (initialWorld true) in
  let '(r, w2) := ref (VNum 1) w1 in
  match set_prop fuel (VProxy false false o) (KStr "x") r w2 with
  | Some (_, w3) => Some w3
  | None => None
  end.

(** Everything but the subscription graph is the same in both worlds. *)
Definition same_control (w w' : World) : Prop :=
  DEV w' = DEV w /\ objs w' = objs w /\ refs w' = refs w /\ comps w' = comps w /\
  effectTrackDepth w' = effectTrackDepth w /\ trackOpBit w' = trackOpBit w /\
  effectStack w' = effectStack w /\ activeEffect w' = activeEffect w /\
  shouldTrack w' = shouldTrack w /\ trackStack w' = trackStack w /\
  trace w' = trace w /\ length (effects w') = length (effects w).

(** The state of a run of [e] in marker mode: [D0] are the deps [e] had
    when the run started, [T] the deps tracked so far in this run. *)
Definition tracking (e : EffectId) (D0 T : list DepId) (w : World) : Prop :=
  activeEffect w = Some e /\ shouldTrack w = true /\
  effectTrackDepth w <= maxMarkerBits /\ (0 < trackOpBit w)%Z /\
  e < length (effects w) /\
  (forall d, wasTracked w (getDep d w) = true <-> In d D0) /\
  (forall d, newTracked w (getDep d w) = true <-> In d T) /\
  (forall d, In e (subs (getDep d w)) <-> In d D0 \/ In d T) /\
  (forall d, In d (deps (getEffect e w)) <-> In d D0 \/ In d T) /\
  NoDup (deps (getEffect e w)) /\
  (forall d, In d D0 \/ In d T -> d < length (depHeap w)) /\
  deps_are_sets w /\ targetMap_wf w.

(** What a run of [e] leaves alone: the other effects, and everything of
    [e] but its deps. *)
Definition others_kept (e : EffectId) (w w' : World) : Prop :=
  (forall e' d, e' <> e -> In e' (subs (getDep d w')) <-> In e' (subs (getDep d w))) /\
  (forall e', e' <> e -> getEffect e' w' = getEffect e' w) /\
  active (getEffect e w') = active (getEffect e w) /\
  allowRecurse (getEffect e w') = allowRecurse (getEffect e w) /\
  fn (getEffect e w') = fn (getEffect e w) /\
  scheduler (getEffect e w') = scheduler (getEffect e w).

(** The reads of a function, as the calls of [track] they make. *)
Definition track_all (l : list (ObjId * Key)) (w : World) : World :=
  fold_left (fun w ok => track (fst ok) (snd ok) w) l w.

(** Whether [finalizeDepMarkers] keeps dep [d] among the deps of the
    effect. *)
Definition kept_dep (w : World) (d : DepId) : bool :=
  negb (wasTracked w (getDep d w) && negb (newTracked w (getDep d w))).

(** No effect is running and no effect is subscribed to anything. *)
Definition unsubscribed (w : World) : Prop :=
  effectStack w = [] /\ activeEffect w = None /\ effectTrackDepth w = 0 /\
  (forall d, subs (getDep d w) = [] /\
             Z.land (dep_w (getDep d w)) (JS.shl1 1) = 0%Z /\
             Z.land (dep_n (getDep d w)) (JS.shl1 1) = 0%Z) /\
  targetMap_wf w.

(** The world of [const s = reactive({ cond: 1, a: 10, b: 20 })] and of
    an effect, not yet run, of the function [() => s.cond ? s.a : s.b]. *)
Definition ternary_world : World :=
  let '(o, w1) :=
    new_object TPlain [(KStr "cond", VNum 1); (KStr "a", VNum 10); (KStr "b", VNum 20)] 0
      (initialWorld true) in
  let s := VProxy false false o in
  let body :=
    PBind (OGet s (KStr "cond")) (fun c =>
      match c with
      | VNum 0 => PBind (OGet s (KStr "b")) PRet
      | _ => PBind (OGet s (KStr "a")) PRet
      end) in
  snd (new_ReactiveEffect body None w1).

(** The world of [const s = reactive({ a: 1, b: 2 })]; the getter reads
    [s.a] and [s.b] and returns [s.b]. *)
Definition sum_world : World :=
  snd (new_object TPlain [(KStr "a", VNum 1); (KStr "b", VNum 2)] 0 (initialWorld true)).

Definition sum_getter : Prog :=
  PBind (OGet (VProxy false false 0) (KStr "a")) (fun _ =>
  PBind (OGet (VProxy false false 0) (KStr "b")) PRet).

(** ** Readonly handlers *)

Lemma only_warned_refl w : only_warned w w.
Proof.
  unfold only_warned. repeat split; try reflexivity.
  exists []. rewrite app_nil_r. split; reflexivity.
Qed.

Lemma only_warned_log w o k : only_warned w (log (EvWarn o k) w).
Proof.
  unfold only_warned. repeat split; try reflexivity.
  exists [EvWarn o k]. split; reflexivity.
Qed.


(** ** Heap lemmas *)

Lemma nth_alter_eq {A : Type} (f : A -> A) (l : list A) (i : nat) (d : A) :
  i < length l -> nth i (alter f i l) d = f (nth i l d).
Proof.
  intros Hi. rewrite !nth_lookup, list_lookup_alter.
  destruct (lookup_lt_is_Some_2 l i Hi) as [x Hx]. rewrite Hx.
  destruct (decide (i = i)); [reflexivity|congruence].
Qed.

Lemma nth_alter_ne {A : Type} (f : A -> A) (l : list A) (i j : nat) (d : A) :
  i <> j -> nth j (alter f i l) d = nth j l d.
Proof.
  intros Hne. rewrite !nth_lookup, list_lookup_alter_ne by exact Hne. reflexivity.
Qed.

Lemma nth_alter_ge {A : Type} (f : A -> A) (l : list A) (i j : nat) (d : A) :
  length l <= i -> nth j (alter f i l) d = nth j l d.
Proof.
  intros Hge. destruct (Nat.eq_dec i j) as [->|Hne].
  - rewrite !nth_overflow; [reflexivity|lia|rewrite length_alter; lia].
  - apply nth_alter_ne, Hne.
Qed.

Lemma toRaw_idem v : toRaw (toRaw v) = toRaw v.
Proof. destruct v; reflexivity. Qed.

Lemma isRef_toRaw v : isRef (toRaw v) = isRef v.
Proof. destruct v; reflexivity. Qed.

Lemma Value_eqb_eq a b : Value_eqb a b = true <-> a = b.
Proof.
  destruct a, b; simpl; try (split; [discriminate|congruence]);
    try (split; reflexivity).
  - rewrite Z.eqb_eq. split; congruence.
  - rewrite Nat.eqb_eq. split; congruence.
  - rewrite !andb_true_iff, !Bool.eqb_true_iff, Nat.eqb_eq.
    split; [intros [[-> ->] ->]; reflexivity|intros [= -> -> ->]; auto].
  - rewrite Nat.eqb_eq. split; congruence.
  - rewrite Nat.eqb_eq. split; congruence.
  - rewrite String.eqb_eq. split; congruence.
Qed.

(** ** Ref-preserving assignment *)

(** When its guard holds, the [set] trap is the setter of the ref found
    in the slot and nothing else. *)
Lemma createSetter_through_ref fuel o k v recv r w :
  isArrayKind (o_kind (getObj o w)) = false ->
  Reflect_get (getObj o w) k = VRef r ->
  isRef v = false ->
  isReadonly v = false ->
  createSetter (run fuel) (sched fuel) (call fuel) false o k v recv w =
  bind (write_value fuel (VRef r) (toRaw v)) (fun _ => ret true) w.
Proof.
  intros Harr Hold Hv Hro. unfold createSetter.
  rewrite Harr, Hold, Hro. simpl.
  rewrite isRef_toRaw, Hv. reflexivity.
Qed.

(** The setter of a ref without subscribers only writes the ref. *)
Lemma RefImpl_set_value_alone fuel r v w :
  ref_wf r w -> no_subscribers r w ->
  exists w',
    write_value fuel (VRef r) (toRaw v) w = Some (tt, w') /\
    objs w' = objs w /\
    r_rawValue (getRef r w') = toRaw v /\
    r_value (getRef r w') = stored_value (r_shallow (getRef r w)) v /\
    r_shallow (getRef r w') = r_shallow (getRef r w).
Proof.
  intros (Hlen & Hval & Hraw) Hsub.
  unfold write_value, set_value_of, RefImpl_set_value.
  assert (Hnew : (if r_shallow (getRef r w) then toRaw v else toRaw (toRaw v)) = toRaw v).
  { destruct (r_shallow (getRef r w)); [reflexivity|apply toRaw_idem]. }
  rewrite Hnew.
  destruct (hasChanged (toRaw v) (r_rawValue (getRef r w))) eqn:Hch.
  - unfold bind, modify, triggerRefValue. simpl.
    assert (Hget : getRef r (alterRef
        (fun x => mkRef (if r_shallow x then toRaw v else toReactive (toRaw v))
                    (toRaw v) (r_dep x) (r_shallow x)) r w) =
      mkRef (if r_shallow (getRef r w) then toRaw v else toReactive (toRaw v))
        (toRaw v) (r_dep (getRef r w)) (r_shallow (getRef r w))).
    { unfold getRef, alterRef. simpl. rewrite nth_alter_eq by exact Hlen. reflexivity. }
    rewrite Hget. simpl.
    unfold no_subscribers in Hsub.
    destruct (r_dep (getRef r w)) as [d|] eqn:Hd.
    + unfold getDep in *. simpl. rewrite Hsub. simpl.
      eexists. split; [reflexivity|]. rewrite Hget. simpl. auto.
    + eexists. split; [reflexivity|]. rewrite Hget. simpl. auto.
  - eexists. split; [reflexivity|].
    unfold hasChanged in Hch. apply negb_false_iff, Value_eqb_eq in Hch.
    repeat split; auto.
    unfold stored_value. rewrite Hval, <- Hch. reflexivity.
Qed.

(** Subscribing writes neither objects nor the values of refs. *)
Ltac frame_cases :=
  repeat (simpl; match goal with
          | |- context [match ?x with _ => _ end] => destruct x eqn:?
          | |- context [if ?x then _ else _] => destruct x eqn:?
          end); simpl; try reflexivity.

Lemma trackEffects_objs d w : objs (trackEffects d w) = objs w.
Proof. unfold trackEffects. frame_cases. Qed.

Lemma trackEffects_refs d w : refs (trackEffects d w) = refs w.
Proof. unfold trackEffects. frame_cases. Qed.

Lemma track_objs o k w : objs (track o k w) = objs w.
Proof. unfold track. frame_cases; rewrite trackEffects_objs; reflexivity. Qed.

Lemma track_refs o k w : refs (track o k w) = refs w.
Proof. unfold track. frame_cases; rewrite trackEffects_refs; reflexivity. Qed.

Lemma trackRefValue_objs rb w : objs (trackRefValue rb w) = objs w.
Proof.
  unfold trackRefValue. frame_cases; rewrite trackEffects_objs;
    try reflexivity; destruct rb; reflexivity.
Qed.

Lemma trackRefValue_r_value rb r w :
  r_value (getRef r (trackRefValue rb w)) = r_value (getRef r w).
Proof.
  unfold trackRefValue. frame_cases; unfold getRef; rewrite trackEffects_refs;
    try reflexivity.
  destruct rb as [r'|c]; simpl; [|reflexivity].
  destruct (Nat.eq_dec r' r) as [->|Hne].
  - destruct (Nat.lt_ge_cases r (length (refs w))).
    + rewrite nth_alter_eq by assumption. reflexivity.
    + rewrite nth_alter_ge by assumption. reflexivity.
  - rewrite nth_alter_ne by assumption. reflexivity.
Qed.

(** Reading through a deep reactive proxy a slot that holds a ref gives
    what the ref holds. *)
Lemma createGetter_unwraps fuel o k r w :
  isArrayKind (o_kind (getObj o w)) = false ->
  isNonTrackableKeys k = false ->
  Reflect_get (getObj o w) k = VRef r ->
  exists w', get_prop fuel (VProxy false false o) k w = Some (r_value (getRef r w), w').
Proof.
  intros Harr Hkey Hslot.
  unfold get_prop, proxy_get, createGetter. rewrite Harr, Hkey, Hslot. simpl.
  unfold RefImpl_get_value, bind, modify, get. simpl.
  eexists. rewrite trackRefValue_r_value.
  unfold getRef. rewrite track_refs. reflexivity.
Qed.


(** The world after [state.x = ref(1)]. *)
Definition state_x : World :=
  match state_x_world 0 with Some w => w | None => initialWorld true end.



(** ** The dispatch of [trigger] *)

Lemma includes_In x l : JS.includes x l = true <-> In x l.
Proof.
  unfold JS.includes. rewrite existsb_exists. split.
  - intros (y & Hy & Heq). apply Nat.eqb_eq in Heq. subst. exact Hy.
  - intros Hx. exists x. split; [exact Hx|apply Nat.eqb_refl].
Qed.

Lemma set_add_In x y s : In y (JS.set_add x s) <-> y = x \/ In y s.
Proof.
  unfold JS.set_add. destruct (JS.includes x s) eqn:Hin.
  - apply includes_In in Hin. split; [auto|intros [->|]; auto].
  - rewrite in_app_iff. simpl. intuition.
Qed.

Lemma set_add_NoDup x s : NoDup s -> NoDup (JS.set_add x s).
Proof.
  intros Hs. unfold JS.set_add. destruct (JS.includes x s) eqn:Hin; [exact Hs|].
  apply NoDup_app. repeat split.
  - exact Hs.
  - intros y Hy Hy'. apply list_elem_of_In in Hy, Hy'. simpl in Hy'.
    destruct Hy' as [<-|[]].
    apply includes_In in Hy. congruence.
  - apply NoDup_cons. split; [intros H; inversion H|apply NoDup_nil; exact I].
Qed.

Lemma set_of_array_acc l : forall s,
  NoDup s ->
  NoDup (fold_left (fun s x => JS.set_add x s) l s) /\
  forall y, In y (fold_left (fun s x => JS.set_add x s) l s) <-> In y s \/ In y l.
Proof.
  induction l as [|x l IH]; intros s Hs; simpl.
  - split; [exact Hs|]. intros y. intuition.
  - destruct (IH (JS.set_add x s) (set_add_NoDup x s Hs)) as [Hnd Hin].
    split; [exact Hnd|]. intros y. rewrite Hin, set_add_In. intuition.
Qed.

Lemma set_of_array_NoDup l : NoDup (JS.set_of_array l).
Proof. apply (set_of_array_acc l []), NoDup_nil. exact I. Qed.

Lemma set_of_array_In l y : In y (JS.set_of_array l) <-> In y l.
Proof.
  unfold JS.set_of_array.
  destruct (set_of_array_acc l []) as [_ H]; [apply NoDup_nil; exact I|].
  rewrite H. simpl. intuition.
Qed.

Lemma log_all_app evs evs' w : log_all (evs ++ evs') w = log_all evs' (log_all evs w).
Proof. unfold log_all. apply fold_left_app. Qed.

Lemma log_all_frame evs : forall w,
  effects (log_all evs w) = effects w /\
  activeEffect (log_all evs w) = activeEffect w /\
  trace (log_all evs w) = trace w ++ evs.
Proof.
  induction evs as [|ev evs IH]; intros w; simpl.
  - rewrite app_nil_r. auto.
  - destruct (IH (log ev w)) as (He & Ha & Ht).
    rewrite He, Ha, Ht. simpl. rewrite <- app_assoc. auto.
Qed.

Lemma dispatch_log_all evs w e : dispatch (log_all evs w) e = dispatch w e.
Proof.
  destruct (log_all_frame evs w) as (He & Ha & _).
  unfold dispatch, getEffect. rewrite He, Ha. reflexivity.
Qed.

(** With callees that do nothing, [triggerEffects] makes the calls
    [dispatch] lists, in the order of the array it iterates. *)
Lemma triggerEffects_inert l : forall w,
  triggerEffects inert_run inert_sched l w = Some (tt, log_all (flat_map (dispatch w) l) w).
Proof.
  induction l as [|e l IH]; intros w; [reflexivity|].
  simpl. rewrite log_all_app. unfold triggerEffects in *. simpl.
  unfold bind at 1.
  assert (Hstep :
    (let eff := getEffect e w in
     if negb (match activeEffect w with Some a => e =? a | None => false end)
        || allowRecurse eff
     then match scheduler eff with
          | Some _ => bind (modify (log (EvScheduler e))) (fun _ => inert_sched e) w
          | None => bind (modify (log (EvRun e)))
                      (fun _ => bind (inert_run e) (fun _ => ret tt)) w
          end
     else Some (tt, w)) = Some (tt, log_all (dispatch w e) w)).
  { unfold dispatch. simpl.
    destruct (negb _ || _); [|reflexivity].
    destruct (scheduler (getEffect e w)); reflexivity. }
  simpl in Hstep. rewrite Hstep.
  rewrite IH. f_equal. f_equal. f_equal.
  apply flat_map_ext. intros e'. apply dispatch_log_all.
Qed.

Lemma trigger_effects_NoDup w ds : deps_are_sets w -> NoDup (trigger_effects w ds).
Proof.
  intros Hsets. unfold trigger_effects.
  destruct ds as [|[d|] [|od ds]]; try apply set_of_array_NoDup.
  - apply Hsets.
  - apply NoDup_nil. exact I.
Qed.

Lemma trigger_effects_In w ds e :
  In e (trigger_effects w ds) <-> exists d, In (Some d) ds /\ In e (subs (getDep d w)).
Proof.
  assert (Hgen : In e (JS.set_of_array
      (concat (map (fun od : option DepId =>
                      match od with Some d => subs (getDep d w) | None => [] end) ds))) <->
    exists d, In (Some d) ds /\ In e (subs (getDep d w))).
  { rewrite set_of_array_In. rewrite in_concat. split.
    - intros (l & Hl & He). apply in_map_iff in Hl as (od & <- & Hod).
      destruct od as [d|]; [|destruct He]. exists d. auto.
    - intros (d & Hd & He). exists (subs (getDep d w)). split; [|exact He].
      apply in_map_iff. exists (Some d). auto. }
  unfold trigger_effects.
  destruct ds as [|[d|] [|od ds]]; try exact Hgen.
  simpl. split; [intros He; exists d; auto|].
  intros (d' & [[= ->]|[]] & He). exact He.
Qed.



(** ** Subscribing during a run *)

Lemma shl1_pos n : n <= 30 -> (0 < JS.shl1 n)%Z.
Proof.
  intros Hn.
  assert (H : forallb (fun n => (0 <? JS.shl1 n)%Z) (seq 0 31) = true) by (vm_compute; reflexivity).
  rewrite forallb_forall in H.
  apply Z.ltb_lt, H, in_seq. lia.
Qed.

Lemma land_lor_absorb x b : Z.land (Z.lor x b) b = b.
Proof.
  apply Z.bits_inj'. intros n Hn. rewrite Z.land_spec, Z.lor_spec.
  destruct (Z.testbit x n), (Z.testbit b n); reflexivity.
Qed.

Lemma land_clear x b : Z.land (Z.land x (Z.lnot b)) b = 0%Z.
Proof.
  apply Z.bits_inj'. intros n Hn.
  rewrite !Z.land_spec, Z.lnot_spec, Z.bits_0 by exact Hn.
  destruct (Z.testbit x n), (Z.testbit b n); reflexivity.
Qed.

Lemma marked_true x b : (0 < b)%Z -> (Z.land (Z.lor x b) b >? 0)%Z = true.
Proof. intros Hb. rewrite land_lor_absorb. apply Z.gtb_lt. exact Hb. Qed.

Lemma cleared_false x b : (Z.land (Z.land x (Z.lnot b)) b >? 0)%Z = false.
Proof. rewrite land_clear. reflexivity. Qed.

Lemma unmarked_false x b : Z.land x b = 0%Z -> (Z.land x b >? 0)%Z = false.
Proof. intros ->. reflexivity. Qed.

Lemma unmarked_zero x b : (0 < b)%Z -> (Z.land x b >? 0)%Z = false -> Z.land x b = 0%Z.
Proof.
  intros Hb H. assert (0 <= Z.land x b)%Z by (apply Z.land_nonneg; lia).
  destruct (Z.gtb_spec (Z.land x b) 0); [discriminate|lia].
Qed.

(** getDep / getEffect frame lemmas *)
Lemma getDep_alterDep_eq f d w :
  d < length (depHeap w) -> getDep d (alterDep f d w) = f (getDep d w).
Proof. intros H. unfold getDep, alterDep. simpl. apply nth_alter_eq, H. Qed.

Lemma getDep_alterDep_ne f d d' w :
  d <> d' -> getDep d' (alterDep f d w) = getDep d' w.
Proof. intros H. unfold getDep, alterDep. simpl. apply nth_alter_ne, H. Qed.

Lemma getEffect_alterEffect_eq f e w :
  e < length (effects w) -> getEffect e (alterEffect f e w) = f (getEffect e w).
Proof. intros H. unfold getEffect, alterEffect. simpl. apply nth_alter_eq, H. Qed.

Lemma getEffect_alterEffect_ne f e e' w :
  e <> e' -> getEffect e' (alterEffect f e w) = getEffect e' w.
Proof. intros H. unfold getEffect, alterEffect. simpl. apply nth_alter_ne, H. Qed.

Lemma getDep_fresh d w :
  getDep d (with_depHeap (depHeap w ++ [createDep []]) w) = getDep d w.
Proof.
  unfold getDep. simpl.
  destruct (Nat.lt_ge_cases d (length (depHeap w))) as [Hlt|Hge].
  - apply app_nth1, Hlt.
  - rewrite (nth_overflow (depHeap w)) by exact Hge.
    destruct (Nat.eq_dec d (length (depHeap w))) as [->|Hne].
    + rewrite nth_middle. reflexivity.
    + apply nth_overflow. rewrite length_app. simpl. lia.
Qed.

Lemma same_control_refl w : same_control w w.
Proof. unfold same_control. repeat split; reflexivity. Qed.

Lemma same_control_trans w1 w2 w3 :
  same_control w1 w2 -> same_control w2 w3 -> same_control w1 w3.
Proof.
  unfold same_control. intros H1 H2.
  destruct H1 as (?&?&?&?&?&?&?&?&?&?&?&?), H2 as (?&?&?&?&?&?&?&?&?&?&?&?).
  repeat split; congruence.
Qed.

Lemma same_control_alterDep f d w : same_control w (alterDep f d w).
Proof. unfold same_control. repeat split; reflexivity. Qed.

Lemma same_control_alterEffect f e w : same_control w (alterEffect f e w).
Proof.
  unfold same_control. repeat split; try reflexivity.
  simpl. apply length_alter.
Qed.

(** [trackEffects] in marker mode, as equations on the two heaps. *)
Lemma trackEffects_spec d e w :
  activeEffect w = Some e ->
  effectTrackDepth w <= maxMarkerBits ->
  d < length (depHeap w) ->
  e < length (effects w) ->
  let dep := getDep d w in
  let unseen := negb (newTracked w dep) in
  let should := unseen && negb (wasTracked w dep) in
  let w' := trackEffects d w in
  same_control w w' /\
  targetMap w' = targetMap w /\
  length (depHeap w') = length (depHeap w) /\
  (forall d', d' <> d -> getDep d' w' = getDep d' w) /\
  getDep d w' =
    mkDep (if should then JS.set_add e (subs dep) else subs dep)
          (dep_w dep)
          (if unseen then Z.lor (dep_n dep) (trackOpBit w) else dep_n dep) /\
  (forall e', e' <> e -> getEffect e' w' = getEffect e' w) /\
  getEffect e w' =
    (if should then set_deps (deps (getEffect e w) ++ [d]) (getEffect e w)
     else getEffect e w).
Proof.
  intros Hact Hdepth Hd He dep unseen should w'.
  subst w'. unfold trackEffects. rewrite Hact.
  apply Nat.leb_le in Hdepth. rewrite Hdepth. simpl.
  fold dep. fold unseen. fold should.
  destruct unseen eqn:Hu; simpl in should; subst should.
  - destruct (negb (wasTracked w dep)) eqn:Hw; simpl.
    + split. { eapply same_control_trans; [apply same_control_alterDep|].
               eapply same_control_trans; [apply same_control_alterDep|].
               apply same_control_alterEffect. }
      split; [reflexivity|].
      split. { simpl. rewrite !length_alter. reflexivity. }
      split. { intros d' Hne. unfold getDep. simpl.
               rewrite !nth_alter_ne by congruence. reflexivity. }
      split. { unfold getDep. simpl. rewrite nth_alter_eq by (rewrite length_alter; exact Hd).
               rewrite nth_alter_eq by exact Hd. reflexivity. }
      split. { intros e' Hne. unfold getEffect. simpl.
               rewrite nth_alter_ne by congruence. reflexivity. }
      unfold getEffect. simpl. rewrite nth_alter_eq by exact He. reflexivity.
    + split; [apply same_control_alterDep|].
      split; [reflexivity|].
      split. { simpl. rewrite length_alter. reflexivity. }
      split. { intros d' Hne. apply getDep_alterDep_ne. congruence. }
      split. { rewrite getDep_alterDep_eq by exact Hd. reflexivity. }
      split; reflexivity.
  - split; [apply same_control_refl|].
    repeat split; try reflexivity. subst dep. destruct (getDep d w); reflexivity.
Qed.

Lemma Key_eqb_eq a b : Key_eqb a b = true <-> a = b.
Proof.
  destruct a, b; simpl; try (split; [discriminate|congruence]); try (split; reflexivity).
  - rewrite String.eqb_eq. split; congruence.
  - rewrite Nat.eqb_eq. split; congruence.
Qed.

Section Assoc.
Context {A B : Type} (eqb : A -> A -> bool).
Hypothesis eqb_eq : forall a b, eqb a b = true <-> a = b.

Lemma eqb_refl' a : eqb a a = true.
Proof. apply eqb_eq. reflexivity. Qed.

Lemma eqb_neq a b : a <> b -> eqb a b = false.
Proof. intros H. destruct (eqb a b) eqn:E; [apply eqb_eq in E; contradiction|reflexivity]. Qed.

Lemma assoc_set_eq k (v : B) l : assoc eqb k (assoc_set eqb k v l) = Some v.
Proof.
  induction l as [|[k' v'] l IH]; simpl.
  - rewrite eqb_refl'. reflexivity.
  - destruct (eqb k k') eqn:E; simpl.
    + rewrite eqb_refl'. reflexivity.
    + rewrite E. exact IH.
Qed.

Lemma assoc_set_ne k k' (v : B) l :
  k <> k' -> assoc eqb k' (assoc_set eqb k v l) = assoc eqb k' l.
Proof.
  intros Hne. induction l as [|[k0 v0] l IH]; simpl.
  - rewrite eqb_neq by congruence. reflexivity.
  - destruct (eqb k k0) eqn:E; simpl.
    + apply eqb_eq in E. subst k0. rewrite !eqb_neq by congruence. reflexivity.
    + destruct (eqb k' k0); [reflexivity|exact IH].
Qed.
End Assoc.

Lemma Nat_eqb_eq' a b : Nat.eqb a b = true <-> a = b.
Proof. apply Nat.eqb_eq. Qed.

(** [track] resolves the dep of the slot, allocating it when the slot has
    none, and hands it to [trackEffects]. *)
Lemma track_resolve o k w :
  isTracking w = true ->
  targetMap_wf w ->
  exists wm d,
    track o k w = trackEffects d wm /\
    depOf o k wm = Some d /\
    (forall o' k', (o', k') <> (o, k) -> depOf o' k' wm = depOf o' k' w) /\
    (forall o' k' d', depOf o' k' w = Some d' -> depOf o' k' wm = Some d') /\
    (forall d', getDep d' wm = getDep d' w) /\
    effects wm = effects w /\
    same_control w wm /\
    length (depHeap w) <= length (depHeap wm) /\
    targetMap_wf wm.
Proof.
  intros Htr Hwf. unfold track. rewrite Htr. simpl.
  destruct (assoc Key_eqb k match depsMapOf o w with Some m => m | None => [] end)
    as [d|] eqn:Hk.
  - assert (Hdep : depOf o k w = Some d).
    { unfold depOf. destruct (depsMapOf o w); [exact Hk|discriminate]. }
    assert (Hw1 : match depsMapOf o w with
                  | Some _ => w
                  | None => with_targetMap (assoc_set Nat.eqb o [] (targetMap w)) w
                  end = w).
    { unfold depOf in Hdep. destruct (depsMapOf o w); [reflexivity|discriminate]. }
    rewrite Hw1. exists w, d.
    split; [reflexivity|]. split; [exact Hdep|].
    split; [reflexivity|]. split; [auto|]. split; [reflexivity|].
    split; [reflexivity|]. split; [apply same_control_refl|].
    split; [lia|exact Hwf].
  - set (m := match depsMapOf o w with Some m => m | None => [] end) in *.
    set (w1 := match depsMapOf o w with
               | Some _ => w
               | None => with_targetMap (assoc_set Nat.eqb o [] (targetMap w)) w
               end).
    assert (Hheap1 : depHeap w1 = depHeap w) by (subst w1; destruct (depsMapOf o w); reflexivity).
    assert (Heff1 : effects w1 = effects w) by (subst w1; destruct (depsMapOf o w); reflexivity).
    assert (Hc1 : same_control w w1).
    { subst w1; destruct (depsMapOf o w); unfold same_control; repeat split; reflexivity. }
    assert (Hnone : depOf o k w = None).
    { unfold depOf. subst m. destruct (depsMapOf o w); [exact Hk|reflexivity]. }
    set (d := length (depHeap w1)).
    set (wm := with_targetMap _ _).
    assert (Hmap : forall o', assoc Nat.eqb o' (targetMap wm) =
                     if Nat.eqb o' o then Some (assoc_set Key_eqb k d m)
                     else assoc Nat.eqb o' (targetMap w)).
    { intros o'. subst wm. simpl. destruct (Nat.eqb o' o) eqn:E.
      - apply Nat.eqb_eq in E. subst o'. apply assoc_set_eq, Nat_eqb_eq'.
      - apply Nat.eqb_neq in E. rewrite assoc_set_ne by (auto using Nat_eqb_eq').
        subst w1. unfold depsMapOf. destruct (assoc Nat.eqb o (targetMap w)); [reflexivity|].
        simpl. apply assoc_set_ne; auto using Nat_eqb_eq'. }
    assert (HdepOf : forall o' k', depOf o' k' wm =
                       if Nat.eqb o' o && Key_eqb k' k then Some d else depOf o' k' w).
    { intros o' k'. unfold depOf, depsMapOf. rewrite Hmap.
      destruct (Nat.eqb o' o) eqn:E; simpl; [|reflexivity].
      apply Nat.eqb_eq in E. subst o'.
      destruct (Key_eqb k' k) eqn:E'.
      - apply Key_eqb_eq in E'. subst k'. apply assoc_set_eq, Key_eqb_eq.
      - assert (k <> k') by (intros ->; rewrite (proj2 (Key_eqb_eq k' k') eq_refl) in E'; discriminate).
        rewrite assoc_set_ne by (auto using Key_eqb_eq).
        subst m. fold (depsMapOf o w). destruct (depsMapOf o w); reflexivity. }
    exists wm, d. split; [reflexivity|].
    split. { rewrite HdepOf, Nat.eqb_refl, (proj2 (Key_eqb_eq k k) eq_refl). reflexivity. }
    split. { intros o' k' Hne. rewrite HdepOf.
             destruct (Nat.eqb o' o) eqn:E; [|reflexivity].
             destruct (Key_eqb k' k) eqn:E'; [|reflexivity].
             apply Nat.eqb_eq in E. apply Key_eqb_eq in E'. congruence. }
    split. { intros o' k' d' Hd'. rewrite HdepOf.
             destruct (Nat.eqb o' o) eqn:E; [|exact Hd'].
             destruct (Key_eqb k' k) eqn:E'; [|exact Hd'].
             apply Nat.eqb_eq in E. apply Key_eqb_eq in E'. congruence. }
    split. { intros d'. subst wm. unfold getDep. simpl.
             change (nth d' (depHeap w1 ++ [createDep []]) noDep)
               with (getDep d' (with_depHeap (depHeap w1 ++ [createDep []]) w1)).
             rewrite getDep_fresh. unfold getDep. rewrite Hheap1. reflexivity. }
    split; [exact Heff1|].
    split. { eapply same_control_trans; [exact Hc1|].
             subst wm. unfold same_control. repeat split; reflexivity. }
    split. { subst wm. simpl. rewrite length_app, Hheap1. lia. }
    destruct Hwf as [Hrange Hinj]. split.
    + intros o' k' d' Hd'. rewrite HdepOf in Hd'. subst wm. simpl.
      rewrite length_app. simpl.
      destruct (Nat.eqb o' o && Key_eqb k' k).
      * injection Hd' as <-. subst d. lia.
      * apply Hrange in Hd'. rewrite Hheap1. lia.
    + intros o1 k1 o2 k2 d' H1 H2. rewrite HdepOf in H1, H2.
      destruct (Nat.eqb o1 o && Key_eqb k1 k) eqn:E1;
        destruct (Nat.eqb o2 o && Key_eqb k2 k) eqn:E2.
      * apply andb_true_iff in E1 as [E1 E1'], E2 as [E2 E2'].
        apply Nat.eqb_eq in E1, E2. apply Key_eqb_eq in E1', E2'. subst. auto.
      * injection H1 as <-. apply Hrange in H2. subst d. rewrite Hheap1 in H2. lia.
      * injection H2 as <-. apply Hrange in H1. subst d. rewrite Hheap1 in H1. lia.
      * eapply Hinj; eassumption.
Qed.

Lemma others_kept_refl e w : others_kept e w w.
Proof. unfold others_kept. repeat split; auto. Qed.

Lemma others_kept_trans e w1 w2 w3 :
  others_kept e w1 w2 -> others_kept e w2 w3 -> others_kept e w1 w3.
Proof.
  intros (A1 & B1 & C1 & D1 & E1 & F1) (A2 & B2 & C2 & D2 & E2 & F2).
  unfold others_kept.
  split. { intros e' d Hne. rewrite A2, A1 by assumption. reflexivity. }
  split. { intros e' Hne. rewrite B2, B1 by assumption. reflexivity. }
  repeat split; congruence.
Qed.

Lemma tracking_step e D0 T o k w :
  tracking e D0 T w ->
  exists d,
    depOf o k (track o k w) = Some d /\
    tracking e D0 (d :: T) (track o k w) /\
    same_control w (track o k w) /\
    (forall o' k' d', depOf o' k' w = Some d' -> depOf o' k' (track o k w) = Some d') /\
    others_kept e w (track o k w).
Proof.
  intros (Hact & Hst & Hdepth & Hbit & He & Hwas & Hnew & Hsubs & Hdeps & Hnd & Hrange & Hsets & Hwf).
  assert (Htr : isTracking w = true) by (unfold isTracking; rewrite Hst, Hact; reflexivity).
  destruct (track_resolve o k w Htr Hwf)
    as (wm & d & Heq & Hd & Hother & Hmono & Hget & Heff & Hc & Hlen & Hwfm).
  rewrite Heq.
  assert (Hdr : d < length (depHeap wm)) by (eapply (proj1 Hwfm); exact Hd).
  destruct Hc as (HDEV & Hobjs & Hrefs & Hcomps & Hdp & Hb & Hstk & Hacte & Hsht & Htst & Htrc & Hlene).
  destruct (trackEffects_spec d e wm) as (Hc2 & Htm & Hlen2 & Hne & Hat & Hene & Heat);
    [congruence|lia|exact Hdr|congruence|].
  set (w' := trackEffects d wm) in *.
  assert (HgetE : getEffect e wm = getEffect e w) by (unfold getEffect; rewrite Heff; reflexivity).
  assert (Hwasm : wasTracked wm (getDep d wm) = wasTracked w (getDep d w))
    by (unfold wasTracked; rewrite Hget, Hb; reflexivity).
  assert (Hnewm : newTracked wm (getDep d wm) = newTracked w (getDep d w))
    by (unfold newTracked; rewrite Hget, Hb; reflexivity).
  rewrite Hwasm, Hnewm, Hget, HgetE, Hb in *.
  destruct Hc2 as (HDEV2 & Hobjs2 & Hrefs2 & Hcomps2 & Hdp2 & Hb2 & Hstk2 & Hacte2 & Hsht2 & Htst2 & Htrc2 & Hlene2).
  assert (HdepOf : forall o' k', depOf o' k' w' = depOf o' k' wm)
    by (intros; unfold depOf, depsMapOf; rewrite Htm; reflexivity).
  exists d. split; [rewrite HdepOf; exact Hd|].
  (* the three possible situations of [d] *)
  assert (Hcases :
    (In d T /\ getDep d w' = getDep d w /\ getEffect e w' = getEffect e w) \/
    (~ In d T /\ In d D0 /\
     getDep d w' = mkDep (subs (getDep d w)) (dep_w (getDep d w))
                     (Z.lor (dep_n (getDep d w)) (trackOpBit w)) /\
     getEffect e w' = getEffect e w) \/
    (~ In d T /\ ~ In d D0 /\
     getDep d w' = mkDep (JS.set_add e (subs (getDep d w))) (dep_w (getDep d w))
                     (Z.lor (dep_n (getDep d w)) (trackOpBit w)) /\
     getEffect e w' = set_deps (deps (getEffect e w) ++ [d]) (getEffect e w))).
  { destruct (newTracked w (getDep d w)) eqn:En.
    - left. split; [apply Hnew, En|]. simpl in Hat, Heat.
      split; [|exact Heat]. rewrite Hat. destruct (getDep d w); reflexivity.
    - right. assert (~ In d T) by (rewrite <- Hnew, En; discriminate).
      destruct (wasTracked w (getDep d w)) eqn:Ew; simpl in Hat, Heat.
      + left. split; [assumption|]. split; [apply Hwas, Ew|]. auto.
      + right. split; [assumption|]. split; [rewrite <- Hwas, Ew; discriminate|]. auto. }
  assert (Hw_same : forall d', dep_w (getDep d' w') = dep_w (getDep d' w)).
  { intros d'. destruct (Nat.eq_dec d' d) as [->|Hn].
    - destruct Hcases as [(_ & -> & _)|[(_ & _ & -> & _)|(_ & _ & -> & _)]]; reflexivity.
    - rewrite Hne, Hget by exact Hn. reflexivity. }
  split; [|split; [|split; [|]]].
  - (* the invariant *)
    unfold tracking.
    split; [congruence|]. split; [congruence|]. split; [lia|]. split; [congruence|].
    split; [lia|].
    split. { intros d'. unfold wasTracked. rewrite Hw_same, Hb2, Hb. apply Hwas. }
    split. { intros d'. unfold newTracked. rewrite Hb2, Hb. simpl.
             destruct (Nat.eq_dec d' d) as [->|Hn].
             - destruct Hcases as [(Hin & -> & _)|[(_ & _ & -> & _)|(_ & _ & -> & _)]]; simpl.
               + fold (newTracked w (getDep d w)). rewrite (proj2 (Hnew d) Hin). tauto.
               + rewrite land_lor_absorb. split; [auto|intros _; apply Z.gtb_lt; exact Hbit].
               + rewrite land_lor_absorb. split; [auto|intros _; apply Z.gtb_lt; exact Hbit].
             - rewrite Hne, Hget by exact Hn. fold (newTracked w (getDep d' w)).
               rewrite Hnew. split; [auto|intros [?|?]; [congruence|assumption]]. }
    split. { intros d'. simpl. destruct (Nat.eq_dec d' d) as [->|Hn].
             - destruct Hcases as [(Hin & -> & _)|[(_ & Hin & -> & _)|(_ & _ & -> & _)]]; simpl.
               + rewrite Hsubs. tauto.
               + rewrite Hsubs. tauto.
               + rewrite set_add_In. tauto.
             - rewrite Hne, Hget by exact Hn. rewrite Hsubs. intuition congruence. }
    split. { intros d'. simpl.
             destruct Hcases as [(Hin & _ & ->)|[(_ & Hin & _ & ->)|(_ & _ & _ & ->)]]; simpl.
             - rewrite Hdeps. intuition congruence.
             - rewrite Hdeps. intuition congruence.
             - rewrite in_app_iff, Hdeps. simpl. intuition congruence. }
    split. { destruct Hcases as [(Hin & _ & ->)|[(_ & Hin & _ & ->)|(HnT & HnD & _ & ->)]];
               simpl; try exact Hnd.
             apply NoDup_app. split; [exact Hnd|]. split; [|apply NoDup_singleton].
             intros x Hx Hx'. apply list_elem_of_In in Hx. apply list_elem_of_In in Hx'.
             simpl in Hx'. destruct Hx' as [<-|[]]. apply Hdeps in Hx. tauto. }
    split. { intros d' [Hd'|[<-|Hd']]; rewrite Hlen2; try lia.
             - specialize (Hrange d' (or_introl Hd')). lia.
             - specialize (Hrange d' (or_intror Hd')). lia. }
    split. { intros d'. destruct (Nat.eq_dec d' d) as [->|Hn].
             - destruct Hcases as [(_ & -> & _)|[(_ & _ & -> & _)|(_ & _ & -> & _)]]; simpl;
                 try apply Hsets. apply set_add_NoDup, Hsets.
             - rewrite Hne, Hget by exact Hn. apply Hsets. }
    destruct Hwfm as [Hr Hi]. split.
    + intros o' k' d'. rewrite HdepOf, Hlen2. apply Hr.
    + intros o1 k1 o2 k2 d'. rewrite !HdepOf. apply Hi.
  - unfold same_control. repeat split; congruence.
  - intros o' k' d' Hd'. rewrite HdepOf. apply Hmono, Hd'.
  - unfold others_kept. split; [|split].
    + intros e' d' Hne'. destruct (Nat.eq_dec d' d) as [->|Hn].
      * destruct Hcases as [(_ & -> & _)|[(_ & _ & -> & _)|(_ & _ & -> & _)]]; simpl;
          try tauto. rewrite set_add_In. intuition congruence.
      * rewrite Hne, Hget by exact Hn. tauto.
    + intros e' Hne'. rewrite Hene by exact Hne'. unfold getEffect. rewrite Heff. reflexivity.
    + destruct Hcases as [(_ & _ & ->)|[(_ & _ & _ & ->)|(_ & _ & _ & ->)]]; simpl; auto.
Qed.

Lemma track_all_objs l : forall w, objs (track_all l w) = objs w.
Proof.
  induction l as [|[o k] l IH]; intros w; simpl; [reflexivity|].
  unfold track_all in *. simpl. rewrite IH. apply track_objs.
Qed.

Lemma isRef_isObject v : isObject v = false -> isRef v = false.
Proof. destruct v; simpl; congruence. Qed.

(** A function made of plain reads does nothing but [track] the slots it
    visits. *)
Lemma exec_plain_reads R S C p w0 : forall w,
  plain_reads p w0 -> objs w = objs w0 ->
  exec R S C p w = Some (result_of p w0, track_all (reads_of p w0) w).
Proof.
  induction p as [v|op c IH]; intros w Hp Hobjs; [reflexivity|].
  destruct op as [pr k| | | |]; try destruct Hp.
  destruct pr as [| | |ro sh o| | |]; try destruct Hp.
  destruct ro; [destruct Hp|]. destruct sh; [destruct Hp|].
  destruct Hp as [(Hinst & Hkey & Hobj) Hp].
  simpl. unfold bind, proxy_get, createGetter.
  rewrite Hinst, Hkey.
  assert (Hg : getObj o w = getObj o w0) by (unfold getObj; rewrite Hobjs; reflexivity).
  rewrite Hg, Hobj, (isRef_isObject _ Hobj).
  replace (if negb false && isArrayKind (o_kind (getObj o w0)) then None else None)
    with (@None string) by (destruct (isArrayKind _); reflexivity).
  simpl. rewrite IH; [reflexivity|exact Hp|rewrite track_objs; exact Hobjs].
Qed.

Lemma same_control_isolate w w' : same_control w w' -> objs w' = objs w.
Proof. intros H. apply H. Qed.

Lemma tracking_all e D0 l : forall T w,
  tracking e D0 T w ->
  exists T',
    tracking e D0 T' (track_all l w) /\
    (forall d, In d T' <->
               In d T \/ exists o k, In (o, k) l /\ depOf o k (track_all l w) = Some d) /\
    (forall o k, In (o, k) l -> exists d, depOf o k (track_all l w) = Some d) /\
    same_control w (track_all l w) /\
    (forall o' k' d', depOf o' k' w = Some d' -> depOf o' k' (track_all l w) = Some d') /\
    others_kept e w (track_all l w).
Proof.
  induction l as [|[o k] l IH]; intros T w Htr.
  - exists T. split; [exact Htr|]. split.
    { intros d. split; [auto|]. intros [H|(o & k & [] & _)]. exact H. }
    split; [intros o k []|]. split; [apply same_control_refl|].
    split; [auto|apply others_kept_refl].
  - destruct (tracking_step e D0 T o k w Htr) as (d & Hd & Htr1 & Hc1 & Hm1 & Hk1).
    destruct (IH (d :: T) (track o k w) Htr1) as (T' & Htr2 & HT' & Hall & Hc2 & Hm2 & Hk2).
    change (track_all ((o, k) :: l) w) with (track_all l (track o k w)).
    exists T'. split; [exact Htr2|]. split.
    { intros d'. rewrite HT'. simpl. split.
      - intros [[<-|H]|(o' & k' & Hin & Hd')].
        + right. exists o, k. split; [auto|]. apply Hm2, Hd.
        + auto.
        + right. exists o', k'. auto.
      - intros [H|(o' & k' & [[= <- <-]|Hin] & Hd')].
        + auto.
        + left. left. apply Hm2 in Hd. congruence.
        + right. exists o', k'. auto. }
    split. { intros o' k' [[= <- <-]|Hin]; [exists d; apply Hm2, Hd|apply Hall, Hin]. }
    split; [eapply same_control_trans; eassumption|].
    split; [intros o' k' d' H; apply Hm2, Hm1, H|].
    eapply others_kept_trans; eassumption.
Qed.

Lemma NoDup_cons_inv {A} (x : A) l : NoDup (x :: l) -> ~ In x l /\ NoDup l.
Proof.
  intros H. apply NoDup_cons in H as [H1 H2]. split; [|exact H2].
  intros Hin. apply H1, list_elem_of_In, Hin.
Qed.

(** A loop that alters the deps of a list one after the other. *)
Lemma fold_alterDep_spec (g : Z -> Dep -> Dep) ds : forall w,
  NoDup ds -> (forall d, In d ds -> d < length (depHeap w)) ->
  let w' := fold_left (fun w d => alterDep (g (trackOpBit w)) d w) ds w in
  same_control w w' /\ effects w' = effects w /\ targetMap w' = targetMap w /\
  length (depHeap w') = length (depHeap w) /\
  (forall d, In d ds -> getDep d w' = g (trackOpBit w) (getDep d w)) /\
  (forall d, ~ In d ds -> getDep d w' = getDep d w).
Proof.
  induction ds as [|d ds IH]; intros w Hnd Hr; simpl.
  - split; [apply same_control_refl|]. repeat split; auto. intros d [].
  - apply NoDup_cons_inv in Hnd as [Hnin Hnd].
    destruct (IH (alterDep (g (trackOpBit w)) d w) Hnd) as (Hc & He & Ht & Hl & Hin & Hout).
    { intros d' Hd'. simpl. rewrite length_alter. apply Hr. right. exact Hd'. }
    split. { eapply same_control_trans; [apply same_control_alterDep|exact Hc]. }
    split; [rewrite He; reflexivity|]. split; [rewrite Ht; reflexivity|].
    split; [rewrite Hl; simpl; apply length_alter|].
    split.
    + intros d' [<-|Hd'].
      * rewrite Hout by exact Hnin. apply getDep_alterDep_eq, Hr. left. reflexivity.
      * rewrite Hin by exact Hd'. simpl. rewrite getDep_alterDep_ne; [reflexivity|].
        intros ->. contradiction.
    + intros d' Hd'. rewrite Hout by (intros H; apply Hd'; right; exact H).
      apply getDep_alterDep_ne. intros ->. apply Hd'. left. reflexivity.
Qed.

Lemma initDepMarkers_spec e w :
  NoDup (deps (getEffect e w)) ->
  (forall d, In d (deps (getEffect e w)) -> d < length (depHeap w)) ->
  let w' := initDepMarkers e w in
  same_control w w' /\ effects w' = effects w /\ targetMap w' = targetMap w /\
  length (depHeap w') = length (depHeap w) /\
  (forall d, In d (deps (getEffect e w)) ->
             getDep d w' = set_w (Z.lor (dep_w (getDep d w)) (trackOpBit w)) (getDep d w)) /\
  (forall d, ~ In d (deps (getEffect e w)) -> getDep d w' = getDep d w).
Proof.
  intros Hnd Hr.
  apply (fold_alterDep_spec (fun b dep => set_w (Z.lor (dep_w dep) b) dep)); assumption.
Qed.

Lemma fold_finalize_spec e ds : forall w kept,
  NoDup ds -> (forall d, In d ds -> d < length (depHeap w)) ->
  exists w' ,
    fold_left (finalize_step e) ds (w, kept) = (w', kept ++ List.filter (kept_dep w) ds) /\
    same_control w w' /\ effects w' = effects w /\ targetMap w' = targetMap w /\
    length (depHeap w') = length (depHeap w) /\
    (forall d, In d ds ->
       getDep d w' =
         mkDep (if kept_dep w d then subs (getDep d w) else JS.set_delete e (subs (getDep d w)))
               (Z.land (dep_w (getDep d w)) (Z.lnot (trackOpBit w)))
               (Z.land (dep_n (getDep d w)) (Z.lnot (trackOpBit w)))) /\
    (forall d, ~ In d ds -> getDep d w' = getDep d w).
Proof.
  induction ds as [|d ds IH]; intros w kept Hnd Hr.
  - exists w. simpl. rewrite app_nil_r. split; [reflexivity|].
    split; [apply same_control_refl|]. repeat split; auto. intros d [].
  - apply NoDup_cons_inv in Hnd as [Hnin Hnd].
    assert (Hd : d < length (depHeap w)) by (apply Hr; left; reflexivity).
    change (fold_left (finalize_step e) (d :: ds) (w, kept))
      with (fold_left (finalize_step e) ds (finalize_step e (w, kept) d)).
    (* the world and the prefix after the turn for [d] *)
    set (w1 := if wasTracked w (getDep d w) && negb (newTracked w (getDep d w))
               then alterDep (fun x => set_subs (JS.set_delete e (subs x)) x) d w else w).
    set (k1 := if wasTracked w (getDep d w) && negb (newTracked w (getDep d w))
               then kept else kept ++ [d]).
    set (w2 := alterDep (fun x => set_n (Z.land (dep_n x) (Z.lnot (trackOpBit w1)))
                                  (set_w (Z.land (dep_w x) (Z.lnot (trackOpBit w1))) x)) d w1).
    assert (Hstep : finalize_step e (w, kept) d = (w2, k1)).
    { unfold finalize_step. subst w2 w1 k1.
      destruct (wasTracked w (getDep d w) && negb (newTracked w (getDep d w))); reflexivity. }
    rewrite Hstep.
    assert (Hc1 : same_control w w1 /\ effects w1 = effects w /\ targetMap w1 = targetMap w /\
                  length (depHeap w1) = length (depHeap w) /\
                  (forall d', d' <> d -> getDep d' w1 = getDep d' w)).
    { subst w1. destruct (wasTracked w (getDep d w) && negb (newTracked w (getDep d w))).
      - split; [apply same_control_alterDep|]. repeat split; try reflexivity.
        + simpl. apply length_alter.
        + intros d' Hne. apply getDep_alterDep_ne. congruence.
      - split; [apply same_control_refl|]. repeat split; reflexivity. }
    destruct Hc1 as (Hc1 & He1 & Ht1 & Hl1 & Hg1).
    assert (Hb1 : trackOpBit w1 = trackOpBit w) by apply Hc1.
    assert (Hc2 : same_control w w2).
    { eapply same_control_trans; [exact Hc1|apply same_control_alterDep]. }
    assert (Hb2 : trackOpBit w2 = trackOpBit w) by apply Hc2.
    assert (Hg2 : forall d', d' <> d -> getDep d' w2 = getDep d' w).
    { intros d' Hne. subst w2. rewrite getDep_alterDep_ne by congruence. apply Hg1, Hne. }
    destruct (IH w2 k1 Hnd) as (w' & Hfold & Hc & He & Ht & Hl & Hin & Hout).
    { intros d' Hd'. subst w2. simpl. rewrite length_alter, Hl1. apply Hr. right. exact Hd'. }
    assert (Hkd : forall d', d' <> d -> kept_dep w2 d' = kept_dep w d').
    { intros d' Hne. unfold kept_dep, wasTracked, newTracked.
      rewrite Hg2, Hb2 by exact Hne. reflexivity. }
    exists w'. split.
    { rewrite Hfold. f_equal. simpl. subst k1. unfold kept_dep at 2.
      assert (Hf : List.filter (kept_dep w2) ds = List.filter (kept_dep w) ds).
      { apply filter_ext_in. intros d' Hd'. apply Hkd. intros ->. contradiction. }
      rewrite Hf.
      destruct (wasTracked w (getDep d w) && negb (newTracked w (getDep d w))); simpl;
        [reflexivity|rewrite <- app_assoc; reflexivity]. }
    split; [eapply same_control_trans; eassumption|].
    split; [rewrite He; subst w2; simpl; exact He1|].
    split; [rewrite Ht; subst w2; simpl; exact Ht1|].
    split; [rewrite Hl; subst w2; simpl; rewrite length_alter; exact Hl1|].
    split.
    + intros d' [<-|Hd'].
      * rewrite Hout by exact Hnin. subst w2.
        rewrite getDep_alterDep_eq by (rewrite Hl1; exact Hd). rewrite Hb1.
        unfold kept_dep. subst w1.
        destruct (wasTracked w (getDep d w) && negb (newTracked w (getDep d w))); simpl.
        -- rewrite getDep_alterDep_eq by exact Hd. reflexivity.
        -- reflexivity.
      * assert (d' <> d) by (intros ->; contradiction).
        rewrite Hin by exact Hd'. rewrite Hkd, Hg2, Hb2 by assumption. reflexivity.
    + intros d' Hd'. rewrite Hout by (intros H; apply Hd'; right; exact H).
      apply Hg2. intros ->. apply Hd'. left. reflexivity.
Qed.

Lemma set_delete_In x y s : In y (JS.set_delete x s) <-> In y s /\ y <> x.
Proof.
  unfold JS.set_delete. rewrite filter_In, negb_true_iff, Nat.eqb_neq. intuition.
Qed.

Lemma NoDup_List_filter {A} (f : A -> bool) l : NoDup l -> NoDup (List.filter f l).
Proof.
  induction l as [|x l IH]; intros H; simpl; [exact H|].
  apply NoDup_cons_inv in H as [Hx Hl].
  destruct (f x); [|apply IH, Hl].
  apply NoDup_cons. split; [|apply IH, Hl].
  intros Hin. apply list_elem_of_In, filter_In in Hin. tauto.
Qed.

Lemma set_delete_NoDup x s : NoDup s -> NoDup (JS.set_delete x s).
Proof. apply NoDup_List_filter. Qed.

Lemma run_unfold fuel e w :
  active (getEffect e w) = true ->
  ~ In e (effectStack w) ->
  run (S fuel) e w =
    match exec (run fuel) (sched fuel) (call fuel) (fn (getEffect e w))
            (log (EvFn e) (run_try e w)) with
    | Some (v, w') => Some (v, run_finally e w')
    | None => None
    end.
Proof.
  intros Hact Hstack. simpl. unfold ReactiveEffect_run. rewrite Hact. simpl.
  assert (Hinc : JS.includes e (effectStack w) = false).
  { destruct (JS.includes e (effectStack w)) eqn:E; [|reflexivity].
    apply includes_In in E. contradiction. }
  rewrite Hinc. simpl. unfold bind, modify, ret.
  destruct (exec _ _ _ _ _) as [[v w']|]; reflexivity.
Qed.

Lemma run_try_tracking e w :
  ready e w ->
  let w1 := log (EvFn e) (run_try e w) in
  tracking e (deps (getEffect e w)) [] w1 /\
  effects w1 = effects w /\ targetMap w1 = targetMap w /\
  length (depHeap w1) = length (depHeap w) /\
  (forall d, subs (getDep d w1) = subs (getDep d w)) /\
  DEV w1 = DEV w /\ objs w1 = objs w /\ refs w1 = refs w /\ comps w1 = comps w /\
  effectTrackDepth w1 = S (effectTrackDepth w) /\
  trackOpBit w1 = JS.shl1 (S (effectTrackDepth w)) /\
  effectStack w1 = e :: effectStack w /\
  trackStack w1 = shouldTrack w :: trackStack w /\
  trace w1 = trace w ++ [EvFn e].
Proof.
  intros (He & Hact & Hstack & Hdepth & Hbits & Hnd & Hrange & Hagree & Hsets & Hwf) w1.
  unfold maxMarkerBits in Hdepth.
  set (w3 := with_depth (S (effectTrackDepth w)) (JS.shl1 (S (effectTrackDepth w)))
               (enableTracking (with_stack (e :: effectStack w) (Some e) w))).
  assert (Hw1 : w1 = log (EvFn e) (initDepMarkers e w3)).
  { subst w1.
    change (run_try e w) with
      (if S (effectTrackDepth w) <=? maxMarkerBits
       then initDepMarkers e w3 else cleanupEffect e w3).
    replace (S (effectTrackDepth w) <=? maxMarkerBits) with true; [reflexivity|].
    symmetry. apply Nat.leb_le. unfold maxMarkerBits. lia. }
  destruct (initDepMarkers_spec e w3) as (Hc & Heff & Htm & Hlen & Hin & Hout);
    [exact Hnd|exact Hrange|].
  destruct Hc as (HDEV & Hobjs & Hrefs & Hcomps & Hdp & Hb & Hstk & Hacte & Hsht & Htst & Htrc & Hlene).
  set (b := JS.shl1 (S (effectTrackDepth w))) in *.
  assert (Hbpos : (0 < b)%Z) by (apply shl1_pos; lia).
  assert (HgetE : getEffect e w1 = getEffect e w).
  { rewrite Hw1. unfold getEffect. simpl. rewrite Heff. reflexivity. }
  assert (HgetD : forall d, getDep d w1 = getDep d (initDepMarkers e w3))
    by (intros; rewrite Hw1; reflexivity).
  assert (Hsubs : forall d, subs (getDep d w1) = subs (getDep d w)).
  { intros d. rewrite HgetD. destruct (in_dec Nat.eq_dec d (deps (getEffect e w))) as [Hd|Hd].
    - rewrite Hin by exact Hd. reflexivity.
    - rewrite Hout by exact Hd. reflexivity. }
  split.
  - unfold tracking. rewrite HgetE.
    split; [rewrite Hw1; simpl; rewrite Hacte; reflexivity|].
    split; [rewrite Hw1; simpl; rewrite Hsht; reflexivity|].
    split; [rewrite Hw1; simpl; rewrite Hdp; simpl; unfold maxMarkerBits; lia|].
    split; [rewrite Hw1; simpl; rewrite Hb; exact Hbpos|].
    split; [rewrite Hw1; simpl; rewrite Hlene; exact He|].
    assert (Hbit1 : trackOpBit w1 = b) by (rewrite Hw1; simpl; rewrite Hb; reflexivity).
    split.
    { intros d. unfold wasTracked. rewrite Hbit1, HgetD.
      destruct (in_dec Nat.eq_dec d (deps (getEffect e w))) as [Hd|Hd].
      - rewrite Hin by exact Hd. simpl. change (trackOpBit w3) with b.
        rewrite land_lor_absorb. split; [auto|]. intros _. apply Z.gtb_lt, Hbpos.
      - rewrite Hout by exact Hd. change (getDep d w3) with (getDep d w).
        rewrite (proj1 (Hbits d)). split; [discriminate|contradiction]. }
    split.
    { intros d. unfold newTracked. rewrite Hbit1, HgetD.
      assert (Hn : dep_n (getDep d (initDepMarkers e w3)) = dep_n (getDep d w)).
      { destruct (in_dec Nat.eq_dec d (deps (getEffect e w))) as [Hd|Hd].
        - rewrite Hin by exact Hd. reflexivity.
        - rewrite Hout by exact Hd. reflexivity. }
      rewrite Hn, (proj2 (Hbits d)). split; [discriminate|intros []]. }
    split. { intros d. rewrite Hsubs, Hagree. simpl. tauto. }
    split. { intros d. simpl. tauto. }
    split; [exact Hnd|].
    split. { intros d [Hd|[]]. rewrite Hw1. simpl. rewrite Hlen. apply Hrange, Hd. }
    split. { intros d. rewrite Hsubs. apply Hsets. }
    destruct Hwf as [Hr Hi].
    assert (HdepOf : forall o k, depOf o k w1 = depOf o k w).
    { intros. rewrite Hw1. unfold depOf, depsMapOf. simpl. rewrite Htm. reflexivity. }
    split.
    + intros o k d. rewrite HdepOf, Hw1. simpl. rewrite Hlen. apply Hr.
    + intros o k o' k' d. rewrite !HdepOf. apply Hi.
  - rewrite Hw1. simpl.
    rewrite Heff, Htm, Hlen, HDEV, Hobjs, Hrefs, Hcomps, Hdp, Hb, Hstk, Htst, Htrc.
    repeat split; try reflexivity. rewrite Hw1 in Hsubs. exact Hsubs.
Qed.

Lemma finalizeDepMarkers_spec e w :
  e < length (effects w) ->
  NoDup (deps (getEffect e w)) ->
  (forall d, In d (deps (getEffect e w)) -> d < length (depHeap w)) ->
  let ds := deps (getEffect e w) in
  let w' := finalizeDepMarkers e w in
  same_control w w' /\ targetMap w' = targetMap w /\
  length (depHeap w') = length (depHeap w) /\
  getEffect e w' = set_deps (List.filter (kept_dep w) ds) (getEffect e w) /\
  (forall e', e' <> e -> getEffect e' w' = getEffect e' w) /\
  (forall d, In d ds ->
     getDep d w' =
       mkDep (if kept_dep w d then subs (getDep d w) else JS.set_delete e (subs (getDep d w)))
             (Z.land (dep_w (getDep d w)) (Z.lnot (trackOpBit w)))
             (Z.land (dep_n (getDep d w)) (Z.lnot (trackOpBit w)))) /\
  (forall d, ~ In d ds -> getDep d w' = getDep d w).
Proof.
  intros He Hnd Hr ds w'. subst w' ds. unfold finalizeDepMarkers.
  destruct (deps (getEffect e w)) as [|d0 ds0] eqn:Hds.
  - split; [apply same_control_refl|]. split; [reflexivity|]. split; [reflexivity|].
    split. { simpl. destruct (getEffect e w) as [a dl r f s]. simpl in Hds. subst dl. reflexivity. }
    split; [reflexivity|]. split; [intros d []|reflexivity].
  - rewrite <- Hds in Hnd, Hr |- *.
    destruct (fold_finalize_spec e (deps (getEffect e w)) w [] Hnd Hr)
      as (w1 & Hfold & Hc & Heff & Htm & Hlen & Hin & Hout).
    rewrite Hfold. simpl app.
    split. { eapply same_control_trans; [exact Hc|apply same_control_alterEffect]. }
    split; [exact Htm|]. split; [exact Hlen|].
    split. { rewrite getEffect_alterEffect_eq by (rewrite Heff; exact He).
             unfold getEffect. rewrite Heff. reflexivity. }
    split. { intros e' Hne. rewrite getEffect_alterEffect_ne by congruence.
             unfold getEffect. rewrite Heff. reflexivity. }
    split; [exact Hin|exact Hout].
Qed.

Lemma run_finally_spec e D0 T w depth0 stack0 st0 ts0 :
  tracking e D0 T w ->
  effectTrackDepth w = S depth0 -> depth0 < maxMarkerBits ->
  trackOpBit w = JS.shl1 (S depth0) ->
  effectStack w = e :: stack0 -> ~ In e stack0 ->
  trackStack w = st0 :: ts0 ->
  active (getEffect e w) = true ->
  let w' := run_finally e w in
  ready e w' /\
  (forall d, In e (subs (getDep d w')) <-> In d T) /\
  targetMap w' = targetMap w /\
  effectTrackDepth w' = depth0 /\ trackOpBit w' = JS.shl1 depth0 /\
  effectStack w' = stack0 /\ activeEffect w' = head stack0 /\
  shouldTrack w' = st0 /\ trackStack w' = ts0 /\
  DEV w' = DEV w /\ objs w' = objs w /\ refs w' = refs w /\ comps w' = comps w /\
  trace w' = trace w /\ length (effects w') = length (effects w) /\
  others_kept e w w'.
Proof.
  intros (Hact & Hst & Hdepth & Hbit & He & Hwas & Hnew & Hsubs & Hdeps & Hnd & Hrange & Hsets & Hwf)
    Hd0 Hlt Hb Hstk Hnin Hts Hactive w'.
  assert (Hr : forall d, In d (deps (getEffect e w)) -> d < length (depHeap w)).
  { intros d Hd. apply Hrange, Hdeps, Hd. }
  destruct (finalizeDepMarkers_spec e w He Hnd Hr) as (Hc & Htm & Hlen & HgE & HgE' & Hin & Hout).
  set (wf := finalizeDepMarkers e w) in *.
  destruct Hc as (HDEV & Hobjs & Hrefs & Hcomps & Hdp & Hbf & Hstkf & Hactf & Hshtf & Htstf & Htrc & Hlene).
  assert (Hw' : w' = with_stack stack0 (head stack0)
                       (with_tracking st0 ts0 (with_depth depth0 (JS.shl1 depth0) wf))).
  { subst w'. unfold run_finally.
    replace (effectTrackDepth w <=? maxMarkerBits) with true
      by (symmetry; apply Nat.leb_le; exact Hdepth).
    fold wf. rewrite Hdp, Hd0. simpl. rewrite Nat.sub_0_r.
    unfold resetTracking. simpl. rewrite Htstf, Hts. simpl. rewrite Hstkf, Hstk. reflexivity. }
  assert (HgetD : forall d, getDep d w' = getDep d wf) by (intros; rewrite Hw'; reflexivity).
  assert (HgetE : forall e', getEffect e' w' = getEffect e' wf) by (intros; rewrite Hw'; reflexivity).
  (* which deps are kept *)
  assert (Hkept : forall d, In d (deps (getEffect e w)) -> (kept_dep w d = true <-> In d T)).
  { intros d Hd. unfold kept_dep.
    destruct (wasTracked w (getDep d w)) eqn:Ew; destruct (newTracked w (getDep d w)) eqn:En;
      simpl; rewrite <- Hnew, En; try tauto.
    exfalso. apply Hdeps in Hd. rewrite <- Hwas, <- Hnew, Ew, En in Hd.
    destruct Hd; discriminate. }
  assert (Hsubs' : forall d, In e (subs (getDep d w')) <-> In d T).
  { intros d. rewrite HgetD.
    destruct (in_dec Nat.eq_dec d (deps (getEffect e w))) as [Hd|Hd].
    - rewrite Hin by exact Hd. simpl. destruct (kept_dep w d) eqn:Ek.
      + rewrite Hsubs. apply Hkept in Ek; [|exact Hd]. tauto.
      + rewrite set_delete_In. split; [tauto|]. intros HT. apply Hkept in HT; [|exact Hd]. congruence.
    - rewrite Hout by exact Hd. rewrite Hsubs. rewrite Hdeps in Hd. tauto. }
  assert (Hdeps' : forall d, In d (deps (getEffect e w')) <-> In d T).
  { intros d. rewrite HgetE, HgE. simpl. rewrite filter_In. split.
    - intros [Hd Hk]. apply Hkept in Hk; assumption.
    - intros HT. assert (Hd : In d (deps (getEffect e w))) by (apply Hdeps; auto).
      split; [exact Hd|]. apply Hkept; assumption. }
  assert (Hbpos : (0 < trackOpBit w)%Z) by exact Hbit.
  split.
  - unfold ready.
    split; [rewrite Hw'; simpl; rewrite Hlene; exact He|].
    split; [rewrite HgetE, HgE; simpl; exact Hactive|].
    split; [rewrite Hw'; simpl; exact Hnin|].
    split; [rewrite Hw'; simpl; exact Hlt|].
    split.
    { intros d. replace (effectTrackDepth w') with depth0 by (rewrite Hw'; reflexivity).
      rewrite HgetD, <- Hb.
      destruct (in_dec Nat.eq_dec d (deps (getEffect e w))) as [Hd|Hd].
      - rewrite Hin by exact Hd. simpl. split; apply land_clear.
      - rewrite Hout by exact Hd.
        assert (Hw0 : wasTracked w (getDep d w) = false).
        { destruct (wasTracked w (getDep d w)) eqn:E; [|reflexivity].
          exfalso. apply Hd, Hdeps. left. apply Hwas, E. }
        assert (Hn0 : newTracked w (getDep d w) = false).
        { destruct (newTracked w (getDep d w)) eqn:E; [|reflexivity].
          exfalso. apply Hd, Hdeps. right. apply Hnew, E. }
        split; apply unmarked_zero; assumption. }
    split. { rewrite HgetE, HgE. simpl. apply NoDup_List_filter, Hnd. }
    split. { intros d Hd. apply Hdeps' in Hd. rewrite Hw'. simpl. rewrite Hlen.
             apply Hrange. right. exact Hd. }
    split. { intros d. rewrite Hsubs', Hdeps'. reflexivity. }
    split.
    { intros d. rewrite HgetD.
      destruct (in_dec Nat.eq_dec d (deps (getEffect e w))) as [Hd|Hd].
      - rewrite Hin by exact Hd. simpl. destruct (kept_dep w d);
          [apply Hsets|apply set_delete_NoDup, Hsets].
      - rewrite Hout by exact Hd. apply Hsets. }
    destruct Hwf as [Hwr Hwi].
    assert (HdepOf : forall o k, depOf o k w' = depOf o k w).
    { intros. rewrite Hw'. unfold depOf, depsMapOf. simpl. rewrite Htm. reflexivity. }
    split.
    + intros o k d. rewrite HdepOf, Hw'. simpl. rewrite Hlen. apply Hwr.
    + intros o k o' k' d. rewrite !HdepOf. apply Hwi.
  - split; [exact Hsubs'|].
    assert (Hok : others_kept e w w').
    { unfold others_kept. split; [|split].
      - intros e' d Hne. rewrite HgetD.
        destruct (in_dec Nat.eq_dec d (deps (getEffect e w))) as [Hd|Hd].
        + rewrite Hin by exact Hd. simpl.
          destruct (kept_dep w d); [reflexivity|]. rewrite set_delete_In. tauto.
        + rewrite Hout by exact Hd. reflexivity.
      - intros e' Hne. rewrite HgetE. apply HgE', Hne.
      - rewrite HgetE, HgE. simpl. auto. }
    rewrite Hw' in Hok |- *. simpl.
    rewrite Htm, HDEV, Hobjs, Hrefs, Hcomps, Htrc, Hlene.
    repeat (split; [reflexivity|]). exact Hok.
Qed.

(** A run of an effect made of plain reads, from a state in which it can
    start: the effect ends subscribed to exactly the slots it read. *)
Lemma run_plain fuel e w :
  ready e w ->
  plain_reads (fn (getEffect e w)) w ->
  exists w',
    run (S fuel) e w = Some (result_of (fn (getEffect e w)) w, w') /\
    ready e w' /\
    (forall o k, subscribed e o k w' <-> In (o, k) (reads_of (fn (getEffect e w)) w)) /\
    others_kept e w w' /\
    (forall o k d, depOf o k w = Some d -> depOf o k w' = Some d) /\
    trace w' = trace w ++ [EvFn e] /\
    DEV w' = DEV w /\ objs w' = objs w /\ refs w' = refs w /\ comps w' = comps w /\
    effectTrackDepth w' = effectTrackDepth w /\
    trackOpBit w' = JS.shl1 (effectTrackDepth w) /\
    effectStack w' = effectStack w /\ activeEffect w' = head (effectStack w) /\
    shouldTrack w' = shouldTrack w /\ trackStack w' = trackStack w /\
    length (effects w') = length (effects w).
Proof.
  intros Hready Hplain.
  pose proof Hready as (He & Hactive & Hstack & Hdepth & _).
  rewrite run_unfold by assumption.
  destruct (run_try_tracking e w Hready)
    as (Htr1 & Heff1 & Htm1 & Hlen1 & Hsubs1 & HDEV1 & Hobjs1 & Hrefs1 & Hcomps1 &
        Hdp1 & Hb1 & Hstk1 & Hts1 & Htrc1).
  set (w1 := log (EvFn e) (run_try e w)) in *.
  set (p := fn (getEffect e w)) in *.
  rewrite (exec_plain_reads _ _ _ p w w1 Hplain Hobjs1).
  destruct (tracking_all e (deps (getEffect e w)) (reads_of p w) [] w1 Htr1)
    as (T & Htr2 & HT & Hall & Hc2 & Hm2 & Hk2).
  set (w2 := track_all (reads_of p w) w1) in *.
  destruct Hc2 as (HDEV2 & Hobjs2 & Hrefs2 & Hcomps2 & Hdp2 & Hb2 & Hstk2 & Hact2 & Hsht2 & Hts2 & Htrc2 & Hlene2).
  assert (HgetE1 : getEffect e w1 = getEffect e w)
    by (unfold getEffect; rewrite Heff1; reflexivity).
  assert (Hk1 : others_kept e w w1).
  { unfold others_kept. split; [intros e' d _; rewrite Hsubs1; reflexivity|].
    split; [intros e' _; unfold getEffect; rewrite Heff1; reflexivity|].
    rewrite HgetE1. auto. }
  assert (Hk12 : others_kept e w w2) by (eapply others_kept_trans; eassumption).
  destruct (run_finally_spec e (deps (getEffect e w)) T w2 (effectTrackDepth w)
              (effectStack w) (shouldTrack w) (trackStack w))
    as (Hready' & Hsubs' & Htm' & Hdp' & Hb' & Hstk' & Hact' & Hsht' & Hts' &
        HDEV' & Hobjs' & Hrefs' & Hcomps' & Htrc' & Hlene' & Hk');
    try congruence.
  { destruct Hk12 as (_ & _ & Ha & _). congruence. }
  exists (run_finally e w2). split; [reflexivity|].
  split; [exact Hready'|].
  assert (HdepOf' : forall o k, depOf o k (run_finally e w2) = depOf o k w2).
  { intros. unfold depOf, depsMapOf. rewrite Htm'. reflexivity. }
  split.
  { intros o k. unfold subscribed. split.
    - intros (d & Hd & Hin). rewrite HdepOf' in Hd. apply Hsubs', HT in Hin.
      destruct Hin as [[]|(o' & k' & Hin & Hd')].
      destruct Htr2 as (_ & _ & _ & _ & _ & _ & _ & _ & _ & _ & _ & _ & _ & Hinj).
      destruct (Hinj o k o' k' d Hd Hd') as [-> ->]. exact Hin.
    - intros Hin. destruct (Hall o k Hin) as (d & Hd). exists d.
      rewrite HdepOf'. split; [exact Hd|]. apply Hsubs', HT. right. exists o, k. auto. }
  split; [eapply others_kept_trans; eassumption|].
  split.
  { intros o k d Hd. rewrite HdepOf'. apply Hm2.
    unfold depOf, depsMapOf in *. rewrite Htm1. exact Hd. }
  repeat split; congruence.
Qed.


Lemma ternary_world_ready : ready 0 ternary_world.
Proof.
  assert (Hnone : forall d, getDep d ternary_world = noDep).
  { intros d. unfold getDep. simpl. destruct d; reflexivity. }
  unfold ready.
  split; [vm_compute; lia|]. split; [reflexivity|]. split; [intros []|].
  split; [vm_compute; lia|]. split; [intros d; rewrite Hnone; split; reflexivity|].
  split; [constructor|]. split; [intros d []|].
  split; [intros d; rewrite Hnone; simpl; tauto|].
  split; [intros d; rewrite Hnone; constructor|].
  split; intros; discriminate.
Qed.


(** The scenario of the spec, run: the effect runs once at creation, is
    not run when [s.b] changes, runs again when [s.cond] flips, and from
    then on is not run when [s.a] changes and runs when [s.b] does. *)
Example ternary_scenario :
  let step p k v ow :=
    match ow with
    | Some w => match set_prop 3 p k v w with Some (_, w') => Some w' | None => None end
    | None => None
    end in
  let s := VProxy false false 0 in
  option_map trace
    (step s (KStr "b") (VNum 22)
       (step s (KStr "a") (VNum 11)
          (step s (KStr "cond") (VNum 0)
             (step s (KStr "b") (VNum 21)
                (option_map snd (run 3 0 ternary_world)))))) =
  Some [EvFn 0;
        EvTrigger 0 SET (Some (KStr "b"));
        EvTrigger 0 SET (Some (KStr "cond")); EvRun 0; EvFn 0;
        EvTrigger 0 SET (Some (KStr "a"));
        EvTrigger 0 SET (Some (KStr "b")); EvRun 0; EvFn 0].
Proof. vm_compute. reflexivity. Qed.

(** ** Computed refs *)

Lemma nth_app_new {A} (l : list A) x d : nth (length l) (l ++ [x]) d = x.
Proof. rewrite app_nth2 by lia. rewrite Nat.sub_diag. reflexivity. Qed.

Lemma computed_spec getter w0 :
  unsubscribed w0 ->
  let c := fst (computed getter None w0) in
  let w1 := snd (computed getter None w0) in
  let e := length (effects w0) in
  c = length (comps w0) /\
  getComputed c w1 = mkComputed None VUndefined true e None /\
  getEffect e w1 = mkEffect true [] false getter (Some (SchedComputed c)) /\
  ready e w1 /\
  trace w1 = trace w0 /\ objs w1 = objs w0 /\ activeEffect w1 = None /\
  c < length (comps w1) /\
  (forall d, subs (getDep d w1) = []).
Proof.
  intros (Hstk & Hact & Hdepth & Hdeps & Hwf) c w1 e.
  assert (HgE : getEffect e w1 = mkEffect true [] false getter (Some (SchedComputed c))).
  { unfold getEffect. simpl. apply nth_app_new. }
  split; [reflexivity|].
  split. { unfold getComputed. simpl. apply nth_app_new. }
  split; [exact HgE|].
  split.
  { unfold ready. rewrite HgE. simpl.
    split; [unfold e; rewrite length_app; simpl; lia|]. split; [reflexivity|].
    split; [rewrite Hstk; intros []|].
    split; [rewrite Hdepth; unfold maxMarkerBits; lia|].
    split. { intros d. rewrite Hdepth. change (getDep d w1) with (getDep d w0). apply Hdeps. }
    split; [constructor|]. split; [intros d []|].
    split. { intros d. change (getDep d w1) with (getDep d w0).
             rewrite (proj1 (Hdeps d)). simpl. tauto. }
    split. { intros d. change (getDep d w1) with (getDep d w0).
             rewrite (proj1 (Hdeps d)). constructor. }
    exact Hwf. }
  split; [reflexivity|]. split; [reflexivity|]. split; [exact Hact|].
  split; [unfold c; simpl; rewrite length_app; simpl; lia|].
  intros d. change (getDep d w1) with (getDep d w0). apply Hdeps.
Qed.

(** A read of a clean computed outside any effect: the cached value, and
    nothing else happens. *)
Lemma read_cached fuel c w :
  activeEffect w = None ->
  c_dirty (getComputed c w) = false ->
  read_value fuel (VComputed c) w = Some (c_value (getComputed c w), w).
Proof.
  intros Hact Hdirty. unfold read_value, value_of, ComputedRefImpl_get_value, bind, modify.
  assert (Htr : trackRefValue (RBComputed c) w = w).
  { unfold trackRefValue, isTracking. rewrite Hact, andb_false_r. reflexivity. }
  rewrite Htr, Hdirty. reflexivity.
Qed.

Lemma read_times_cached fuel c n w :
  activeEffect w = None ->
  c_dirty (getComputed c w) = false ->
  n >= 1 ->
  read_times fuel (VComputed c) n w = Some (c_value (getComputed c w), w).
Proof.
  intros Hact Hdirty. induction n as [|n IH]; intros Hn; [lia|].
  destruct n as [|n]; [apply read_cached; assumption|].
  change (read_times fuel (VComputed c) (S (S n)))
    with (bind (read_value fuel (VComputed c)) (fun _ => read_times fuel (VComputed c) (S n))).
  unfold bind. rewrite read_cached by assumption. apply IH. lia.
Qed.

(** What a function of reads does depends on the objects only. *)
Lemma reads_objs p w w' :
  objs w = objs w' ->
  (plain_reads p w <-> plain_reads p w') /\
  reads_of p w = reads_of p w' /\
  result_of p w = result_of p w'.
Proof.
  intros Hobjs. induction p as [v|op k IH]; [simpl; tauto|].
  destruct op as [pr key| | | |]; try (simpl; tauto).
  destruct pr as [| | |ro sh o| | |]; try (simpl; tauto).
  destruct ro; [simpl; tauto|]. destruct sh; [simpl; tauto|].
  simpl. unfold plain_slot.
  assert (Hg : getObj o w = getObj o w') by (unfold getObj; rewrite Hobjs; reflexivity).
  rewrite Hg. destruct (IH (Reflect_get (getObj o w') key)) as (H1 & H2 & H3).
  rewrite H1, H2, H3. tauto.
Qed.

Lemma getComputed_alter_eq f c w :
  c < length (comps w) -> getComputed c (alterComputed f c w) = f (getComputed c w).
Proof. intros H. unfold getComputed, alterComputed. simpl. apply nth_alter_eq, H. Qed.

(** A read of a dirty computed outside any effect runs the getter once
    and caches what it returns. *)
Lemma read_dirty fuel c e w :
  activeEffect w = None -> effectStack w = [] ->
  c < length (comps w) ->
  c_dirty (getComputed c w) = true ->
  c_effect (getComputed c w) = e ->
  ready e w ->
  plain_reads (fn (getEffect e w)) w ->
  exists w',
    read_value (S fuel) (VComputed c) w = Some (result_of (fn (getEffect e w)) w, w') /\
    trace w' = trace w ++ [EvFn e] /\
    objs w' = objs w /\
    ready e w' /\
    activeEffect w' = None /\ effectStack w' = [] /\
    c < length (comps w') /\
    c_dirty (getComputed c w') = false /\
    c_effect (getComputed c w') = e /\
    c_dep (getComputed c w') = c_dep (getComputed c w) /\
    c_value (getComputed c w') = result_of (fn (getEffect e w)) w /\
    (forall o k, subscribed e o k w' <-> In (o, k) (reads_of (fn (getEffect e w)) w)) /\
    others_kept e w w' /\
    targetMap_wf w' /\ deps_are_sets w'.
Proof.
  intros Hact Hstk Hc Hdirty Heff Hready Hplain.
  unfold read_value, value_of, ComputedRefImpl_get_value, bind, modify.
  assert (Htr : trackRefValue (RBComputed c) w = w).
  { unfold trackRefValue, isTracking. rewrite Hact, andb_false_r. reflexivity. }
  rewrite Htr, Hdirty, Heff.
  set (wb := alterComputed
               (fun x => mkComputed (c_dep x) (c_value x) false (c_effect x) (c_setter x)) c w).
  assert (Hreadyb : ready e wb) by exact Hready.
  assert (Hobjsb : objs w = objs wb) by reflexivity.
  destruct (reads_objs (fn (getEffect e w)) w wb Hobjsb) as (Hp & Hr & Hv).
  assert (Hplainb : plain_reads (fn (getEffect e wb)) wb) by (apply Hp, Hplain).
  destruct (run_plain fuel e wb Hreadyb Hplainb)
    as (wc & Hrun & Hreadyc & Hsub & Hkept & Hmono & Htrace & HDEV & Hobjs & Hrefs & Hcomps &
        Hdp & Hb & Hstkc & Hactc & Hsht & Hts & Hlene).
  rewrite Hrun. simpl.
  change (fn (getEffect e wb)) with (fn (getEffect e w)) in *.
  rewrite <- Hr in Hsub. rewrite <- Hv in *.
  set (v := result_of (fn (getEffect e w)) w) in *.
  set (wd := alterComputed (fun x => mkComputed (c_dep x) v (c_dirty x) (c_effect x) (c_setter x)) c wc).
  assert (Hcb : c < length (comps wc)).
  { rewrite Hcomps. subst wb. simpl. rewrite length_alter. exact Hc. }
  assert (HgC : getComputed c wd =
                mkComputed (c_dep (getComputed c w)) v false (c_effect (getComputed c w))
                  (c_setter (getComputed c w))).
  { subst wd. rewrite getComputed_alter_eq by exact Hcb.
    unfold getComputed at 1 2 3 4. rewrite Hcomps.
    change (nth c (comps wb) noComputed) with (getComputed c wb).
    subst wb. rewrite getComputed_alter_eq by exact Hc. reflexivity. }
  exists wd. unfold get. rewrite HgC. simpl.
  split; [reflexivity|]. split; [exact Htrace|]. split; [exact Hobjs|].
  split; [exact Hreadyc|]. split; [rewrite Hactc; subst wb; simpl; rewrite Hstk; reflexivity|].
  split; [rewrite Hstkc; exact Hstk|].
  split; [subst wd; simpl; rewrite length_alter; exact Hcb|].
  split; [reflexivity|]. split; [exact Heff|]. split; [reflexivity|]. split; [reflexivity|].
  split; [exact Hsub|]. split; [exact Hkept|].
  split; apply Hreadyc.
Qed.

Lemma prim_toRaw v : isObject v = false -> toRaw v = v /\ isReadonly v = false /\ isRef v = false.
Proof. destruct v as [| | |[] ? ?| | |]; simpl; try discriminate; auto. Qed.

(** When every dep holds at most the effect [e], a [trigger] that
    reaches a dep of [e] hands exactly [e] to [triggerEffects]. *)
Lemma trigger_effects_single w ds e d :
  deps_are_sets w ->
  (forall d' e', In e' (subs (getDep d' w)) -> e' = e) ->
  In (Some d) ds -> In e (subs (getDep d w)) ->
  trigger_effects w ds = [e].
Proof.
  intros Hsets Honly Hd He.
  pose proof (trigger_effects_NoDup w ds Hsets) as Hnd.
  assert (Hin : forall x, In x (trigger_effects w ds) -> x = e).
  { intros x Hx. apply trigger_effects_In in Hx as (d' & _ & Hx). eapply Honly, Hx. }
  assert (Hine : In e (trigger_effects w ds)).
  { apply trigger_effects_In. exists d. auto. }
  destruct (trigger_effects w ds) as [|x [|y l]]; [destruct Hine| |].
  - rewrite (Hin x); [reflexivity|left; reflexivity].
  - exfalso. rewrite (Hin x) in Hnd by (left; reflexivity).
    rewrite (Hin y) in Hnd by (right; left; reflexivity).
    apply NoDup_cons in Hnd as [Hnd _]. apply Hnd. left.
Qed.

Lemma write_dependency fuel c e o k v w :
  activeEffect w = None ->
  c < length (comps w) ->
  c_dirty (getComputed c w) = false ->
  c_dep (getComputed c w) = None ->
  scheduler (getEffect e w) = Some (SchedComputed c) ->
  subscribed e o k w ->
  (forall d e', In e' (subs (getDep d w)) -> e' = e) ->
  deps_are_sets w ->
  o_kind (getObj o w) = TPlain ->
  isObject v = false ->
  isObject (Reflect_get (getObj o w) k) = false ->
  hasChanged v (Reflect_get (getObj o w) k) = true ->
  exists w' ty,
    set_prop (S fuel) (VProxy false false o) k v w = Some (true, w') /\
    trace w' = trace w ++ [EvTrigger o ty (Some k); EvScheduler e] /\
    objs w' = alter (Reflect_set k v) o (objs w) /\
    c < length (comps w') /\
    c_dirty (getComputed c w') = true /\
    c_effect (getComputed c w') = c_effect (getComputed c w) /\
    effects w' = effects w /\ depHeap w' = depHeap w /\ targetMap w' = targetMap w /\
    effectStack w' = effectStack w /\ activeEffect w' = activeEffect w /\
    effectTrackDepth w' = effectTrackDepth w.
Proof.
  intros Hact Hc Hdirty Hcdep Hsched (d & Hd & Hin) Honly Hsets Hkind Hv Hold Hch.
  destruct (prim_toRaw v Hv) as (Hvraw & Hvro & Hvref).
  destruct (prim_toRaw _ Hold) as (Horaw & _ & Horef).
  unfold depOf in Hd. destruct (depsMapOf o w) as [depsMap|] eqn:Hmap; [|discriminate].
  set (ty := if hasOwn (getObj o w) k then SET else ADD).
  set (w1 := alterObj (Reflect_set k v) o w).
  set (w2 := log (EvTrigger o ty (Some k)) w1).
  assert (Hkind1 : o_kind (getObj o w2) = TPlain).
  { change (getObj o w2) with (nth o (alter (Reflect_set k v) o (objs w)) noObj).
    destruct (Nat.lt_ge_cases o (length (objs w))) as [Hlt|Hge].
    - rewrite nth_alter_eq by exact Hlt. fold (getObj o w).
      unfold Reflect_set. rewrite Hkind. reflexivity.
    - rewrite nth_alter_ge by exact Hge. exact Hkind. }
  assert (Hds : exists rest,
             trigger_deps TPlain depsMap ty (Some k) v = Some d :: rest).
  { unfold trigger_deps. subst ty.
    destruct (hasOwn (getObj o w) k); simpl;
      (destruct k; simpl; rewrite ?Hd; eexists; reflexivity). }
  destruct Hds as (rest & Hds).
  assert (Hl : trigger_effects w2 (trigger_deps TPlain depsMap ty (Some k) v) = [e]).
  { apply (trigger_effects_single w2 _ e d).
    - exact Hsets.
    - exact Honly.
    - rewrite Hds. left. reflexivity.
    - exact Hin. }
  assert (Htrig : trigger (run (S fuel)) (sched (S fuel)) o ty (Some k) v w1 =
                  Some (tt, alterComputed
                              (fun x => mkComputed (c_dep x) (c_value x) true (c_effect x) (c_setter x))
                              c (log (EvScheduler e) w2))).
  { unfold trigger, bind, modify. simpl. fold w2.
    change (depsMapOf o w2) with (depsMapOf o w). rewrite Hmap.
    rewrite Hkind1, Hl. unfold triggerEffects. simpl. unfold bind at 1.
    change (activeEffect w2) with (activeEffect w). rewrite Hact. simpl.
    change (getEffect e w2) with (getEffect e w). rewrite Hsched.
    unfold bind, modify. simpl. unfold call_scheduler.
    change (getEffect e (log (EvScheduler e) w2)) with (getEffect e w). rewrite Hsched.
    unfold ComputedRefImpl_scheduler.
    change (getComputed c (log (EvScheduler e) w2)) with (getComputed c w).
    rewrite Hdirty. simpl. unfold bind, modify, triggerRefValue. simpl.
    rewrite getComputed_alter_eq by exact Hc. change (getComputed c (log (EvScheduler e) w2))
      with (getComputed c w). simpl. rewrite Hcdep. reflexivity. }
  eexists. exists ty. split.
  { unfold set_prop, proxy_set, createSetter.
    rewrite Hkind, Hvro. simpl. rewrite Hvraw, Horaw, Horef. simpl.
    rewrite Nat.eqb_refl. fold w1.
    change (fun e0 => ReactiveEffect_run (run fuel) (sched fuel) (call fuel) e0)
      with (run (S fuel)).
    change (fun e0 => call_scheduler (run fuel) (sched fuel) (call fuel) e0)
      with (sched (S fuel)).
    assert (Hhad : match k with
                   | KIdx _ => hasOwn (getObj o w) k
                   | _ => hasOwn (getObj o w) k
                   end = hasOwn (getObj o w) k) by (destruct k; reflexivity).
    rewrite Hhad. subst ty. unfold bind in *.
    destruct (hasOwn (getObj o w) k); cbv [negb].
    - rewrite Hch. rewrite Htrig. reflexivity.
    - rewrite Htrig. reflexivity. }
  simpl. rewrite <- app_assoc. simpl.
  split; [reflexivity|]. split; [reflexivity|].
  split; [rewrite length_alter; exact Hc|].
  split. { rewrite getComputed_alter_eq by exact Hc. reflexivity. }
  split. { rewrite getComputed_alter_eq by exact Hc. reflexivity. }
  repeat split; reflexivity.
Qed.

Lemma ready_frame e w w' :
  effects w' = effects w -> depHeap w' = depHeap w -> targetMap w' = targetMap w ->
  effectStack w' = effectStack w -> effectTrackDepth w' = effectTrackDepth w ->
  ready e w -> ready e w'.
Proof.
  intros He Hd Ht Hs Hdp.
  unfold ready, deps_are_sets, targetMap_wf, depOf, depsMapOf, getEffect, getDep.
  rewrite He, Hd, Ht, Hs, Hdp. tauto.
Qed.

Lemma plain_reads_slot p w o k :
  plain_reads p w -> In (o, k) (reads_of p w) -> plain_slot o k w.
Proof.
  induction p as [v|op c IH]; intros Hp Hin; [destruct Hin|].
  destruct op as [pr key| | | |]; try destruct Hp.
  destruct pr as [| | |ro sh o'| | |]; try destruct Hp.
  destruct ro; [destruct Hp|]. destruct sh; [destruct Hp|].
  destruct Hp as [Hslot Hp]. simpl in Hin. destruct Hin as [[= <- <-]|Hin].
  - exact Hslot.
  - eapply IH; eassumption.
Qed.

Lemma read_times_dirty fuel c e n w :
  activeEffect w = None -> effectStack w = [] ->
  c < length (comps w) ->
  c_dirty (getComputed c w) = true ->
  c_effect (getComputed c w) = e ->
  ready e w ->
  plain_reads (fn (getEffect e w)) w ->
  1 <= n ->
  exists w',
    read_times (S fuel) (VComputed c) n w = Some (result_of (fn (getEffect e w)) w, w') /\
    trace w' = trace w ++ [EvFn e] /\
    objs w' = objs w /\
    ready e w' /\
    activeEffect w' = None /\ effectStack w' = [] /\
    c < length (comps w') /\
    c_dirty (getComputed c w') = false /\
    c_effect (getComputed c w') = e /\
    c_dep (getComputed c w') = c_dep (getComputed c w) /\
    (forall o k, subscribed e o k w' <-> In (o, k) (reads_of (fn (getEffect e w)) w)) /\
    others_kept e w w' /\
    targetMap_wf w' /\ deps_are_sets w'.
Proof.
  intros Hact Hstk Hc Hdirty Heff Hready Hplain Hn.
  destruct (read_dirty fuel c e w Hact Hstk Hc Hdirty Heff Hready Hplain)
    as (w' & Hread & Htrace & Hobjs & Hready' & Hact' & Hstk' & Hc' & Hdirty' & Heff' &
        Hdep' & Hval' & Hsub & Hkept & Hwf & Hsets).
  exists w'. split.
  - destruct n as [|[|n]]; [lia|exact Hread|].
    change (read_times (S fuel) (VComputed c) (S (S n)))
      with (bind (read_value (S fuel) (VComputed c))
              (fun _ => read_times (S fuel) (VComputed c) (S n))).
    unfold bind. rewrite Hread.
    rewrite read_times_cached by (assumption || lia). rewrite Hval'. reflexivity.
  - repeat (split; [assumption|]). assumption.
Qed.



End Reactivity.

(** * The scheduler *)

Module Scheduler.

(** A job is a JavaScript function carrying the fields [id], [active] and
    [allowRecurse]; jobs are compared by identity, so they live in a heap
    and queues hold their addresses. *)
Definition JobId := nat.

(** What the body of a job does to the scheduler: it calls its exported
    functions, or clears the [active] flag of a job (as stopping the effect
    of an unmounted component does).  A body does not call the flush
    functions itself. *)
Inductive Call : Type :=
| CQueueJob (j : JobId)
| CQueuePreFlushCb (j : JobId)
| CQueuePostFlushCb (j : JobId)
| CQueuePostFlushCbs (js : list JobId)
| CInvalidateJob (j : JobId)
| CDeactivate (j : JobId).

(** [active] is [job.active !== false]; [id = None] is [job.id == null]. *)
Record SchedulerJob : Type := mkJob {
  id : option Z;
  active : bool;
  allowRecurse : bool;
  body : list Call
}.

Inductive Phase : Type := Pre | Main | Post.

Inductive Event : Type :=
| EvRun (p : Phase) (j : JobId)
| EvWarn (j : JobId).

(** [CountMap = Map<SchedulerJob, number>]. *)
Definition CountMap := list (JobId * nat).

(** The module-level variables of scheduler.ts.  [isFlushPending] stands
    for the microtask that [queueFlush] registers: the flush it announces
    is a call of [flushJobs]. *)
Record State : Type := mkState {
  DEV : bool;
  jobs : list SchedulerJob;
  isFlushing : bool;
  isFlushPending : bool;
  queue : list JobId;
  flushIndex : nat;
  pendingPreFlushCbs : list JobId;
  activePreFlushCbs : option (list JobId);
  preFlushIndex : nat;
  pendingPostFlushCbs : list JobId;
  activePostFlushCbs : option (list JobId);
  postFlushIndex : nat;
  currentPreFlushParentJob : option JobId;
  trace : list Event
}.

Definition RECURSION_LIMIT : nat := 100.

Definition initialState (dev : bool) (js : list SchedulerJob) : State :=
  mkState dev js false false [] 0 [] None 0 [] None 0 None [].

Definition with_jobs (x : list SchedulerJob) (s : State) : State :=
  mkState (DEV s) x (isFlushing s) (isFlushPending s) (queue s) (flushIndex s)
    (pendingPreFlushCbs s) (activePreFlushCbs s) (preFlushIndex s)
    (pendingPostFlushCbs s) (activePostFlushCbs s) (postFlushIndex s)
    (currentPreFlushParentJob s) (trace s).

Definition with_isFlushing (x : bool) (s : State) : State :=
  mkState (DEV s) (jobs s) x (isFlushPending s) (queue s) (flushIndex s)
    (pendingPreFlushCbs s) (activePreFlushCbs s) (preFlushIndex s)
    (pendingPostFlushCbs s) (activePostFlushCbs s) (postFlushIndex s)
    (currentPreFlushParentJob s) (trace s).

Definition with_isFlushPending (x : bool) (s : State) : State :=
  mkState (DEV s) (jobs s) (isFlushing s) x (queue s) (flushIndex s)
    (pendingPreFlushCbs s) (activePreFlushCbs s) (preFlushIndex s)
    (pendingPostFlushCbs s) (activePostFlushCbs s) (postFlushIndex s)
    (currentPreFlushParentJob s) (trace s).

Definition with_queue (x : list JobId) (s : State) : State :=
  mkState (DEV s) (jobs s) (isFlushing s) (isFlushPending s) x (flushIndex s)
    (pendingPreFlushCbs s) (activePreFlushCbs s) (preFlushIndex s)
    (pendingPostFlushCbs s) (activePostFlushCbs s) (postFlushIndex s)
    (currentPreFlushParentJob s) (trace s).

Definition with_flushIndex (x : nat) (s : State) : State :=
  mkState (DEV s) (jobs s) (isFlushing s) (isFlushPending s) (queue s) x
    (pendingPreFlushCbs s) (activePreFlushCbs s) (preFlushIndex s)
    (pendingPostFlushCbs s) (activePostFlushCbs s) (postFlushIndex s)
    (currentPreFlushParentJob s) (trace s).

Definition with_pendingPre (x : list JobId) (s : State) : State :=
  mkState (DEV s) (jobs s) (isFlushing s) (isFlushPending s) (queue s) (flushIndex s)
    x (activePreFlushCbs s) (preFlushIndex s)
    (pendingPostFlushCbs s) (activePostFlushCbs s) (postFlushIndex s)
    (currentPreFlushParentJob s) (trace s).

Definition with_activePre (x : option (list JobId)) (s : State) : State :=
  mkState (DEV s) (jobs s) (isFlushing s) (isFlushPending s) (queue s) (flushIndex s)
    (pendingPreFlushCbs s) x (preFlushIndex s)
    (pendingPostFlushCbs s) (activePostFlushCbs s) (postFlushIndex s)
    (currentPreFlushParentJob s) (trace s).

Definition with_preFlushIndex (x : nat) (s : State) : State :=
  mkState (DEV s) (jobs s) (isFlushing s) (isFlushPending s) (queue s) (flushIndex s)
    (pendingPreFlushCbs s) (activePreFlushCbs s) x
    (pendingPostFlushCbs s) (activePostFlushCbs s) (postFlushIndex s)
    (currentPreFlushParentJob s) (trace s).

Definition with_pendingPost (x : list JobId) (s : State) : State :=
  mkState (DEV s) (jobs s) (isFlushing s) (isFlushPending s) (queue s) (flushIndex s)
    (pendingPreFlushCbs s) (activePreFlushCbs s) (preFlushIndex s)
    x (activePostFlushCbs s) (postFlushIndex s)
    (currentPreFlushParentJob s) (trace s).

Definition with_activePost (x : option (list JobId)) (s : State) : State :=
  mkState (DEV s) (jobs s) (isFlushing s) (isFlushPending s) (queue s) (flushIndex s)
    (pendingPreFlushCbs s) (activePreFlushCbs s) (preFlushIndex s)
    (pendingPostFlushCbs s) x (postFlushIndex s)
    (currentPreFlushParentJob s) (trace s).

Definition with_postFlushIndex (x : nat) (s : State) : State :=
  mkState (DEV s) (jobs s) (isFlushing s) (isFlushPending s) (queue s) (flushIndex s)
    (pendingPreFlushCbs s) (activePreFlushCbs s) (preFlushIndex s)
    (pendingPostFlushCbs s) (activePostFlushCbs s) x
    (currentPreFlushParentJob s) (trace s).

Definition with_parentJob (x : option JobId) (s : State) : State :=
  mkState (DEV s) (jobs s) (isFlushing s) (isFlushPending s) (queue s) (flushIndex s)
    (pendingPreFlushCbs s) (activePreFlushCbs s) (preFlushIndex s)
    (pendingPostFlushCbs s) (activePostFlushCbs s) (postFlushIndex s)
    x (trace s).

Definition log (e : Event) (s : State) : State :=
  mkState (DEV s) (jobs s) (isFlushing s) (isFlushPending s) (queue s) (flushIndex s)
    (pendingPreFlushCbs s) (activePreFlushCbs s) (preFlushIndex s)
    (pendingPostFlushCbs s) (activePostFlushCbs s) (postFlushIndex s)
    (currentPreFlushParentJob s) (trace s ++ [e]).

Definition noJob : SchedulerJob := mkJob None true false [].

Definition getJob (j : JobId) (s : State) : SchedulerJob := nth j (jobs s) noJob.

(** [getId]: [None] is [Infinity]. *)
Definition getId (j : JobId) (s : State) : option Z := id (getJob j s).

(** [a < b] on ids, with [None] for [Infinity]. *)
Definition id_lt (a b : option Z) : bool :=
  match a, b with
  | Some x, Some y => (x <? y)%Z
  | Some _, None => true
  | None, _ => false
  end.

(** [array.includes(x, fromIndex)]. *)
Definition includes_from (x : JobId) (from : nat) (l : list JobId) : bool :=
  JS.includes x (skipn from l).

(** [array.indexOf(x)]; [None] is [-1]. *)
Fixpoint indexOf (x : JobId) (l : list JobId) : option nat :=
  match l with
  | [] => None
  | y :: r => if Nat.eqb x y then Some 0 else option_map S (indexOf x r)
  end.

(** [array.splice(i, 0, x)]. *)
Definition splice_in (i : nat) (x : JobId) (l : list JobId) : list JobId :=
  firstn i l ++ x :: skipn i l.

(** [array.splice(i, 1)]. *)
Definition splice_out (i : nat) (l : list JobId) : list JobId :=
  firstn i l ++ skipn (S i) l.

(** [array.sort((a, b) => getId(a) - getId(b))]: the sort is stable, and
    the comparator is negative exactly when [getId(a) < getId(b)]
    ([Infinity - Infinity] is [NaN], which counts as equal). *)
Fixpoint sort_insert (s : State) (x : JobId) (l : list JobId) : list JobId :=
  match l with
  | [] => [x]
  | y :: r => if id_lt (getId y s) (getId x s) then y :: sort_insert s x r
              else x :: y :: r
  end.

Definition sort_by_id (s : State) (l : list JobId) : list JobId :=
  fold_right (sort_insert s) [] l.

(** The loop of [findInsertionIndex]; the interval halves at every turn,
    so the length of the queue bounds the number of turns. *)
Fixpoint findInsertionIndex_loop (turns : nat) (s : State) (i : Z) (start end_ : nat) : nat :=
  match turns with
  | 0 => start
  | S t =>
      if start <? end_ then
        let middle := Nat.div2 (start + end_) in
        let middleJobId := getId (nth middle (queue s) 0) s in
        if id_lt middleJobId (Some i)
        then findInsertionIndex_loop t s i (middle + 1) end_
        else findInsertionIndex_loop t s i start middle
      else start
  end.

Definition findInsertionIndex (i : Z) (s : State) : nat :=
  findInsertionIndex_loop (length (queue s)) s i (flushIndex s + 1) (length (queue s)).

Definition queueFlush (s : State) : State :=
  if negb (isFlushing s) && negb (isFlushPending s)
  then with_isFlushPending true s
  else s.

Definition queueJob (job : JobId) (s : State) : State :=
  let from :=
    if isFlushing s && allowRecurse (getJob job s) then flushIndex s + 1 else flushIndex s in
  if ((length (queue s) =? 0) || negb (includes_from job from (queue s)))
     && negb (match currentPreFlushParentJob s with
              | Some p => Nat.eqb job p
              | None => false
              end)
  then
    let s1 :=
      match getId job s with
      | None => with_queue (queue s ++ [job]) s
      | Some i => with_queue (splice_in (findInsertionIndex i s) job (queue s)) s
      end in
    queueFlush s1
  else s.

Definition invalidateJob (job : JobId) (s : State) : State :=
  match indexOf job (queue s) with
  | Some i => if flushIndex s <? i then with_queue (splice_out i (queue s)) s else s
  | None => s
  end.

(** [queueCb] for a single callback. *)
Definition queueCb (cb : JobId) (activeQueue : option (list JobId)) (index : nat)
    (push : JobId -> State -> State) (s : State) : State :=
  let s1 :=
    match activeQueue with
    | None => push cb s
    | Some a =>
        if negb (includes_from cb (if allowRecurse (getJob cb s) then index + 1 else index) a)
        then push cb s else s
    end in
  queueFlush s1.

Definition queuePreFlushCb (cb : JobId) (s : State) : State :=
  queueCb cb (activePreFlushCbs s) (preFlushIndex s)
    (fun c s => with_pendingPre (pendingPreFlushCbs s ++ [c]) s) s.

Definition queuePostFlushCb (cb : JobId) (s : State) : State :=
  queueCb cb (activePostFlushCbs s) (postFlushIndex s)
    (fun c s => with_pendingPost (pendingPostFlushCbs s ++ [c]) s) s.

(** [queueCb] for an array of callbacks: no search for duplicates. *)
Definition queuePostFlushCbs (cbs : list JobId) (s : State) : State :=
  queueFlush (with_pendingPost (pendingPostFlushCbs s ++ cbs) s).

Definition setJob (j : JobId) (f : SchedulerJob -> SchedulerJob) (s : State) : State :=
  with_jobs (alter f j (jobs s)) s.

Definition deactivate (j : JobId) (s : State) : State :=
  setJob j (fun job => mkJob (id job) false (allowRecurse job) (body job)) s.

Definition do_call (s : State) (c : Call) : State :=
  match c with
  | CQueueJob j => queueJob j s
  | CQueuePreFlushCb j => queuePreFlushCb j s
  | CQueuePostFlushCb j => queuePostFlushCb j s
  | CQueuePostFlushCbs js => queuePostFlushCbs js s
  | CInvalidateJob j => invalidateJob j s
  | CDeactivate j => deactivate j s
  end.

(** Calling the job [j] from phase [p]. *)
Definition run_job (p : Phase) (j : JobId) (s : State) : State :=
  fold_left do_call (body (getJob j s)) (log (EvRun p j) s).

Fixpoint count_of (m : CountMap) (j : JobId) : option nat :=
  match m with
  | [] => None
  | (k, n) :: r => if Nat.eqb j k then Some n else count_of r j
  end.

Fixpoint count_set (m : CountMap) (j : JobId) (n : nat) : CountMap :=
  match m with
  | [] => [(j, n)]
  | (k, c) :: r => if Nat.eqb j k then (k, n) :: r else (k, c) :: count_set r j n
  end.

(** [checkRecursiveUpdates]: [true] after the warning, [false] for
    [undefined]. *)
Definition checkRecursiveUpdates (seen : CountMap) (fn : JobId) (s : State)
    : bool * CountMap * State :=
  match count_of seen fn with
  | None => (false, count_set seen fn 1, s)
  | Some count =>
      if RECURSION_LIMIT <? count
      then (true, seen, log (EvWarn fn) s)
      else (false, count_set seen fn (count + 1), s)
  end.

(** [__DEV__ && checkRecursiveUpdates(seen!, job)].  In a development
    build [seen] has been set by the caller. *)
Definition check (seen : option CountMap) (job : JobId) (s : State)
    : bool * option CountMap * State :=
  if DEV s then
    match seen with
    | Some m =>
        let r := checkRecursiveUpdates m job s in
        (fst (fst r), Some (snd (fst r)), snd r)
    | None => (false, None, s)
    end
  else (false, seen, s).

(** [if (__DEV__) { seen = seen || new Map() }]. *)
Definition seen_or_new (seen : option CountMap) (s : State) : option CountMap :=
  if DEV s then Some (match seen with Some m => m | None => [] end) else seen.

(** The flush functions loop while jobs add jobs, so they take fuel; when
    the fuel runs out they hand back the state reached so far. *)
Inductive Outcome : Type :=
| Finished (seen : option CountMap) (s : State)
| OutOfFuel (seen : option CountMap) (s : State).

Definition andThen (o : Outcome) (k : option CountMap -> State -> Outcome) : Outcome :=
  match o with
  | Finished seen s => k seen s
  | OutOfFuel seen s => OutOfFuel seen s
  end.

Definition state_of (o : Outcome) : State :=
  match o with Finished _ s | OutOfFuel _ s => s end.

Definition seen_of (o : Outcome) : option CountMap :=
  match o with Finished m _ | OutOfFuel m _ => m end.

(** The [for] loop of [flushPreFlushCbs], entered after
    [preFlushIndex = 0]. *)
Fixpoint preFlushLoop (fuel : nat) (seen : option CountMap) (s : State) : Outcome :=
  match fuel with
  | 0 => OutOfFuel seen s
  | S f =>
      let a := match activePreFlushCbs s with Some a => a | None => [] end in
      if preFlushIndex s <? length a then
        let job := nth (preFlushIndex s) a 0 in
        let r := check seen job s in
        let s1 := if fst (fst r) then snd r else run_job Pre job (snd r) in
        preFlushLoop f (snd (fst r)) (with_preFlushIndex (preFlushIndex s1 + 1) s1)
      else Finished seen s
  end.

Fixpoint flushPreFlushCbs (fuel : nat) (seen : option CountMap) (parentJob : option JobId)
    (s : State) : Outcome :=
  match fuel with
  | 0 => OutOfFuel seen s
  | S f =>
      if negb (length (pendingPreFlushCbs s) =? 0) then
        let s1 := with_parentJob parentJob s in
        let s2 := with_activePre (Some (JS.set_of_array (pendingPreFlushCbs s1))) s1 in
        let s3 := with_pendingPre [] s2 in
        let seen1 := seen_or_new seen s3 in
        andThen (preFlushLoop f seen1 (with_preFlushIndex 0 s3)) (fun seen2 s4 =>
          let s5 := with_parentJob None (with_preFlushIndex 0 (with_activePre None s4)) in
          flushPreFlushCbs f seen2 parentJob s5)
      else Finished seen s
  end.

(** The [for] loop of [flushPostFlushCbs]. *)
Fixpoint postFlushLoop (fuel : nat) (seen : option CountMap) (s : State) : Outcome :=
  match fuel with
  | 0 => OutOfFuel seen s
  | S f =>
      let a := match activePostFlushCbs s with Some a => a | None => [] end in
      if postFlushIndex s <? length a then
        let job := nth (postFlushIndex s) a 0 in
        let r := check seen job s in
        let s1 := if fst (fst r) then snd r else run_job Post job (snd r) in
        postFlushLoop f (snd (fst r)) (with_postFlushIndex (postFlushIndex s1 + 1) s1)
      else Finished seen s
  end.

Definition flushPostFlushCbs (fuel : nat) (seen : option CountMap) (s : State) : Outcome :=
  if negb (length (pendingPostFlushCbs s) =? 0) then
    let deduped := JS.set_of_array (pendingPostFlushCbs s) in
    let s1 := with_pendingPost [] s in
    match activePostFlushCbs s1 with
    | Some a => Finished seen (with_activePost (Some (a ++ deduped)) s1)
    | None =>
        let s2 := with_activePost (Some deduped) s1 in
        let seen1 := seen_or_new seen s2 in
        let s3 := with_activePost (Some (sort_by_id s2 deduped)) s2 in
        andThen (postFlushLoop fuel seen1 (with_postFlushIndex 0 s3)) (fun seen2 s4 =>
          Finished seen2 (with_postFlushIndex 0 (with_activePost None s4)))
    end
  else Finished seen s.

(** The [for] loop of [flushJobs], entered after [flushIndex = 0].  Every
    entry of the queue is a job, so [job &&] holds. *)
Fixpoint flushLoop (fuel : nat) (seen : option CountMap) (s : State) : Outcome :=
  match fuel with
  | 0 => OutOfFuel seen s
  | S f =>
      if flushIndex s <? length (queue s) then
        let job := nth (flushIndex s) (queue s) 0 in
        if active (getJob job s) then
          let r := check seen job s in
          let s1 := if fst (fst r) then snd r else run_job Main job (snd r) in
          flushLoop f (snd (fst r)) (with_flushIndex (flushIndex s1 + 1) s1)
        else flushLoop f seen (with_flushIndex (flushIndex s + 1) s)
      else Finished seen s
  end.

(** [queue.sort(...)] followed by the loop over the queue. *)
Definition flushQueue (fuel : nat) (seen : option CountMap) (s : State) : Outcome :=
  let s1 := with_queue (sort_by_id s (queue s)) s in
  flushLoop fuel seen (with_flushIndex 0 s1).

Fixpoint flushJobs (fuel : nat) (seen : option CountMap) (s : State) : Outcome :=
  match fuel with
  | 0 => OutOfFuel seen s
  | S f =>
      let s1 := with_isFlushing true (with_isFlushPending false s) in
      let seen1 := seen_or_new seen s1 in
      andThen (flushPreFlushCbs f seen1 None s1) (fun seen2 s2 =>
      andThen (flushQueue f seen2 s2) (fun seen3 s3 =>
        let s4 := with_queue [] (with_flushIndex 0 s3) in
        andThen (flushPostFlushCbs f seen3 s4) (fun seen4 s5 =>
          let s6 := with_isFlushing false s5 in
          if negb (length (queue s6) =? 0)
             || negb (length (pendingPreFlushCbs s6) =? 0)
             || negb (length (pendingPostFlushCbs s6) =? 0)
          then flushJobs f seen4 s6
          else Finished seen4 s6)))
  end.

(** ** Vocabulary of the claims *)

Definition phase_eqb (p q : Phase) : bool :=
  match p, q with
  | Pre, Pre | Main, Main | Post, Post => true
  | _, _ => false
  end.

(** How often job [j] was run in a trace. *)
Fixpoint runs (j : JobId) (t : list Event) : nat :=
  match t with
  | [] => 0
  | EvRun _ k :: r => (if Nat.eqb j k then 1 else 0) + runs j r
  | EvWarn _ :: r => runs j r
  end.

(** The jobs the loop over the main queue ran, in the order of their
    runs. *)
Fixpoint main_runs (t : list Event) : list JobId :=
  match t with
  | [] => []
  | EvRun Main k :: r => k :: main_runs r
  | _ :: r => main_runs r
  end.

(** The events a computation added to the trace of [s]. *)
Definition events (s s' : State) : list Event := skipn (length (trace s)) (trace s').

(** [getId(a) <= getId(b)]. *)
Definition id_le (s : State) (a b : JobId) : Prop := id_lt (getId b s) (getId a s) = false.

(** The fields of the jobs that no call changes are those of [s]; a
    cleared [active] flag stays cleared. *)
Definition same_static (s s' : State) : Prop :=
  forall j, id (getJob j s') = id (getJob j s) /\
            body (getJob j s') = body (getJob j s) /\
            allowRecurse (getJob j s') = allowRecurse (getJob j s) /\
            (active (getJob j s) = false -> active (getJob j s') = false).

Definition counted (m : CountMap) (j : JobId) : nat :=
  match count_of m j with Some n => n | None => 0 end.

(** The counters of [seen] agree with the runs added to the trace [t0]. *)
Definition counts_runs (t0 : list Event) (m : CountMap) (s : State) : Prop :=
  DEV s = true /\
  exists ev, trace s = t0 ++ ev /\
    forall j, runs j ev = counted m j /\ counted m j <= S RECURSION_LIMIT /\
              (In (EvWarn j) ev -> counted m j = S RECURSION_LIMIT).

(** The claim without its restriction to development builds. *)
Definition recursion_capped (fuel : nat) (s : State) : Prop :=
  forall j, runs j (events s (state_of (flushJobs fuel None s))) <= S RECURSION_LIMIT.

(** A job that queues itself again at every run, and a second job. *)
Definition self_trigger_state (dev : bool) : State :=
  queueJob 0 (queueJob 1
    (initialState dev [mkJob (Some 1%Z) true true [CQueueJob 0];
                       mkJob (Some 2%Z) true false []])).

(** The claim as it is written: the loop over the queue runs the jobs in
    the order of their ids. *)
Definition runs_ascending (fuel : nat) (s : State) : Prop :=
  StronglySorted (id_le s) (main_runs (events s (state_of (flushQueue fuel None s)))).

(** The update of a child (id 2) is queued; when it runs it queues the
    update of its parent (id 1). *)
Definition child_queues_parent : State :=
  queueJob 1 (initialState true
    [mkJob (Some 1%Z) true false []; mkJob (Some 2%Z) true false [CQueueJob 0]]).

(** A watcher (job 3) waits as pre-flush callback and queues the update of
    a parent (job 0, id 1); the updates of two children (jobs 1 and 2, ids
    2 and 3) are queued; the update of the parent unmounts the second
    child. *)
Definition parent_unmounts_child : State :=
  queuePreFlushCb 3 (queueJob 1 (queueJob 2 (initialState true
    [mkJob (Some 1%Z) true false [CQueueJob 1; CDeactivate 2; CQueuePostFlushCb 4];
     mkJob (Some 2%Z) true false [];
     mkJob (Some 3%Z) true false [];
     mkJob None true false [CQueueJob 0];
     mkJob None true false []]))).

(** ** The recursion limit *)

Lemma events_refl s : events s s = [].
Proof. unfold events. apply skipn_all. Qed.

Lemma events_ext s s' ev : trace s' = trace s ++ ev -> events s s' = ev.
Proof.
  intros H. unfold events. rewrite H, skipn_app, skipn_all, Nat.sub_diag. reflexivity.
Qed.

Lemma counted_set_eq m j n : counted (count_set m j n) j = n.
Proof.
  unfold counted. induction m as [|[k c] m IH]; simpl.
  - rewrite Nat.eqb_refl. reflexivity.
  - destruct (Nat.eqb j k) eqn:E; simpl; rewrite E; [reflexivity|exact IH].
Qed.

Lemma counted_set_ne m j k n : k <> j -> counted (count_set m j n) k = counted m k.
Proof.
  intros Hne. unfold counted. induction m as [|[x c] m IH]; simpl.
  - destruct (Nat.eqb k j) eqn:E; [apply Nat.eqb_eq in E; congruence|reflexivity].
  - destruct (Nat.eqb j x) eqn:E; simpl.
    + apply Nat.eqb_eq in E. subst x.
      destruct (Nat.eqb k j) eqn:E'; [apply Nat.eqb_eq in E'; congruence|reflexivity].
    + destruct (Nat.eqb k x); [reflexivity|exact IH].
Qed.

Lemma runs_app j t1 t2 : runs j (t1 ++ t2) = runs j t1 + runs j t2.
Proof.
  induction t1 as [|[p k|k] t1 IH]; simpl; [reflexivity| |exact IH].
  rewrite IH. lia.
Qed.

Lemma do_call_trace s c : trace (do_call s c) = trace s /\ DEV (do_call s c) = DEV s.
Proof.
  destruct c; simpl.
  - unfold queueJob, queueFlush.
    repeat match goal with |- context [if ?b then _ else _] => destruct b end;
      destruct (getId j s); simpl; try (split; reflexivity);
      repeat match goal with |- context [if ?b then _ else _] => destruct b end;
      split; reflexivity.
  - unfold queuePreFlushCb, queueCb, queueFlush.
    destruct (activePreFlushCbs s); simpl;
      repeat match goal with |- context [if ?b then _ else _] => destruct b; simpl end;
      split; reflexivity.
  - unfold queuePostFlushCb, queueCb, queueFlush.
    destruct (activePostFlushCbs s); simpl;
      repeat match goal with |- context [if ?b then _ else _] => destruct b; simpl end;
      split; reflexivity.
  - unfold queuePostFlushCbs, queueFlush.
    repeat match goal with |- context [if ?b then _ else _] => destruct b; simpl end;
      split; reflexivity.
  - unfold invalidateJob. destruct (indexOf j (queue s)); [|split; reflexivity].
    destruct (flushIndex s <? n); split; reflexivity.
  - split; reflexivity.
Qed.

Lemma calls_trace cs s :
  trace (fold_left do_call cs s) = trace s /\ DEV (fold_left do_call cs s) = DEV s.
Proof.
  revert s. induction cs as [|c cs IH]; intros s; simpl; [split; reflexivity|].
  destruct (IH (do_call s c)) as [-> ->]. apply do_call_trace.
Qed.

Lemma run_job_trace p j s :
  trace (run_job p j s) = trace s ++ [EvRun p j] /\ DEV (run_job p j s) = DEV s.
Proof.
  unfold run_job. destruct (calls_trace (body (getJob j s)) (log (EvRun p j) s)) as [-> ->].
  split; reflexivity.
Qed.

Lemma counts_runs_frame t0 m s s' :
  trace s' = trace s -> DEV s' = DEV s -> counts_runs t0 m s -> counts_runs t0 m s'.
Proof.
  intros Ht Hd (HD & ev & Hev & H). split; [congruence|].
  exists ev. split; [congruence|exact H].
Qed.

(** One turn of a flush loop: the check, then the job unless the check
    asked to skip it. *)
Lemma counts_runs_turn t0 m s p job :
  counts_runs t0 m s ->
  let r := check (Some m) job s in
  let s1 := if fst (fst r) then snd r else run_job p job (snd r) in
  exists m', snd (fst r) = Some m' /\ counts_runs t0 m' s1.
Proof.
  intros (HD & ev & Hev & H). unfold check. rewrite HD.
  unfold checkRecursiveUpdates.
  destruct (count_of m job) as [count|] eqn:Hc.
  - destruct (RECURSION_LIMIT <? count) eqn:Hlim; simpl.
    + exists m. split; [reflexivity|]. split; [exact HD|].
      exists (ev ++ [EvWarn job]). split; [simpl; rewrite Hev, app_assoc; reflexivity|].
      intros j. destruct (H j) as (Hr & Hle & Hw).
      rewrite runs_app. simpl. split; [lia|]. split; [exact Hle|].
      intros Hin. apply in_app_or in Hin. destruct Hin as [Hin|[Heq|[]]]; [auto|].
      injection Heq as <-. apply Nat.ltb_lt in Hlim.
      destruct (H job) as (_ & Hle' & _). unfold counted in *. rewrite Hc in *.
      unfold RECURSION_LIMIT in *. lia.
    + exists (count_set m job (count + 1)). split; [reflexivity|].
      destruct (run_job_trace p job s) as [Ht Hd]. split; [congruence|].
      exists (ev ++ [EvRun p job]). split; [rewrite Ht, Hev, app_assoc; reflexivity|].
      intros j. destruct (H j) as (Hr & Hle & Hw).
      rewrite runs_app. simpl. apply Nat.ltb_ge in Hlim.
      destruct (Nat.eqb j job) eqn:E.
      * apply Nat.eqb_eq in E. subst j. rewrite counted_set_eq.
        unfold counted in *. rewrite Hc in *. unfold RECURSION_LIMIT in *.
        split; [lia|]. split; [lia|].
        intros Hin. apply in_app_or in Hin. destruct Hin as [Hin|[Heq|[]]]; [|discriminate].
        apply Hw in Hin. lia.
      * apply Nat.eqb_neq in E. rewrite counted_set_ne by exact E.
        split; [lia|]. split; [exact Hle|].
        intros Hin. apply in_app_or in Hin. destruct Hin as [Hin|[Heq|[]]]; [auto|discriminate].
  - simpl. exists (count_set m job 1). split; [reflexivity|].
    destruct (run_job_trace p job s) as [Ht Hd]. split; [congruence|].
    exists (ev ++ [EvRun p job]). split; [rewrite Ht, Hev, app_assoc; reflexivity|].
    intros j. destruct (H j) as (Hr & Hle & Hw).
    rewrite runs_app. simpl.
    destruct (Nat.eqb j job) eqn:E.
    * apply Nat.eqb_eq in E. subst j. rewrite counted_set_eq.
      unfold counted in *. rewrite Hc in *. unfold RECURSION_LIMIT in *.
      split; [lia|]. split; [lia|].
      intros Hin. apply in_app_or in Hin. destruct Hin as [Hin|[Heq|[]]]; [|discriminate].
      apply Hw in Hin. lia.
    * apply Nat.eqb_neq in E. rewrite counted_set_ne by exact E.
      split; [lia|]. split; [exact Hle|].
      intros Hin. apply in_app_or in Hin. destruct Hin as [Hin|[Heq|[]]]; [auto|discriminate].
Qed.

Lemma preFlushLoop_counts fuel : forall t0 m s,
  counts_runs t0 m s ->
  exists m', seen_of (preFlushLoop fuel (Some m) s) = Some m' /\
             counts_runs t0 m' (state_of (preFlushLoop fuel (Some m) s)).
Proof.
  induction fuel as [|f IH]; intros t0 m s HI; simpl.
  - exists m. split; [reflexivity|exact HI].
  - destruct (preFlushIndex s <? _).
    + destruct (counts_runs_turn t0 m s Pre
                  (nth (preFlushIndex s) match activePreFlushCbs s with Some a => a | None => [] end 0) HI)
        as (m' & -> & HI').
      apply IH. eapply counts_runs_frame; [| |exact HI']; reflexivity.
    + exists m. split; [reflexivity|exact HI].
Qed.

Lemma postFlushLoop_counts fuel : forall t0 m s,
  counts_runs t0 m s ->
  exists m', seen_of (postFlushLoop fuel (Some m) s) = Some m' /\
             counts_runs t0 m' (state_of (postFlushLoop fuel (Some m) s)).
Proof.
  induction fuel as [|f IH]; intros t0 m s HI; simpl.
  - exists m. split; [reflexivity|exact HI].
  - destruct (postFlushIndex s <? _).
    + destruct (counts_runs_turn t0 m s Post
                  (nth (postFlushIndex s) match activePostFlushCbs s with Some a => a | None => [] end 0) HI)
        as (m' & -> & HI').
      apply IH. eapply counts_runs_frame; [| |exact HI']; reflexivity.
    + exists m. split; [reflexivity|exact HI].
Qed.

Lemma flushLoop_counts fuel : forall t0 m s,
  counts_runs t0 m s ->
  exists m', seen_of (flushLoop fuel (Some m) s) = Some m' /\
             counts_runs t0 m' (state_of (flushLoop fuel (Some m) s)).
Proof.
  induction fuel as [|f IH]; intros t0 m s HI; simpl.
  - exists m. split; [reflexivity|exact HI].
  - destruct (flushIndex s <? _).
    + destruct (active _).
      * destruct (counts_runs_turn t0 m s Main (nth (flushIndex s) (queue s) 0) HI)
          as (m' & -> & HI').
        apply IH. eapply counts_runs_frame; [| |exact HI']; reflexivity.
      * apply IH. eapply counts_runs_frame; [| |exact HI]; reflexivity.
    + exists m. split; [reflexivity|exact HI].
Qed.

Lemma seen_or_new_dev m s : DEV s = true -> seen_or_new (Some m) s = Some m.
Proof. intros H. unfold seen_or_new. rewrite H. reflexivity. Qed.

Lemma andThen_counts t0 o k :
  (exists m, seen_of o = Some m /\ counts_runs t0 m (state_of o)) ->
  (forall m s, counts_runs t0 m s ->
     exists m', seen_of (k (Some m) s) = Some m' /\ counts_runs t0 m' (state_of (k (Some m) s))) ->
  exists m', seen_of (andThen o k) = Some m' /\ counts_runs t0 m' (state_of (andThen o k)).
Proof.
  intros (m & Hs & HI) Hk. destruct o as [seen s|seen s]; simpl in *; subst seen.
  - apply Hk, HI.
  - exists m. split; [reflexivity|exact HI].
Qed.

Lemma flushPreFlushCbs_counts fuel : forall t0 m parent s,
  counts_runs t0 m s ->
  exists m', seen_of (flushPreFlushCbs fuel (Some m) parent s) = Some m' /\
             counts_runs t0 m' (state_of (flushPreFlushCbs fuel (Some m) parent s)).
Proof.
  induction fuel as [|f IH]; intros t0 m parent s HI; simpl.
  - exists m. split; [reflexivity|exact HI].
  - destruct (negb _).
    + rewrite seen_or_new_dev by apply HI.
      apply andThen_counts.
      * apply preFlushLoop_counts. eapply counts_runs_frame; [| |exact HI]; reflexivity.
      * intros m1 s1 HI1. apply IH. eapply counts_runs_frame; [| |exact HI1]; reflexivity.
    + exists m. split; [reflexivity|exact HI].
Qed.

Lemma flushPostFlushCbs_counts fuel t0 m s :
  counts_runs t0 m s ->
  exists m', seen_of (flushPostFlushCbs fuel (Some m) s) = Some m' /\
             counts_runs t0 m' (state_of (flushPostFlushCbs fuel (Some m) s)).
Proof.
  intros HI. unfold flushPostFlushCbs.
  destruct (negb _); [|exists m; split; [reflexivity|exact HI]].
  simpl. destruct (activePostFlushCbs s).
  - exists m. split; [reflexivity|]. eapply counts_runs_frame; [| |exact HI]; reflexivity.
  - rewrite seen_or_new_dev by apply HI.
    apply andThen_counts.
    + apply postFlushLoop_counts. eapply counts_runs_frame; [| |exact HI]; reflexivity.
    + intros m1 s1 HI1. exists m1. split; [reflexivity|].
      eapply counts_runs_frame; [| |exact HI1]; reflexivity.
Qed.

Lemma flushJobs_counts fuel : forall t0 m s,
  counts_runs t0 m s ->
  exists m', seen_of (flushJobs fuel (Some m) s) = Some m' /\
             counts_runs t0 m' (state_of (flushJobs fuel (Some m) s)).
Proof.
  induction fuel as [|f IH]; intros t0 m s HI.
  - exists m. split; [reflexivity|exact HI].
  - cbn [flushJobs]. rewrite seen_or_new_dev by apply HI.
    apply andThen_counts.
    { apply flushPreFlushCbs_counts. eapply counts_runs_frame; [| |exact HI]; reflexivity. }
    intros m1 s1 HI1. apply andThen_counts.
    { unfold flushQueue. apply flushLoop_counts.
      eapply counts_runs_frame; [| |exact HI1]; reflexivity. }
    intros m2 s2 HI2. apply andThen_counts.
    { apply flushPostFlushCbs_counts. eapply counts_runs_frame; [| |exact HI2]; reflexivity. }
    intros m3 s3 HI3.
    match goal with |- context [if ?b then _ else _] => destruct b end.
    + apply IH. eapply counts_runs_frame; [| |exact HI3]; reflexivity.
    + exists m3. split; [reflexivity|]. eapply counts_runs_frame; [| |exact HI3]; reflexivity.
Qed.



(** The job that queues itself at every run is run 101 times, then
    skipped with one warning; the flush goes on to the other job and
    ends. *)
Example self_trigger_development :
  exists seen s',
    flushJobs 400 None (self_trigger_state true) = Finished seen s' /\
    runs 0 (trace s') = S RECURSION_LIMIT /\
    List.filter (fun e => match e with EvWarn _ => true | _ => false end) (trace s') = [EvWarn 0] /\
    runs 1 (trace s') = 1.
Proof.
  eexists _, _. split; [vm_compute; reflexivity|].
  split; [vm_compute; reflexivity|]. split; vm_compute; reflexivity.
Qed.


(** ** The order of a flush *)

Lemma id_lt_irrefl a : id_lt a a = false.
Proof. destruct a; simpl; [apply Z.ltb_irrefl|reflexivity]. Qed.

Lemma id_lt_asym a b : id_lt a b = true -> id_lt b a = false.
Proof.
  destruct a, b; simpl; try reflexivity; try discriminate.
  intros H. apply Z.ltb_lt in H. apply Z.ltb_ge. lia.
Qed.

(** [a <= b] and [b <= c] give [a <= c]. *)
Lemma id_lt_false_trans a b c :
  id_lt b a = false -> id_lt c b = false -> id_lt c a = false.
Proof.
  destruct a, b, c; simpl; try reflexivity; try discriminate.
  intros H1 H2. apply Z.ltb_ge in H1, H2. apply Z.ltb_ge. lia.
Qed.

(** [a < b] and [b <= c] give [a <= c]. *)
Lemma id_lt_le_trans a b c :
  id_lt a b = true -> id_lt c b = false -> id_lt c a = false.
Proof.
  intros H1 H2. apply (id_lt_false_trans a b c); [apply id_lt_asym, H1|exact H2].
Qed.

Lemma same_static_refl s : same_static s s.
Proof. intros j. auto. Qed.

Lemma same_static_trans s1 s2 s3 :
  same_static s1 s2 -> same_static s2 s3 -> same_static s1 s3.
Proof.
  intros H1 H2 j. destruct (H1 j) as (a & b & c & d), (H2 j) as (a' & b' & c' & d').
  repeat split; try congruence. auto.
Qed.

Lemma same_static_frame s s' : jobs s' = jobs s -> same_static s s'.
Proof. intros H j. unfold getJob. rewrite H. auto. Qed.

Lemma same_static_getId s s' j : same_static s s' -> getId j s' = getId j s.
Proof. intros H. apply H. Qed.

Lemma deactivate_static j s : same_static s (deactivate j s).
Proof.
  intros k. unfold getJob, deactivate, setJob. simpl.
  destruct (Nat.eq_dec j k) as [->|Hne].
  - destruct (Nat.lt_ge_cases k (length (jobs s))) as [Hlt|Hge].
    + rewrite Reactivity.nth_alter_eq by exact Hlt. simpl. auto.
    + rewrite Reactivity.nth_alter_ge by exact Hge. auto.
  - rewrite Reactivity.nth_alter_ne by exact Hne. auto.
Qed.

Lemma queueFlush_fields s :
  jobs (queueFlush s) = jobs s /\ queue (queueFlush s) = queue s /\
  flushIndex (queueFlush s) = flushIndex s /\
  pendingPreFlushCbs (queueFlush s) = pendingPreFlushCbs s.
Proof. unfold queueFlush. destruct (_ && _); simpl; auto. Qed.

Lemma do_call_static s c : same_static s (do_call s c) /\ flushIndex (do_call s c) = flushIndex s.
Proof.
  destruct c; simpl.
  - unfold queueJob. destruct (_ && _); [|split; [apply same_static_refl|reflexivity]].
    destruct (queueFlush_fields
      match getId j s with
      | Some i => with_queue (splice_in (findInsertionIndex i s) j (queue s)) s
      | None => with_queue (queue s ++ [j]) s
      end) as (Hj & _ & Hf & _).
    split; [apply same_static_frame; rewrite Hj|rewrite Hf]; destruct (getId j s); reflexivity.
  - unfold queuePreFlushCb, queueCb.
    match goal with |- context [queueFlush ?x] =>
      destruct (queueFlush_fields x) as (Hj & _ & Hf & _) end.
    split; [apply same_static_frame; rewrite Hj|rewrite Hf];
      destruct (activePreFlushCbs s); try destruct (negb _); reflexivity.
  - unfold queuePostFlushCb, queueCb.
    match goal with |- context [queueFlush ?x] =>
      destruct (queueFlush_fields x) as (Hj & _ & Hf & _) end.
    split; [apply same_static_frame; rewrite Hj|rewrite Hf];
      destruct (activePostFlushCbs s); try destruct (negb _); reflexivity.
  - unfold queuePostFlushCbs.
    match goal with |- context [queueFlush ?x] =>
      destruct (queueFlush_fields x) as (Hj & _ & Hf & _) end.
    split; [apply same_static_frame; rewrite Hj|rewrite Hf]; reflexivity.
  - unfold invalidateJob. destruct (indexOf j (queue s)); [destruct (_ <? _)|];
      (split; [apply same_static_frame|]; reflexivity).
  - split; [apply deactivate_static|reflexivity].
Qed.

Lemma calls_static cs : forall s,
  same_static s (fold_left do_call cs s) /\
  flushIndex (fold_left do_call cs s) = flushIndex s.
Proof.
  induction cs as [|c cs IH]; intros s; simpl; [split; [apply same_static_refl|reflexivity]|].
  destruct (IH (do_call s c)) as [H1 H2], (do_call_static s c) as [H3 H4].
  split; [eapply same_static_trans; eassumption|congruence].
Qed.

Lemma run_job_static p j s :
  same_static s (run_job p j s) /\ flushIndex (run_job p j s) = flushIndex s.
Proof.
  unfold run_job. destruct (calls_static (body (getJob j s)) (log (EvRun p j) s)) as [H1 H2].
  split; [|exact H2]. eapply same_static_trans; [|exact H1]. apply same_static_frame. reflexivity.
Qed.

(** *** The search of [findInsertionIndex] *)

Lemma div2_between a b : a < b -> a <= Nat.div2 (a + b) < b.
Proof.
  intros H. rewrite Nat.div2_div.
  split.
  - apply Nat.div_le_lower_bound; lia.
  - apply Nat.Div0.div_lt_upper_bound; lia.
Qed.

Lemma findInsertionIndex_loop_ge turns s i : forall start end_,
  start <= end_ ->
  start <= findInsertionIndex_loop turns s i start end_ <= end_.
Proof.
  induction turns as [|t IH]; intros start end_ Hse; simpl; [lia|].
  destruct (start <? end_) eqn:E; [|lia].
  apply Nat.ltb_lt in E. pose proof (div2_between start end_ E) as Hm.
  destruct (id_lt _ _).
  - specialize (IH (Nat.div2 (start + end_) + 1) end_). lia.
  - specialize (IH start (Nat.div2 (start + end_))). lia.
Qed.

Lemma StronglySorted_nth {A} (R : A -> A -> Prop) (l : list A) (d : A) :
  StronglySorted R l ->
  forall a b, a < b -> b < length l -> R (nth a l d) (nth b l d).
Proof.
  induction 1 as [|x l Hs IH Hall]; intros a b Hab Hb; simpl in Hb; [lia|].
  destruct a, b; try lia; simpl.
  - rewrite List.Forall_forall in Hall. apply Hall, nth_In. lia.
  - apply IH; lia.
Qed.

Section Search.
Variable s : State.
Variable x : Z.
Variables pre tail : list JobId.
Hypothesis Hq : queue s = pre ++ tail.
Hypothesis Hsorted : StronglySorted (id_le s) tail.

Lemma sorted_queue_nth a b :
  length pre <= a -> a <= b -> b < length (queue s) ->
  id_lt (getId (nth b (queue s) 0) s) (getId (nth a (queue s) 0) s) = false.
Proof using Hq Hsorted.
  intros Ha Hab Hb. destruct (Nat.eq_dec a b) as [->|Hne]; [apply id_lt_irrefl|].
  rewrite Hq in *. rewrite length_app in Hb.
  rewrite !app_nth2 by lia.
  apply (StronglySorted_nth (id_le s) tail 0 Hsorted); lia.
Qed.

Lemma findInsertionIndex_loop_spec turns : forall start end_,
  length pre <= start -> start <= end_ -> end_ <= length (queue s) ->
  end_ - start <= turns ->
  (forall p, length pre <= p -> p < start ->
     id_lt (getId (nth p (queue s) 0) s) (Some x) = true) ->
  (forall p, end_ <= p -> p < length (queue s) ->
     id_lt (getId (nth p (queue s) 0) s) (Some x) = false) ->
  let k := findInsertionIndex_loop turns s x start end_ in
  start <= k <= end_ /\
  (forall p, length pre <= p -> p < k ->
     id_lt (getId (nth p (queue s) 0) s) (Some x) = true) /\
  (forall p, k <= p -> p < length (queue s) ->
     id_lt (getId (nth p (queue s) 0) s) (Some x) = false).
Proof using Hq Hsorted.
  induction turns as [|t IH]; intros start end_ Hps Hse Hel Ht Hlow Hhigh; simpl.
  - assert (start = end_) by lia. subst. split; [lia|]. split; assumption.
  - destruct (start <? end_) eqn:E.
    + apply Nat.ltb_lt in E. pose proof (div2_between start end_ E) as Hm.
      destruct (id_lt (getId (nth (Nat.div2 (start + end_)) (queue s) 0) s) (Some x)) eqn:Hmid.
      * destruct (IH (Nat.div2 (start + end_) + 1) end_) as (H1 & H2 & H3);
          try lia; try assumption.
        { intros p Hp1 Hp2.
          destruct (id_lt (getId (nth p (queue s) 0) s) (Some x)) eqn:Hp; [reflexivity|].
          exfalso.
          pose proof (sorted_queue_nth p (Nat.div2 (start + end_)) Hp1 ltac:(lia) ltac:(lia)) as Hs.
          pose proof (id_lt_false_trans _ _ _ Hp Hs) as Hc. congruence. }
        split; [lia|]. split; assumption.
      * destruct (IH start (Nat.div2 (start + end_))) as (H1 & H2 & H3);
          try lia; try assumption.
        { intros p Hp1 Hp2.
          pose proof (sorted_queue_nth (Nat.div2 (start + end_)) p ltac:(lia) Hp1 Hp2) as Hs.
          apply (id_lt_false_trans _ _ _ Hmid Hs). }
        split; [lia|]. split; assumption.
    + apply Nat.ltb_ge in E. assert (start = end_) by lia. subst.
      split; [lia|]. split; assumption.
Qed.
End Search.

(** *** What a call does to the part of the queue that waits *)

Lemma splice_in_app (pre tail : list JobId) k c :
  length pre <= k -> splice_in k c (pre ++ tail) = pre ++ splice_in (k - length pre) c tail.
Proof.
  intros H. unfold splice_in.
  rewrite firstn_app, skipn_app, firstn_all2, skipn_all2 by lia.
  rewrite <- app_assoc. reflexivity.
Qed.

Lemma splice_out_app (pre tail : list JobId) k :
  length pre <= k -> splice_out k (pre ++ tail) = pre ++ splice_out (k - length pre) tail.
Proof.
  intros H. unfold splice_out.
  rewrite firstn_app, skipn_app, firstn_all2, skipn_all2 by lia.
  rewrite <- app_assoc. simpl. replace (S k - length pre) with (S (k - length pre)) by lia.
  reflexivity.
Qed.

Lemma In_firstn_inv {A} (y : A) n l : In y (firstn n l) -> In y l.
Proof. intros H. rewrite <- (firstn_skipn n l). apply in_or_app. left. exact H. Qed.

Lemma In_skipn_inv {A} (y : A) n l : In y (skipn n l) -> In y l.
Proof. intros H. rewrite <- (firstn_skipn n l). apply in_or_app. right. exact H. Qed.

Lemma Forall_splice_in (P : JobId -> Prop) k c l :
  List.Forall P l -> P c -> List.Forall P (splice_in k c l).
Proof.
  intros Hl Hc. unfold splice_in. apply List.Forall_app. split.
  - apply List.Forall_forall. intros y Hy. apply In_firstn_inv in Hy.
    rewrite List.Forall_forall in Hl. auto.
  - constructor; [exact Hc|]. apply List.Forall_forall. intros y Hy. apply In_skipn_inv in Hy.
    rewrite List.Forall_forall in Hl. auto.
Qed.

Lemma Forall_splice_out (P : JobId -> Prop) k l :
  List.Forall P l -> List.Forall P (splice_out k l).
Proof.
  intros Hl. unfold splice_out. rewrite List.Forall_forall in Hl.
  apply List.Forall_app. split; apply List.Forall_forall; intros y Hy.
  - apply In_firstn_inv in Hy. auto.
  - apply In_skipn_inv in Hy. auto.
Qed.

Lemma sorted_splice_out (R : JobId -> JobId -> Prop) l : forall k,
  StronglySorted R l -> StronglySorted R (splice_out k l).
Proof.
  induction l as [|y l IH]; intros k Hs.
  - destruct k; exact Hs.
  - inversion Hs as [|? ? Hs' Hall]; subst. destruct k.
    + exact Hs'.
    + change (splice_out (S k) (y :: l)) with (y :: splice_out k l).
      constructor; [apply IH, Hs'|]. apply Forall_splice_out, Hall.
Qed.

Lemma sorted_splice_in (R : JobId -> JobId -> Prop) c l : forall k,
  StronglySorted R l ->
  (forall p, p < k -> p < length l -> R (nth p l 0) c) ->
  (forall p, k <= p -> p < length l -> R c (nth p l 0)) ->
  StronglySorted R (splice_in k c l).
Proof.
  induction l as [|y l IH]; intros k Hs Hlow Hhigh.
  - destruct k; repeat constructor.
  - inversion Hs as [|? ? Hs' Hall]; subst. destruct k.
    + change (splice_in 0 c (y :: l)) with (c :: y :: l).
      constructor; [exact Hs|]. apply List.Forall_forall. intros z Hz.
      apply (In_nth _ _ 0) in Hz. destruct Hz as (p & Hp & <-). apply Hhigh; [lia|exact Hp].
    + change (splice_in (S k) c (y :: l)) with (y :: splice_in k c l).
      constructor.
      * apply IH; [exact Hs'| |].
        -- intros p Hp1 Hp2. apply (Hlow (S p)); simpl; lia.
        -- intros p Hp1 Hp2. apply (Hhigh (S p)); simpl; lia.
      * apply Forall_splice_in; [exact Hall|]. apply (Hlow 0); simpl; lia.
Qed.

Lemma sorted_snoc (R : JobId -> JobId -> Prop) c l :
  StronglySorted R l -> List.Forall (fun y => R y c) l -> StronglySorted R (l ++ [c]).
Proof.
  induction 1 as [|y l Hs IH Hall]; intros Hc; simpl.
  - repeat constructor.
  - inversion Hc; subst. constructor; [apply IH; assumption|].
    apply List.Forall_app. split; [exact Hall|]. repeat constructor. assumption.
Qed.

Lemma id_le_static s0 s a b : same_static s0 s -> id_le s a b <-> id_le s0 a b.
Proof.
  intros H. unfold id_le. rewrite !(same_static_getId s0 s) by exact H. reflexivity.
Qed.

Lemma sorted_static s0 s l :
  same_static s0 s -> StronglySorted (id_le s0) l -> StronglySorted (id_le s) l.
Proof.
  intros H. induction 1 as [|y l Hs IH Hall]; constructor; [exact IH|].
  eapply List.Forall_impl; [|exact Hall]. intros z. apply (id_le_static s0 s), H.
Qed.

(** A call made by the job at [flushIndex] leaves the entries up to
    [flushIndex] alone; what waits behind stays sorted, and gains at most
    the job queued by the call. *)
Lemma do_call_tail (P : JobId -> Prop) s0 s c pre tail :
  same_static s0 s ->
  queue s = pre ++ tail ->
  length pre = S (flushIndex s) ->
  exists tail',
    queue (do_call s c) = pre ++ tail' /\
    (StronglySorted (id_le s0) tail -> StronglySorted (id_le s0) tail') /\
    (List.Forall P tail -> (forall c', c = CQueueJob c' -> P c') -> List.Forall P tail').
Proof.
  intros Hst Hq Hlen.
  assert (Hsame : exists tail', queue s = pre ++ tail' /\
    (StronglySorted (id_le s0) tail -> StronglySorted (id_le s0) tail') /\
    (List.Forall P tail -> (forall c', c = CQueueJob c' -> P c') -> List.Forall P tail')).
  { exists tail. auto. }
  destruct c; simpl.
  - unfold queueJob. destruct (_ && _); [|exact Hsame].
    match goal with |- context [queueFlush ?x] =>
      destruct (queueFlush_fields x) as (_ & -> & _ & _) end.
    destruct (getId j s) as [i|] eqn:Hid; cbn [queue with_queue].
    + pose proof (findInsertionIndex_loop_ge (length (queue s)) s i (flushIndex s + 1)
                    (length (queue s))) as Hge.
      assert (Hle : flushIndex s + 1 <= length (queue s)).
      { rewrite Hq, length_app. lia. }
      specialize (Hge Hle). fold (findInsertionIndex i s) in Hge.
      exists (splice_in (findInsertionIndex i s - length pre) j tail).
      split; [rewrite <- splice_in_app by lia; rewrite Hq; reflexivity|]. split.
      * intros Hs.
        pose proof (sorted_static s0 s tail Hst Hs) as Hs'.
        destruct (findInsertionIndex_loop_spec s i pre tail Hq Hs' (length (queue s))
                    (flushIndex s + 1) (length (queue s))) as (_ & Hlow & Hhigh);
          try (intros; lia).
        fold (findInsertionIndex i s) in Hlow, Hhigh.
        assert (Hlq : length (queue s) = length pre + length tail)
          by (rewrite Hq, length_app; reflexivity).
        apply sorted_splice_in; [exact Hs| |].
        -- intros p Hp1 Hp2. apply (id_le_static s0 s _ _ Hst). unfold id_le. rewrite Hid.
           specialize (Hlow (length pre + p) ltac:(lia) ltac:(lia)).
           rewrite Hq, app_nth2 in Hlow by lia.
           replace (length pre + p - length pre) with p in Hlow by lia.
           apply id_lt_asym, Hlow.
        -- intros p Hp1 Hp2. apply (id_le_static s0 s _ _ Hst). unfold id_le. rewrite Hid.
           specialize (Hhigh (length pre + p) ltac:(lia) ltac:(lia)).
           rewrite Hq, app_nth2 in Hhigh by lia.
           replace (length pre + p - length pre) with p in Hhigh by lia.
           exact Hhigh.
      * intros HP Hc. apply Forall_splice_in; [exact HP|]. apply Hc. reflexivity.
    + rewrite Hq, <- app_assoc. eexists. split; [reflexivity|]. split.
      * intros Hs. apply sorted_snoc; [exact Hs|].
        apply List.Forall_forall. intros y _. apply (id_le_static s0 s _ _ Hst).
        unfold id_le. rewrite Hid. reflexivity.
      * intros HP Hc. apply List.Forall_app. split; [exact HP|].
        repeat constructor. apply Hc. reflexivity.
  - unfold queuePreFlushCb, queueCb.
    match goal with |- context [queueFlush ?x] =>
      destruct (queueFlush_fields x) as (_ & -> & _ & _) end.
    destruct (activePreFlushCbs s); try destruct (negb _); exact Hsame.
  - unfold queuePostFlushCb, queueCb.
    match goal with |- context [queueFlush ?x] =>
      destruct (queueFlush_fields x) as (_ & -> & _ & _) end.
    destruct (activePostFlushCbs s); try destruct (negb _); exact Hsame.
  - unfold queuePostFlushCbs.
    match goal with |- context [queueFlush ?x] =>
      destruct (queueFlush_fields x) as (_ & -> & _ & _) end.
    exact Hsame.
  - unfold invalidateJob. destruct (indexOf j (queue s)) as [i|]; [|exact Hsame].
    destruct (flushIndex s <? i) eqn:E; [|exact Hsame].
    apply Nat.ltb_lt in E. simpl. rewrite Hq, splice_out_app by lia.
    eexists. split; [reflexivity|]. split.
    + apply sorted_splice_out.
    + intros HP _. apply Forall_splice_out, HP.
  - exact Hsame.
Qed.

Lemma calls_tail (P : JobId -> Prop) s0 cs : forall s pre tail,
  same_static s0 s ->
  queue s = pre ++ tail ->
  length pre = S (flushIndex s) ->
  exists tail',
    queue (fold_left do_call cs s) = pre ++ tail' /\
    (StronglySorted (id_le s0) tail -> StronglySorted (id_le s0) tail') /\
    (List.Forall P tail -> (forall c', In (CQueueJob c') cs -> P c') -> List.Forall P tail').
Proof.
  induction cs as [|c cs IH]; intros s pre tail Hst Hq Hlen; simpl.
  - exists tail. auto.
  - destruct (do_call_tail P s0 s c pre tail Hst Hq Hlen) as (t1 & Hq1 & Hs1 & HP1).
    destruct (do_call_static s c) as [Hst1 Hf1].
    destruct (IH (do_call s c) pre t1) as (t2 & Hq2 & Hs2 & HP2);
      [eapply same_static_trans; eassumption|exact Hq1|congruence|].
    exists t2. split; [exact Hq2|]. split; [auto|].
    intros HP Hc. apply HP2; [apply HP1; [exact HP|]|].
    + intros c' ->. apply Hc. left. reflexivity.
    + intros c' Hin. apply Hc. right. exact Hin.
Qed.

(** *** The trace of the loops *)

Lemma main_runs_app t1 t2 : main_runs (t1 ++ t2) = main_runs t1 ++ main_runs t2.
Proof.
  induction t1 as [|e t1 IH]; simpl; [reflexivity|].
  destruct e as [[] k|k]; simpl; rewrite IH; reflexivity.
Qed.

Lemma check_cases seen job s :
  let r := check seen job s in
  (fst (fst r) = false /\ snd r = s) \/ (fst (fst r) = true /\ snd r = log (EvWarn job) s).
Proof.
  unfold check, checkRecursiveUpdates. destruct (DEV s); [|left; split; reflexivity].
  destruct seen as [m|]; [|left; split; reflexivity].
  destruct (count_of m job) as [n|]; [|left; split; reflexivity].
  destruct (RECURSION_LIMIT <? n); [right|left]; split; reflexivity.
Qed.

Lemma run_job_events p j s : trace (run_job p j s) = trace s ++ [EvRun p j].
Proof. apply run_job_trace. Qed.

Lemma flushLoop_ext fuel : forall seen s,
  exists ev, trace (state_of (flushLoop fuel seen s)) = trace s ++ ev.
Proof.
  induction fuel as [|f IH]; intros seen s; simpl.
  - exists []. rewrite app_nil_r. reflexivity.
  - destruct (flushIndex s <? _); [|exists []; rewrite app_nil_r; reflexivity].
    destruct (active _).
    + destruct (check_cases seen (nth (flushIndex s) (queue s) 0) s) as [[-> ->]|[-> ->]].
      * match goal with |- context [flushLoop f ?a ?b] => destruct (IH a b) as (ev & ->) end.
        simpl. rewrite run_job_events, <- app_assoc. eexists. reflexivity.
      * match goal with |- context [flushLoop f ?a ?b] => destruct (IH a b) as (ev & ->) end.
        simpl. rewrite <- app_assoc. eexists. reflexivity.
    + match goal with |- context [flushLoop f ?a ?b] => destruct (IH a b) as (ev & ->) end.
      simpl. eexists. reflexivity.
Qed.

Lemma events_step s s1 s2 e1 :
  trace s1 = trace s ++ e1 ->
  (exists e2, trace s2 = trace s1 ++ e2) ->
  events s s2 = e1 ++ events s1 s2.
Proof.
  intros H1 (e2 & H2). rewrite (events_ext s1 s2 e2 H2).
  apply events_ext. rewrite H2, H1, app_assoc. reflexivity.
Qed.

(** One turn of the loop over the queue, as the events it adds. *)
Lemma flushLoop_turn f seen s :
  flushIndex s < length (queue s) ->
  let job := nth (flushIndex s) (queue s) 0 in
  exists seen' s1 e1,
    flushLoop (S f) seen s = flushLoop f seen' (with_flushIndex (flushIndex s + 1) s1) /\
    trace s1 = trace s ++ e1 /\
    events s (state_of (flushLoop (S f) seen s)) =
      e1 ++ events (with_flushIndex (flushIndex s + 1) s1)
              (state_of (flushLoop f seen' (with_flushIndex (flushIndex s + 1) s1))) /\
    ((e1 = [EvRun Main job] /\ active (getJob job s) = true /\ s1 = run_job Main job s) \/
     (main_runs e1 = [] /\ jobs s1 = jobs s /\ queue s1 = queue s /\
      flushIndex s1 = flushIndex s)).
Proof.
  intros Hlt job.
  assert (Hgen : forall seen' s1 e1,
    flushLoop (S f) seen s = flushLoop f seen' (with_flushIndex (flushIndex s + 1) s1) ->
    trace s1 = trace s ++ e1 ->
    events s (state_of (flushLoop (S f) seen s)) =
      e1 ++ events (with_flushIndex (flushIndex s + 1) s1)
              (state_of (flushLoop f seen' (with_flushIndex (flushIndex s + 1) s1)))).
  { intros seen' s1 e1 -> Ht. apply events_step; [exact Ht|].
    destruct (flushLoop_ext f seen' (with_flushIndex (flushIndex s + 1) s1)) as (e2 & ->).
    exists e2. reflexivity. }
  assert (Hunf : flushLoop (S f) seen s =
    if active (getJob job s) then
      let r := check seen job s in
      let s1 := if fst (fst r) then snd r else run_job Main job (snd r) in
      flushLoop f (snd (fst r)) (with_flushIndex (flushIndex s1 + 1) s1)
    else flushLoop f seen (with_flushIndex (flushIndex s + 1) s)).
  { simpl. apply Nat.ltb_lt in Hlt. rewrite Hlt. reflexivity. }
  destruct (active (getJob job s)) eqn:Hact.
  - destruct (check_cases seen job s) as [[Hb Hs]|[Hb Hs]]; cbv zeta in Hunf;
      rewrite Hb, Hs in Hunf.
    + destruct (run_job_static Main job s) as [_ Hfi]. rewrite Hfi in Hunf.
      exists (snd (fst (check seen job s))), (run_job Main job s), [EvRun Main job].
      split; [exact Hunf|]. split; [apply run_job_events|].
      split; [apply Hgen; [exact Hunf|apply run_job_events]|].
      left. auto.
    + exists (snd (fst (check seen job s))), (log (EvWarn job) s), [EvWarn job].
      split; [exact Hunf|]. split; [reflexivity|].
      split; [apply Hgen; [exact Hunf|reflexivity]|].
      right. auto.
  - exists seen, s, []. split; [exact Hunf|]. split; [rewrite app_nil_r; reflexivity|].
    split; [apply Hgen; [exact Hunf|rewrite app_nil_r; reflexivity]|].
    right. auto.
Qed.

Lemma flushLoop_done fuel seen s :
  length (queue s) <= flushIndex s ->
  events s (state_of (flushLoop fuel seen s)) = [].
Proof.
  intros H. destruct fuel; simpl; [apply events_refl|].
  apply Nat.ltb_ge in H. rewrite H. apply events_refl.
Qed.

Lemma waiting_head (done waiting : list JobId) q i :
  q = done ++ waiting -> length done = i -> i < length q ->
  exists tail, waiting = nth i q 0 :: tail /\ q = (done ++ [nth i q 0]) ++ tail.
Proof.
  intros -> <- Hlt. rewrite length_app in Hlt.
  destruct waiting as [|cur tail]; [simpl in Hlt; lia|].
  rewrite app_nth2, Nat.sub_diag by lia. simpl.
  exists tail. split; [reflexivity|]. rewrite <- app_assoc. reflexivity.
Qed.

(** The loop runs the jobs in the order of their ids, as long as no job
    it runs queues a job of a smaller id than its own. *)
Lemma flushLoop_ascending s0 fuel : forall seen s done waiting (L : JobId -> Prop),
  same_static s0 s ->
  queue s = done ++ waiting ->
  length done = flushIndex s ->
  StronglySorted (id_le s0) waiting ->
  List.Forall L waiting ->
  (forall x y, L x -> id_le s0 x y -> L y) ->
  (forall j c, In j (main_runs (events s (state_of (flushLoop fuel seen s)))) ->
               In (CQueueJob c) (body (getJob j s0)) -> id_le s0 j c) ->
  StronglySorted (id_le s0) (main_runs (events s (state_of (flushLoop fuel seen s)))) /\
  List.Forall L (main_runs (events s (state_of (flushLoop fuel seen s)))).
Proof.
  induction fuel as [|f IH]; intros seen s done waiting L Hst Hq Hlen Hsorted HL Hup Hdown.
  - simpl. rewrite events_refl. split; constructor.
  - destruct (Nat.lt_ge_cases (flushIndex s) (length (queue s))) as [Hlt|Hge].
    2:{ rewrite flushLoop_done by exact Hge. split; constructor. }
    destruct (flushLoop_turn f seen s Hlt) as (seen' & s1 & e1 & Hunf & Ht & Hev & Hcase).
    destruct (waiting_head done waiting (queue s) (flushIndex s) Hq Hlen Hlt)
      as (tail & Hw & Hq').
    set (cur := nth (flushIndex s) (queue s) 0) in *.
    rewrite Hw in Hsorted, HL.
    inversion Hsorted as [|? ? Hsorted' Hall]; subst.
    inversion HL as [|? ? HLcur HLtail]; subst.
    rewrite Hev in Hdown |- *. rewrite main_runs_app in Hdown |- *.
    destruct Hcase as [(-> & Hact & ->)|(Hnil & Hj & Hqs & Hfi)].
    + (* the job is run *)
      simpl in Hdown |- *.
      destruct (run_job_static Main cur s) as [Hst1 Hfi1].
      assert (Hbody : body (getJob cur (log (EvRun Main cur) s)) = body (getJob cur s0)).
      { change (getJob cur (log (EvRun Main cur) s)) with (getJob cur s). apply Hst. }
      destruct (calls_tail (fun x => id_le s0 cur x) s0 (body (getJob cur s))
                  (log (EvRun Main cur) s) (done ++ [cur]) tail)
        as (tail' & Hq1 & Hs1 & HP1).
      { exact Hst. }
      { exact Hq'. }
      { rewrite length_app. simpl. lia. }
      destruct (IH seen' (with_flushIndex (flushIndex s + 1) (run_job Main cur s))
                  (done ++ [cur]) tail' (fun x => id_le s0 cur x)) as [IH1 IH2].
      { eapply same_static_trans; [exact Hst|]. exact Hst1. }
      { exact Hq1. }
      { rewrite length_app. simpl. lia. }
      { apply Hs1, Hsorted'. }
      { apply HP1; [exact Hall|]. intros c' Hc'. apply (Hdown cur c'); [left; reflexivity|].
        destruct (Hst cur) as (_ & <- & _). exact Hc'. }
      { intros x y Hx Hy. unfold id_le in *. eapply id_lt_false_trans; eassumption. }
      { intros j c Hj. apply Hdown. right. exact Hj. }
      split.
      * constructor; assumption.
      * constructor; [exact HLcur|].
        eapply List.Forall_impl; [|exact IH2]. intros y Hy. apply (Hup cur); assumption.
    + (* the job is skipped *)
      rewrite Hnil in Hdown |- *. simpl in Hdown |- *.
      apply (IH seen' (with_flushIndex (flushIndex s + 1) s1) (done ++ [cur]) tail L).
      * eapply same_static_trans; [exact Hst|]. apply same_static_frame. exact Hj.
      * simpl. rewrite Hqs. exact Hq'.
      * rewrite length_app. simpl. lia.
      * exact Hsorted'.
      * exact HLtail.
      * exact Hup.
      * exact Hdown.
Qed.

(** *** The sort *)

Lemma sort_insert_Forall (P : JobId -> Prop) s x l :
  P x -> List.Forall P l -> List.Forall P (sort_insert s x l).
Proof.
  intros Hx. induction 1 as [|y l Hy Hl IH]; simpl.
  - repeat constructor. exact Hx.
  - destruct (id_lt _ _); repeat constructor; assumption.
Qed.

Lemma sort_insert_sorted s x l :
  StronglySorted (id_le s) l -> StronglySorted (id_le s) (sort_insert s x l).
Proof.
  induction 1 as [|y l Hs IH Hall]; simpl.
  - repeat constructor.
  - destruct (id_lt (getId y s) (getId x s)) eqn:E.
    + constructor; [exact IH|]. apply sort_insert_Forall; [|exact Hall].
      unfold id_le. apply id_lt_asym, E.
    + constructor; [constructor; assumption|].
      constructor; [exact E|].
      eapply List.Forall_impl; [|exact Hall]. intros z Hz. unfold id_le in *.
      eapply id_lt_false_trans; eassumption.
Qed.

Lemma sort_by_id_sorted s l : StronglySorted (id_le s) (sort_by_id s l).
Proof.
  induction l as [|x l IH]; simpl; [constructor|]. apply sort_insert_sorted, IH.
Qed.

(** *** Jobs that are not run *)

Lemma flushLoop_inactive j fuel : forall seen s,
  active (getJob j s) = false ->
  ~ In j (main_runs (events s (state_of (flushLoop fuel seen s)))).
Proof.
  induction fuel as [|f IH]; intros seen s Hoff.
  - simpl. rewrite events_refl. intros [].
  - destruct (Nat.lt_ge_cases (flushIndex s) (length (queue s))) as [Hlt|Hge].
    2:{ rewrite flushLoop_done by exact Hge. intros []. }
    destruct (flushLoop_turn f seen s Hlt) as (seen' & s1 & e1 & Hunf & Ht & Hev & Hcase).
    rewrite Hev, main_runs_app. intros Hin. apply in_app_or in Hin.
    destruct Hcase as [(-> & Hact & ->)|(Hnil & Hj & Hqs & Hfi)].
    + destruct Hin as [[Heq|[]]|Hin].
      * rewrite Heq in Hact. congruence.
      * revert Hin. apply IH.
        destruct (run_job_static Main (nth (flushIndex s) (queue s) 0) s) as [Hst _].
        apply (Hst j), Hoff.
    + rewrite Hnil in Hin. destruct Hin as [[]|Hin]. revert Hin. apply IH.
      change (getJob j (with_flushIndex (flushIndex s + 1) s1)) with (getJob j s1).
      unfold getJob. rewrite Hj. exact Hoff.
Qed.

Lemma flushLoop_absent s0 j fuel : forall seen s done waiting,
  same_static s0 s ->
  queue s = done ++ waiting ->
  length done = flushIndex s ->
  ~ In j waiting ->
  (forall k, ~ In (CQueueJob j) (body (getJob k s0))) ->
  ~ In j (main_runs (events s (state_of (flushLoop fuel seen s)))).
Proof.
  induction fuel as [|f IH]; intros seen s done waiting Hst Hq Hlen Hout Hnever.
  - simpl. rewrite events_refl. intros [].
  - destruct (Nat.lt_ge_cases (flushIndex s) (length (queue s))) as [Hlt|Hge].
    2:{ rewrite flushLoop_done by exact Hge. intros []. }
    destruct (flushLoop_turn f seen s Hlt) as (seen' & s1 & e1 & Hunf & Ht & Hev & Hcase).
    destruct (waiting_head done waiting (queue s) (flushIndex s) Hq Hlen Hlt)
      as (tail & Hw & Hq').
    set (cur := nth (flushIndex s) (queue s) 0) in *.
    rewrite Hw in Hout.
    rewrite Hev, main_runs_app. intros Hin. apply in_app_or in Hin.
    destruct Hcase as [(-> & Hact & ->)|(Hnil & Hj & Hqs & Hfi)].
    + destruct Hin as [[Heq|[]]|Hin]; [apply Hout; left; exact Heq|].
      destruct (run_job_static Main cur s) as [Hst1 Hfi1].
      destruct (calls_tail (fun x => x <> j) s0 (body (getJob cur s))
                  (log (EvRun Main cur) s) (done ++ [cur]) tail)
        as (tail' & Hq1 & _ & HP1).
      { exact Hst. }
      { exact Hq'. }
      { rewrite length_app. simpl. lia. }
      revert Hin.
      apply (IH seen' _ (done ++ [cur]) tail').
      * eapply same_static_trans; [exact Hst|]. exact Hst1.
      * exact Hq1.
      * rewrite length_app. simpl. lia.
      * intros Hin. assert (HF : List.Forall (fun x => x <> j) tail').
        { apply HP1.
          - apply List.Forall_forall. intros x Hx ->. apply Hout. right. exact Hx.
          - intros c' Hc' ->. apply (Hnever cur).
            destruct (Hst cur) as (_ & <- & _). exact Hc'. }
        rewrite List.Forall_forall in HF. apply (HF j Hin). reflexivity.
      * exact Hnever.
    + rewrite Hnil in Hin. destruct Hin as [[]|Hin]. revert Hin.
      apply (IH seen' _ (done ++ [cur]) tail).
      * eapply same_static_trans; [exact Hst|]. apply same_static_frame. exact Hj.
      * simpl. rewrite Hqs. exact Hq'.
      * rewrite length_app. simpl. lia.
      * intros Hin. apply Hout. right. exact Hin.
      * exact Hnever.
Qed.

Lemma indexOf_Some x l : forall i,
  indexOf x l = Some i -> i < length l /\ nth i l 0 = x /\ ~ In x (firstn i l).
Proof.
  induction l as [|y l IH]; intros i H; simpl in H; [discriminate|].
  destruct (Nat.eqb x y) eqn:E.
  - injection H as <-. apply Nat.eqb_eq in E. simpl. repeat split; [lia|auto|tauto].
  - destruct (indexOf x l) as [k|]; [|discriminate]. injection H as <-.
    destruct (IH k eq_refl) as (H1 & H2 & H3). simpl.
    split; [lia|]. split; [exact H2|]. intros [Heq|Hin]; [|tauto].
    apply Nat.eqb_neq in E. congruence.
Qed.

Lemma invalidateJob_removes j i s :
  indexOf j (queue s) = Some i -> flushIndex s < i -> List.NoDup (queue s) ->
  queue (invalidateJob j s) = splice_out i (queue s) /\
  ~ In j (queue (invalidateJob j s)).
Proof.
  intros Hi Hlt Hnd. unfold invalidateJob. rewrite Hi.
  apply Nat.ltb_lt in Hlt. rewrite Hlt. simpl. split; [reflexivity|].
  destruct (indexOf_Some j (queue s) i Hi) as (Hlen & Hnth & Hfirst).
  unfold splice_out. intros Hin. apply in_app_or in Hin. destruct Hin as [Hin|Hin]; [tauto|].
  rewrite <- (firstn_skipn i (queue s)) in Hnd.
  assert (Hsk : skipn i (queue s) = j :: skipn (S i) (queue s)).
  { clear -Hlen Hnth. revert i Hlen Hnth. induction (queue s) as [|y l IH]; intros i Hlen Hnth.
    - simpl in Hlen. lia.
    - destruct i; simpl in *; [rewrite Hnth; reflexivity|]. apply IH; [lia|exact Hnth]. }
  rewrite Hsk in Hnd. apply List.NoDup_remove_2 in Hnd. apply Hnd, in_or_app. right. exact Hin.
Qed.

(** *** The callbacks of the pre-flush phase *)

Lemma preFlushLoop_ext fuel : forall seen s,
  exists ev, trace (state_of (preFlushLoop fuel seen s)) = trace s ++ ev /\ main_runs ev = [].
Proof.
  induction fuel as [|f IH]; intros seen s; simpl.
  - exists []. rewrite app_nil_r. split; reflexivity.
  - destruct (preFlushIndex s <? _); [|exists []; rewrite app_nil_r; split; reflexivity].
    match goal with |- context [check seen ?j s] => set (job := j) end.
    destruct (check_cases seen job s) as [[-> ->]|[-> ->]].
    + match goal with |- context [preFlushLoop f ?a ?b] => destruct (IH a b) as (ev & -> & Hev) end.
      simpl. rewrite run_job_events, <- app_assoc. eexists. split; [reflexivity|].
      simpl. exact Hev.
    + match goal with |- context [preFlushLoop f ?a ?b] => destruct (IH a b) as (ev & -> & Hev) end.
      simpl. rewrite <- app_assoc. eexists. split; [reflexivity|]. simpl. exact Hev.
Qed.

Lemma flushPreFlushCbs_drains fuel : forall seen parent s seen1 s1,
  flushPreFlushCbs fuel seen parent s = Finished seen1 s1 ->
  pendingPreFlushCbs s1 = [] /\
  exists ev, trace s1 = trace s ++ ev /\ main_runs ev = [].
Proof.
  induction fuel as [|f IH]; intros seen parent s seen1 s1 H; simpl in H; [discriminate|].
  destruct (length (pendingPreFlushCbs s) =? 0) eqn:E; simpl in H.
  - injection H as <- <-. apply Nat.eqb_eq in E.
    split; [destruct (pendingPreFlushCbs s); [reflexivity|discriminate]|].
    exists []. rewrite app_nil_r. split; reflexivity.
  - match type of H with andThen (preFlushLoop f ?a ?b) _ = _ =>
      destruct (preFlushLoop_ext f a b) as (ev1 & Ht1 & Hm1);
      destruct (preFlushLoop f a b) as [seen2 s4|seen2 s4] eqn:Hloop end;
      simpl in H; [|discriminate].
    apply IH in H. destruct H as (Hp & ev2 & Ht2 & Hm2).
    split; [exact Hp|]. simpl in Ht1, Ht2.
    exists (ev1 ++ ev2). split; [rewrite Ht2, Ht1, app_assoc; reflexivity|].
    rewrite main_runs_app, Hm1, Hm2. reflexivity.
Qed.




End Scheduler.

(** * The keep-alive cache (KeepAlive.ts) *)

Module KeepAlive.

Definition VNodeId := nat.
Definition InstanceId := nat.

(** [ShapeFlags]. *)
Definition STATEFUL_COMPONENT : Z := Z.shiftl 1 2.
Definition COMPONENT_SHOULD_KEEP_ALIVE : Z := Z.shiftl 1 8.
Definition COMPONENT_KEPT_ALIVE : Z := Z.shiftl 1 9.

(** [flags & flag] read as a condition. *)
Definition has_flag (flags flag : Z) : bool := negb (Z.land flags flag =? 0)%Z.

(** The key of a cache entry:
    [vnode.key == null ? comp : vnode.key]. *)
Inductive CacheKey : Type :=
| KeyComp (comp : nat)
| KeyVal (key : nat).

Definition CacheKey_eqb (a b : CacheKey) : bool :=
  match a, b with
  | KeyComp x, KeyComp y | KeyVal x, KeyVal y => Nat.eqb x y
  | _, _ => false
  end.

(** The fields of a vnode that the cache and the renderer use on a
    component vnode; [type] is the identity of the component definition. *)
Record VNode : Type := mkVNode {
  type : nat;
  key : option nat;
  shapeFlag : Z;
  component : option InstanceId;
  el : option nat
}.

Record ComponentInternalInstance : Type := mkInstance {
  isDeactivated : bool;
  isUnmounted : bool
}.

(** The callbacks handed to [queuePostRenderEffect]. *)
Inductive PostEffect : Type :=
| SetDeactivated (i : InstanceId) (b : bool)
| SetUnmounted (i : InstanceId)
| CacheSubtree.

Inductive Event : Type :=
| EvMount (i : InstanceId)
| EvActivate (i : InstanceId)
| EvDeactivate (i : InstanceId)
| EvUnmount (i : InstanceId)
| EvUpdate (i : InstanceId).

(** The state of one [KeepAlive] instance: the variables its [setup]
    closes over ([cache], [keys], [current], [pendingCacheKey]), its prop
    [max], its [subTree], and the heaps of vnodes and of component
    instances. *)
Record State : Type := mkState {
  vnodes : list VNode;
  instances : list ComponentInternalInstance;
  cache : list (CacheKey * VNodeId);
  keys : list CacheKey;
  current : option VNodeId;
  pendingCacheKey : option CacheKey;
  subTree : option VNodeId;
  max : option nat;
  post : list PostEffect;
  trace : list Event
}.

Definition initialState (max : option nat) : State :=
  mkState [] [] [] [] None None None max [] [].

Definition with_vnodes (x : list VNode) (s : State) : State :=
  mkState x (instances s) (cache s) (keys s) (current s) (pendingCacheKey s) (subTree s)
    (max s) (post s) (trace s).

Definition with_instances (x : list ComponentInternalInstance) (s : State) : State :=
  mkState (vnodes s) x (cache s) (keys s) (current s) (pendingCacheKey s) (subTree s)
    (max s) (post s) (trace s).

Definition with_cache (x : list (CacheKey * VNodeId)) (s : State) : State :=
  mkState (vnodes s) (instances s) x (keys s) (current s) (pendingCacheKey s) (subTree s)
    (max s) (post s) (trace s).

Definition with_keys (x : list CacheKey) (s : State) : State :=
  mkState (vnodes s) (instances s) (cache s) x (current s) (pendingCacheKey s) (subTree s)
    (max s) (post s) (trace s).

Definition with_current (x : option VNodeId) (s : State) : State :=
  mkState (vnodes s) (instances s) (cache s) (keys s) x (pendingCacheKey s) (subTree s)
    (max s) (post s) (trace s).

Definition with_pendingCacheKey (x : option CacheKey) (s : State) : State :=
  mkState (vnodes s) (instances s) (cache s) (keys s) (current s) x (subTree s)
    (max s) (post s) (trace s).

Definition with_subTree (x : option VNodeId) (s : State) : State :=
  mkState (vnodes s) (instances s) (cache s) (keys s) (current s) (pendingCacheKey s) x
    (max s) (post s) (trace s).

Definition with_post (x : list PostEffect) (s : State) : State :=
  mkState (vnodes s) (instances s) (cache s) (keys s) (current s) (pendingCacheKey s)
    (subTree s) (max s) x (trace s).

Definition log (e : Event) (s : State) : State :=
  mkState (vnodes s) (instances s) (cache s) (keys s) (current s) (pendingCacheKey s)
    (subTree s) (max s) (post s) (trace s ++ [e]).

Definition noVNode : VNode := mkVNode 0 None 0 None None.
Definition noInstance : ComponentInternalInstance := mkInstance false false.

Definition getVNode (v : VNodeId) (s : State) : VNode := nth v (vnodes s) noVNode.
Definition getInstance (i : InstanceId) (s : State) : ComponentInternalInstance :=
  nth i (instances s) noInstance.

Definition setVNode (v : VNodeId) (f : VNode -> VNode) (s : State) : State :=
  with_vnodes (alter f v (vnodes s)) s.

Definition setInstance (i : InstanceId) (f : ComponentInternalInstance -> ComponentInternalInstance)
    (s : State) : State :=
  with_instances (alter f i (instances s)) s.

Definition set_shapeFlag (x : Z) (n : VNode) : VNode :=
  mkVNode (type n) (key n) x (component n) (el n).

Definition set_component (x : option InstanceId) (n : VNode) : VNode :=
  mkVNode (type n) (key n) (shapeFlag n) x (el n).

Definition set_el (x : option nat) (n : VNode) : VNode :=
  mkVNode (type n) (key n) (shapeFlag n) (component n) x.

Definition queuePostRenderEffect (e : PostEffect) (s : State) : State :=
  with_post (post s ++ [e]) s.

(** ** [Map] and [Set] with keys of the cache *)

Fixpoint cache_get (k : CacheKey) (m : list (CacheKey * VNodeId)) : option VNodeId :=
  match m with
  | [] => None
  | (k', v) :: r => if CacheKey_eqb k k' then Some v else cache_get k r
  end.

Fixpoint cache_set (k : CacheKey) (v : VNodeId) (m : list (CacheKey * VNodeId))
    : list (CacheKey * VNodeId) :=
  match m with
  | [] => [(k, v)]
  | (k', v') :: r => if CacheKey_eqb k k' then (k', v) :: r else (k', v') :: cache_set k v r
  end.

Definition cache_delete (k : CacheKey) (m : list (CacheKey * VNodeId))
    : list (CacheKey * VNodeId) :=
  List.filter (fun e => negb (CacheKey_eqb k (fst e))) m.

Definition keys_has (k : CacheKey) (l : list CacheKey) : bool := existsb (CacheKey_eqb k) l.

Definition keys_add (k : CacheKey) (l : list CacheKey) : list CacheKey :=
  if keys_has k l then l else l ++ [k].

Definition keys_delete (k : CacheKey) (l : list CacheKey) : list CacheKey :=
  List.filter (fun k' => negb (CacheKey_eqb k k')) l.

(** ** The renderer, on the child of [KeepAlive] (renderer.ts) *)

(** Modelled from the spec: two vnodes are the same node for patch
    purposes iff their type is identical and their keys match. *)
Definition isSameVNodeType (n1 n2 : VNode) : bool :=
  Nat.eqb (type n1) (type n2) &&
  match key n1, key n2 with
  | Some a, Some b => Nat.eqb a b
  | None, None => true
  | _, _ => false
  end.

(** Modelled from the spec: a vnode is created with its type, its key and
    its shape flags; the renderer fills in the host element and the
    component instance. *)
Definition createVNode (ty : nat) (k : option nat) (s : State) : VNodeId * State :=
  (length (vnodes s),
   with_vnodes (vnodes s ++ [mkVNode ty k STATEFUL_COMPONENT None None]) s).

(** [sharedContext.deactivate]. *)
Definition deactivate (vnode : VNodeId) (s : State) : option State :=
  match component (getVNode vnode s) with
  | Some instance =>
      Some (queuePostRenderEffect (SetDeactivated instance true) (log (EvDeactivate instance) s))
  | None => None
  end.

(** [unmountComponent]: the instance is torn down; [isUnmounted] is set
    after the flush. *)
Definition unmountComponent (instance : InstanceId) (s : State) : State :=
  queuePostRenderEffect (SetUnmounted instance) (log (EvUnmount instance) s).

(** The renderer's [unmount], on a component vnode. *)
Definition renderer_unmount (vnode : VNodeId) (s : State) : option State :=
  if has_flag (shapeFlag (getVNode vnode s)) COMPONENT_SHOULD_KEEP_ALIVE
  then deactivate vnode s
  else
    match component (getVNode vnode s) with
    | Some instance => Some (unmountComponent instance s)
    | None => None
    end.

(** [mountComponent]: a new instance, kept in [vnode.component]; the host
    element of the instance is named after it. *)
Definition mountComponent (vnode : VNodeId) (s : State) : State :=
  let instance := length (instances s) in
  let s1 := with_instances (instances s ++ [mkInstance false false]) s in
  let s2 := setVNode vnode (fun n => set_el (Some instance) (set_component (Some instance) n)) s1 in
  log (EvMount instance) s2.

(** [sharedContext.activate]. *)
Definition activate (vnode : VNodeId) (s : State) : option State :=
  match component (getVNode vnode s) with
  | Some instance =>
      Some (queuePostRenderEffect (SetDeactivated instance false) (log (EvActivate instance) s))
  | None => None
  end.

(** [updateComponent]: the new vnode takes over the instance. *)
Definition updateComponent (n1 n2 : VNodeId) (s : State) : option State :=
  match component (getVNode n1 s) with
  | Some instance =>
      let s1 := setVNode n2 (fun n => set_el (el (getVNode n1 s))
                                        (set_component (Some instance) n)) s in
      Some (log (EvUpdate instance) s1)
  | None => None
  end.

(** [patch] and [processComponent]. *)
Definition patch (n1 : option VNodeId) (n2 : VNodeId) (s : State) : option State :=
  if match n1 with Some a => Nat.eqb a n2 | None => false end then Some s
  else
    let unmounted :=
      match n1 with
      | Some a =>
          if negb (isSameVNodeType (getVNode a s) (getVNode n2 s))
          then option_map (fun s' => (None, s')) (renderer_unmount a s)
          else Some (n1, s)
      | None => Some (None, s)
      end in
    match unmounted with
    | None => None
    | Some (None, s1) =>
        if has_flag (shapeFlag (getVNode n2 s1)) COMPONENT_KEPT_ALIVE
        then activate n2 s1
        else Some (mountComponent n2 s1)
    | Some (Some a, s1) => updateComponent a n2 s1
    end.

(** ** The closures of [setup] *)

Definition resetShapeFlag (vnode : VNodeId) (s : State) : State :=
  let shapeFlag0 := shapeFlag (getVNode vnode s) in
  let shapeFlag1 :=
    if has_flag shapeFlag0 COMPONENT_SHOULD_KEEP_ALIVE
    then (shapeFlag0 - COMPONENT_SHOULD_KEEP_ALIVE)%Z else shapeFlag0 in
  let shapeFlag2 :=
    if has_flag shapeFlag1 COMPONENT_KEPT_ALIVE
    then (shapeFlag1 - COMPONENT_KEPT_ALIVE)%Z else shapeFlag1 in
  setVNode vnode (set_shapeFlag shapeFlag2) s.

(** The [unmount] of KeepAlive.ts. *)
Definition unmount (vnode : VNodeId) (s : State) : option State :=
  renderer_unmount vnode (resetShapeFlag vnode s).

(** [pruneCacheEntry]; reading [cached.type] of a key that is not in the
    cache throws. *)
Definition pruneCacheEntry (k : CacheKey) (s : State) : option State :=
  match cache_get k (cache s) with
  | None => None
  | Some cached =>
      let r :=
        match current s with
        | None => unmount cached s
        | Some cur =>
            if negb (Nat.eqb (type (getVNode cached s)) (type (getVNode cur s)))
            then unmount cached s
            else Some (resetShapeFlag cur s)
        end in
      option_map (fun s1 => with_keys (keys_delete k (keys s1))
                              (with_cache (cache_delete k (cache s1)) s1)) r
  end.

Definition cacheSubtree (s : State) : State :=
  match pendingCacheKey s, subTree s with
  | Some k, Some t => with_cache (cache_set k t (cache s)) s
  | _, _ => s
  end.

(** The render function returned by [setup], for a default slot that
    yields the one fresh vnode [vnode] of a stateful component, without
    [include] and [exclude].  [max && keys.size > parseInt(max)]: a [max]
    of 0 is falsy. *)
Definition render (vnode : VNodeId) (s : State) : option State :=
  let s0 := with_pendingCacheKey None s in
  let n := getVNode vnode s0 in
  let k := match key n with None => KeyComp (type n) | Some x => KeyVal x end in
  let cachedVNode := cache_get k (cache s0) in
  let s1 := with_pendingCacheKey (Some k) s0 in
  let r :=
    match cachedVNode with
    | Some c =>
        let s2 := setVNode vnode (fun n => set_component (component (getVNode c s1))
                                             (set_el (el (getVNode c s1)) n)) s1 in
        let s3 := setVNode vnode (fun n => set_shapeFlag
                                             (Z.lor (shapeFlag n) COMPONENT_KEPT_ALIVE) n) s2 in
        Some (with_keys (keys_add k (keys_delete k (keys s3))) s3)
    | None =>
        let s2 := with_keys (keys_add k (keys s1)) s1 in
        match max s2 with
        | Some m =>
            if negb (m =? 0) && (m <? length (keys s2))
            then match keys s2 with
                 | oldest :: _ => pruneCacheEntry oldest s2
                 | [] => None
                 end
            else Some s2
        | None => Some s2
        end
    end in
  option_map (fun s4 =>
    with_current (Some vnode)
      (setVNode vnode (fun n => set_shapeFlag
                                  (Z.lor (shapeFlag n) COMPONENT_SHOULD_KEEP_ALIVE) n) s4)) r.

Definition run_post (s : State) (e : PostEffect) : State :=
  match e with
  | SetDeactivated i b => setInstance i (fun x => mkInstance b (isUnmounted x)) s
  | SetUnmounted i => setInstance i (fun x => mkInstance (isDeactivated x) true) s
  | CacheSubtree => cacheSubtree s
  end.

(** [flushPostFlushCbs] on the effects queued by one update. *)
Definition flushPost (s : State) : State :=
  fold_left run_post (post s) (with_post [] s).

(** The update function of the [KeepAlive] instance, followed by the
    post-flush callbacks: the slot yields a fresh vnode of component [ty]
    with key [k]; it is rendered, patched against the previous subtree,
    and [cacheSubtree] runs as [mounted] or [updated] hook. *)
Definition update (ty : nat) (k : option nat) (s : State) : option State :=
  let '(vnode, s1) := createVNode ty k s in
  match render vnode s1 with
  | None => None
  | Some s2 =>
      let prevTree := subTree s2 in
      let s3 := with_subTree (Some vnode) s2 in
      match patch prevTree vnode s3 with
      | None => None
      | Some s4 => Some (flushPost (queuePostRenderEffect CacheSubtree s4))
      end
  end.

Fixpoint updates (l : list (nat * option nat)) (s : State) : option State :=
  match l with
  | [] => Some s
  | (ty, k) :: r =>
      match update ty k s with
      | Some s' => updates r s'
      | None => None
      end
  end.

(** ** Vocabulary of the claim *)

Definition key_of (n : VNode) : CacheKey :=
  match key n with None => KeyComp (type n) | Some x => KeyVal x end.

(** Between two updates: no post-flush callback is waiting, the vnode
    rendered last is the subtree of the instance, it is mounted and its
    key is in the key set; every cached vnode has a component
    instance. *)
Definition settled (s : State) (cur : VNodeId) : Prop :=
  post s = [] /\ current s = Some cur /\ subTree s = Some cur /\
  List.NoDup (keys s) /\
  keys_has (key_of (getVNode cur s)) (keys s) = true /\
  cur < length (vnodes s) /\
  (exists i, component (getVNode cur s) = Some i /\ i < length (instances s)) /\
  (forall k v, cache_get k (cache s) = Some v ->
     v < length (vnodes s) /\
     exists i, component (getVNode v s) = Some i /\ i < length (instances s)).

(** The claim on one update that misses the cache while the key set is
    full: the oldest key leaves the key set and the cache, and the
    component instance of its entry is unmounted. *)
Definition evicts_oldest (ty : nat) (k : option nat) (s : State) : Prop :=
  forall oldest rest cached inst,
    keys s = oldest :: rest ->
    cache_get oldest (cache s) = Some cached ->
    component (getVNode cached s) = Some inst ->
    exists s',
      update ty k s = Some s' /\
      keys s' = rest ++ [key_of (mkVNode ty k 0 None None)] /\
      cache_get oldest (cache s') = None /\
      In (EvUnmount inst) (trace s') /\
      isUnmounted (getInstance inst s') = true.

(** The state after a sequence of updates of a fresh [KeepAlive]. *)
Definition after_updates (l : list (nat * option nat)) (max : option nat) : State :=
  match updates l (initialState max) with
  | Some s => s
  | None => initialState max
  end.

(** [max] is 1 and component 1 has been rendered. *)
Definition holding_A : State := after_updates [(1, None)] (Some 1).

(** [max] is 2 and component 7 has been rendered with key 1, then with
    key 2. *)
Definition two_keys_of_one_component : State :=
  after_updates [(7, Some 1); (7, Some 2)] (Some 2).

(** The fields of the vnodes that no flag update changes. *)
Definition same_nodes (s s' : State) : Prop :=
  length (vnodes s') = length (vnodes s) /\
  forall u, type (getVNode u s') = type (getVNode u s) /\
            key (getVNode u s') = key (getVNode u s) /\
            component (getVNode u s') = component (getVNode u s).

(** ** Proofs *)

Lemma pow2_bit (n m : Z) :
  (0 <= n)%Z -> Z.testbit (Z.shiftl 1 n) m = (m =? n)%Z.
Proof.
  intros Hn. destruct (Z.ltb_spec m 0) as [Hm|Hm].
  - rewrite Z.testbit_neg_r by exact Hm. symmetry. apply Z.eqb_neq. lia.
  - rewrite Z.shiftl_spec by exact Hm.
    destruct (Z.eqb_spec m n) as [->|Hne].
    + rewrite Z.sub_diag. reflexivity.
    + destruct (Z.ltb_spec m n).
      * apply Z.testbit_neg_r. lia.
      * replace (m - n)%Z with (Z.succ (m - n - 1)) by lia.
        change 1%Z with (2 * 0 + 1)%Z. rewrite Z.testbit_odd_succ by lia.
        apply Z.bits_0.
Qed.

Lemma has_flag_testbit (f n : Z) :
  (0 <= n)%Z -> has_flag f (Z.shiftl 1 n) = Z.testbit f n.
Proof.
  intros Hn. unfold has_flag.
  destruct (Z.testbit f n) eqn:E.
  - apply negb_true_iff, Z.eqb_neq. intros H0.
    assert (Hb : Z.testbit (Z.land f (Z.shiftl 1 n)) n = true).
    { rewrite Z.land_spec, E, pow2_bit, Z.eqb_refl by exact Hn. reflexivity. }
    rewrite H0, Z.bits_0 in Hb. discriminate.
  - apply negb_false_iff, Z.eqb_eq. apply Z.bits_inj'. intros m Hm.
    rewrite Z.land_spec, pow2_bit, Z.bits_0 by exact Hn.
    destruct (Z.eqb_spec m n) as [->|_]; [rewrite E; reflexivity|apply andb_false_r].
Qed.

Lemma sub_flag_bit (f n m : Z) :
  (0 <= n)%Z -> Z.testbit f n = true ->
  Z.testbit (f - Z.shiftl 1 n) m = Z.testbit f m && negb (m =? n)%Z.
Proof.
  intros Hn Hb.
  rewrite Z.sub_nocarry_ldiff.
  - rewrite Z.ldiff_spec, pow2_bit by exact Hn. reflexivity.
  - apply Z.bits_inj'. intros k Hk. rewrite Z.ldiff_spec, pow2_bit, Z.bits_0 by exact Hn.
    destruct (Z.eqb_spec k n) as [->|_]; [rewrite Hb; reflexivity|reflexivity].
Qed.

(** After [resetShapeFlag] neither keep-alive flag is set. *)
Lemma resetShapeFlag_flags v s :
  v < length (vnodes s) ->
  let n := getVNode v (resetShapeFlag v s) in
  has_flag (shapeFlag n) COMPONENT_SHOULD_KEEP_ALIVE = false /\
  has_flag (shapeFlag n) COMPONENT_KEPT_ALIVE = false /\
  type n = type (getVNode v s) /\ key n = key (getVNode v s) /\
  component n = component (getVNode v s).
Proof.
  intros Hv. unfold resetShapeFlag, getVNode, setVNode. simpl.
  rewrite Reactivity.nth_alter_eq by exact Hv. simpl.
  set (f := shapeFlag (nth v (vnodes s) noVNode)).
  unfold COMPONENT_SHOULD_KEEP_ALIVE, COMPONENT_KEPT_ALIVE.
  rewrite !has_flag_testbit by lia.
  split; [|split; [|auto]].
  - destruct (Z.testbit f 8) eqn:E8.
    + destruct (Z.testbit (f - Z.shiftl 1 8) 9) eqn:E9.
      * rewrite sub_flag_bit by (try lia; exact E9). rewrite sub_flag_bit by (try lia; exact E8).
        simpl. rewrite andb_false_r. reflexivity.
      * rewrite sub_flag_bit by (try lia; exact E8). simpl. apply andb_false_r.
    + destruct (Z.testbit f 9) eqn:E9.
      * rewrite sub_flag_bit by (try lia; exact E9). rewrite E8. reflexivity.
      * exact E8.
  - destruct (Z.testbit f 8) eqn:E8.
    + destruct (Z.testbit (f - Z.shiftl 1 8) 9) eqn:E9.
      * rewrite sub_flag_bit by (try lia; exact E9). simpl. apply andb_false_r.
      * exact E9.
    + destruct (Z.testbit f 9) eqn:E9.
      * rewrite sub_flag_bit by (try lia; exact E9). simpl. apply andb_false_r.
      * exact E9.
Qed.

Lemma CacheKey_eqb_eq a b : CacheKey_eqb a b = true <-> a = b.
Proof.
  destruct a, b; simpl; try (split; [discriminate|intros H; discriminate]);
    rewrite Nat.eqb_eq; split; intros H; congruence.
Qed.

Lemma CacheKey_eqb_refl a : CacheKey_eqb a a = true.
Proof. apply CacheKey_eqb_eq. reflexivity. Qed.

Lemma keys_has_In k l : keys_has k l = true <-> In k l.
Proof.
  unfold keys_has. rewrite existsb_exists. split.
  - intros (x & Hx & E). apply CacheKey_eqb_eq in E. subst. exact Hx.
  - intros H. exists k. split; [exact H|apply CacheKey_eqb_refl].
Qed.

Lemma keys_delete_absent k l : ~ In k l -> keys_delete k l = l.
Proof.
  intros H. unfold keys_delete. induction l as [|x l IH]; simpl; [reflexivity|].
  destruct (CacheKey_eqb k x) eqn:E.
  - apply CacheKey_eqb_eq in E. subst. exfalso. apply H. left. reflexivity.
  - simpl. rewrite IH; [reflexivity|]. intros Hin. apply H. right. exact Hin.
Qed.

Lemma cache_get_delete k k' m :
  cache_get k (cache_delete k' m) = if CacheKey_eqb k' k then None else cache_get k m.
Proof.
  unfold cache_delete. induction m as [|[x v] m IH]; simpl.
  - destruct (CacheKey_eqb k' k); reflexivity.
  - destruct (CacheKey_eqb k' x) eqn:E; simpl.
    + apply CacheKey_eqb_eq in E. subst x. rewrite IH.
      destruct (CacheKey_eqb k' k) eqn:E'; [reflexivity|].
      destruct (CacheKey_eqb k k') eqn:E''; [|reflexivity].
      apply CacheKey_eqb_eq in E''. subst. rewrite CacheKey_eqb_refl in E'. discriminate.
    + rewrite IH. destruct (CacheKey_eqb k x) eqn:E'; [|reflexivity].
      apply CacheKey_eqb_eq in E'. subst x. rewrite E. reflexivity.
Qed.

Lemma cache_get_set k k' v m :
  cache_get k (cache_set k' v m) = if CacheKey_eqb k k' then Some v else cache_get k m.
Proof.
  induction m as [|[x w] m IH]; simpl.
  - destruct (CacheKey_eqb k k'); reflexivity.
  - destruct (CacheKey_eqb k' x) eqn:E; simpl.
    + apply CacheKey_eqb_eq in E. subst x. destruct (CacheKey_eqb k k'); reflexivity.
    + rewrite IH. destruct (CacheKey_eqb k x) eqn:E'; [|reflexivity].
      apply CacheKey_eqb_eq in E'. subst x.
      destruct (CacheKey_eqb k k') eqn:E''; [|reflexivity].
      apply CacheKey_eqb_eq in E''. subst. rewrite CacheKey_eqb_refl in E. discriminate.
Qed.

Lemma isSameVNodeType_key n1 n2 :
  isSameVNodeType n1 n2 = true -> key_of n1 = key_of n2.
Proof.
  unfold isSameVNodeType, key_of. intros H. apply andb_true_iff in H. destruct H as [Ht Hk].
  apply Nat.eqb_eq in Ht. destruct (key n1), (key n2); try discriminate.
  - apply Nat.eqb_eq in Hk. congruence.
  - congruence.
Qed.

Lemma getInstance_set_eq i f s :
  i < length (instances s) -> getInstance i (setInstance i f s) = f (getInstance i s).
Proof. intros H. unfold getInstance, setInstance. simpl. apply Reactivity.nth_alter_eq, H. Qed.

Lemma getInstance_set_ne i j f s :
  i <> j -> getInstance j (setInstance i f s) = getInstance j s.
Proof. intros H. unfold getInstance, setInstance. simpl. apply Reactivity.nth_alter_ne, H. Qed.

(** Once set, [isUnmounted] stays set through the post-flush callbacks. *)
Lemma run_post_unmounted i e s :
  isUnmounted (getInstance i s) = true -> isUnmounted (getInstance i (run_post s e)) = true.
Proof.
  intros H. destruct e as [j b|j|]; simpl.
  - destruct (Nat.eq_dec j i) as [->|Hne]; [|rewrite getInstance_set_ne by exact Hne; exact H].
    destruct (Nat.lt_ge_cases i (length (instances s))) as [Hlt|Hge].
    + rewrite getInstance_set_eq by exact Hlt. exact H.
    + unfold getInstance, setInstance. simpl. rewrite Reactivity.nth_alter_ge by exact Hge. exact H.
  - destruct (Nat.eq_dec j i) as [->|Hne]; [|rewrite getInstance_set_ne by exact Hne; exact H].
    destruct (Nat.lt_ge_cases i (length (instances s))) as [Hlt|Hge].
    + rewrite getInstance_set_eq by exact Hlt. reflexivity.
    + unfold getInstance, setInstance. simpl. rewrite Reactivity.nth_alter_ge by exact Hge. exact H.
  - unfold cacheSubtree. destruct (pendingCacheKey s), (subTree s); exact H.
Qed.

Lemma run_post_length e s : length (instances (run_post s e)) = length (instances s).
Proof.
  destruct e; simpl; try apply length_alter.
  unfold cacheSubtree. destruct (pendingCacheKey s), (subTree s); reflexivity.
Qed.

Lemma flush_unmounted i es : forall s,
  i < length (instances s) -> In (SetUnmounted i) es ->
  isUnmounted (getInstance i (fold_left run_post es s)) = true.
Proof.
  assert (Hkeep : forall es s, isUnmounted (getInstance i s) = true ->
            isUnmounted (getInstance i (fold_left run_post es s)) = true).
  { induction es0 as [|e es0 IH]; intros s H; simpl; [exact H|].
    apply IH, run_post_unmounted, H. }
  induction es as [|e es IH]; intros s Hlt Hin; [destruct Hin|].
  destruct Hin as [Heq|Hin]; simpl.
  - subst e. apply Hkeep. simpl. rewrite getInstance_set_eq by exact Hlt. reflexivity.
  - apply IH; [rewrite run_post_length; exact Hlt|exact Hin].
Qed.

Lemma same_nodes_refl s : same_nodes s s.
Proof. split; [reflexivity|]. intros u. auto. Qed.

Lemma same_nodes_trans s1 s2 s3 : same_nodes s1 s2 -> same_nodes s2 s3 -> same_nodes s1 s3.
Proof.
  intros [L1 H1] [L2 H2]. split; [congruence|]. intros u.
  destruct (H1 u) as (a & b & c), (H2 u) as (a' & b' & c'). repeat split; congruence.
Qed.

Lemma same_nodes_flag v f s :
  same_nodes s (setVNode v (fun n => set_shapeFlag (f n) n) s).
Proof.
  split; [apply length_alter|]. intros u. unfold getVNode, setVNode. simpl.
  destruct (Nat.eq_dec v u) as [->|Hne].
  - destruct (Nat.lt_ge_cases u (length (vnodes s))) as [Hlt|Hge].
    + rewrite Reactivity.nth_alter_eq by exact Hlt. auto.
    + rewrite Reactivity.nth_alter_ge by exact Hge. auto.
  - rewrite Reactivity.nth_alter_ne by exact Hne. auto.
Qed.

Lemma resetShapeFlag_same v s : same_nodes s (resetShapeFlag v s).
Proof. unfold resetShapeFlag. apply (same_nodes_flag v (fun _ => _)). Qed.

Lemma resetShapeFlag_other v u s :
  u <> v -> getVNode u (resetShapeFlag v s) = getVNode u s.
Proof.
  intros H. unfold resetShapeFlag, getVNode, setVNode. simpl.
  apply Reactivity.nth_alter_ne. congruence.
Qed.

Lemma pruneCacheEntry_spec k cached inst cur s :
  cache_get k (cache s) = Some cached ->
  cached < length (vnodes s) ->
  component (getVNode cached s) = Some inst ->
  current s = Some cur ->
  cur < length (vnodes s) ->
  type (getVNode cached s) <> type (getVNode cur s) \/ cached = cur ->
  exists s',
    pruneCacheEntry k s = Some s' /\
    keys s' = keys_delete k (keys s) /\ cache s' = cache_delete k (cache s) /\
    instances s' = instances s /\ current s' = current s /\ subTree s' = subTree s /\
    pendingCacheKey s' = pendingCacheKey s /\ max s' = max s /\
    same_nodes s s' /\
    (forall u, u <> cached -> u <> cur -> getVNode u s' = getVNode u s) /\
    ((trace s' = trace s ++ [EvUnmount inst] /\ post s' = post s ++ [SetUnmounted inst] /\
      (cached <> cur -> getVNode cur s' = getVNode cur s)) \/
     (cached = cur /\ trace s' = trace s /\ post s' = post s /\
      has_flag (shapeFlag (getVNode cur s')) COMPONENT_SHOULD_KEEP_ALIVE = false)).
Proof.
  intros Hget Hclt Hcomp Hcur Hcurlt Hcase.
  unfold pruneCacheEntry. rewrite Hget, Hcur.
  destruct (Nat.eqb (type (getVNode cached s)) (type (getVNode cur s))) eqn:E; simpl.
  - apply Nat.eqb_eq in E. destruct Hcase as [Hne|Heq]; [congruence|]. subst cached.
    eexists. split; [reflexivity|]. simpl.
    repeat (split; [first [reflexivity|exact Hcur]|]).
    split; [apply resetShapeFlag_same|].
    split; [intros u _ Hu; apply resetShapeFlag_other, Hu|].
    right. repeat (split; [reflexivity|]).
    apply (resetShapeFlag_flags cur s Hcurlt).
  - unfold unmount, renderer_unmount.
    destruct (resetShapeFlag_flags cached s Hclt) as (Hf & _ & _ & _ & Hc).
    rewrite Hf, Hc, Hcomp. simpl.
    eexists. split; [reflexivity|]. simpl.
    repeat (split; [first [reflexivity|exact Hcur]|]).
    split; [apply resetShapeFlag_same|].
    split; [intros u Hu _; apply resetShapeFlag_other, Hu|].
    left. repeat (split; [reflexivity|]).
    intros Hne. apply resetShapeFlag_other. congruence.
Qed.

Lemma getVNode_new ty k s :
  getVNode (length (vnodes s)) (snd (createVNode ty k s)) = mkVNode ty k STATEFUL_COMPONENT None None.
Proof. unfold getVNode. simpl. apply Reactivity.nth_app_new. Qed.

Lemma getVNode_old ty k u s :
  u < length (vnodes s) -> getVNode u (snd (createVNode ty k s)) = getVNode u s.
Proof. intros H. unfold getVNode. simpl. apply app_nth1, H. Qed.

Lemma render_miss_full ty k s cur m oldest rest cached inst :
  settled s cur -> max s = Some m -> 0 < m -> length (keys s) = m ->
  let newkey := key_of (mkVNode ty k 0 None None) in
  let v := length (vnodes s) in
  cache_get newkey (cache s) = None -> keys_has newkey (keys s) = false ->
  keys s = oldest :: rest ->
  cache_get oldest (cache s) = Some cached ->
  component (getVNode cached s) = Some inst ->
  type (getVNode cached s) <> type (getVNode cur s) \/ cached = cur ->
  exists s2,
    render v (snd (createVNode ty k s)) = Some s2 /\
    keys s2 = rest ++ [newkey] /\ cache s2 = cache_delete oldest (cache s) /\
    instances s2 = instances s /\ current s2 = Some v /\ subTree s2 = Some cur /\
    pendingCacheKey s2 = Some newkey /\
    length (vnodes s2) = S v /\
    type (getVNode cur s2) = type (getVNode cur s) /\
    key (getVNode cur s2) = key (getVNode cur s) /\
    component (getVNode cur s2) = component (getVNode cur s) /\
    type (getVNode v s2) = ty /\ key (getVNode v s2) = k /\
    has_flag (shapeFlag (getVNode v s2)) COMPONENT_KEPT_ALIVE = false /\
    ((trace s2 = trace s ++ [EvUnmount inst] /\ post s2 = [SetUnmounted inst]) \/
     (cached = cur /\ trace s2 = trace s /\ post s2 = [] /\
      has_flag (shapeFlag (getVNode cur s2)) COMPONENT_SHOULD_KEEP_ALIVE = false)).
Proof.
  intros (Hpost & Hcur & Hsub & Hnd & Hkcur & Hcurlt & (icur & Hicur & Hicurlt) & Hcache)
    Hmax Hm Hlen newkey v Hmiss Hnokey Hkeys Hget Hcomp Hcase.
  destruct (Hcache oldest cached Hget) as (Hclt & _).
  set (s1 := snd (createVNode ty k s)).
  assert (Hnew : getVNode v s1 = mkVNode ty k STATEFUL_COMPONENT None None)
    by apply getVNode_new.
  unfold render.
  change (getVNode v (with_pendingCacheKey None s1)) with (getVNode v s1). rewrite Hnew.
  change (match key (mkVNode ty k STATEFUL_COMPONENT None None) with
          | Some x => KeyVal x
          | None => KeyComp (type (mkVNode ty k STATEFUL_COMPONENT None None))
          end) with newkey.
  change (cache (with_pendingCacheKey None s1)) with (cache s). rewrite Hmiss.
  cbv zeta.
  set (s1' := with_pendingCacheKey (Some newkey) (with_pendingCacheKey None s1)).
  change (keys s1') with (keys s).
  unfold keys_add. rewrite Hnokey.
  set (s2 := with_keys (keys s ++ [newkey]) s1').
  change (max s2) with (max s). rewrite Hmax.
  change (keys s2) with (keys s ++ [newkey]).
  assert (Hfull : negb (m =? 0) && (m <? length (keys s ++ [newkey])) = true).
  { rewrite length_app, Hlen. simpl.
    apply andb_true_iff. split; [apply negb_true_iff, Nat.eqb_neq; lia|apply Nat.ltb_lt; lia]. }
  rewrite Hfull. rewrite Hkeys. simpl app.
  destruct (pruneCacheEntry_spec oldest cached inst cur s2) as
    (s3 & Hprune & Hk3 & Hc3 & Hi3 & Hcur3 & Hsub3 & Hpk3 & Hmax3 & Hsame & Hother & Hres).
  { exact Hget. }
  { unfold s2, s1', s1. simpl. rewrite length_app. lia. }
  { change (getVNode cached s2) with (getVNode cached s1). unfold s1.
    rewrite getVNode_old by exact Hclt. exact Hcomp. }
  { exact Hcur. }
  { unfold s2, s1', s1. simpl. rewrite length_app. lia. }
  { change (getVNode cached s2) with (getVNode cached s1).
    change (getVNode cur s2) with (getVNode cur s1). unfold s1.
    rewrite !getVNode_old by assumption. exact Hcase. }
  rewrite Hprune. simpl option_map.
  eexists. split; [reflexivity|].
  assert (Hold : ~ In oldest rest /\ oldest <> newkey).
  { rewrite Hkeys in Hnd, Hnokey. inversion Hnd; subst. split; [assumption|].
    intros ->. simpl in Hnokey. rewrite CacheKey_eqb_refl in Hnokey. discriminate. }
  assert (Hvcur : v <> cur) by (unfold v; lia).
  assert (Hvc : v <> cached) by (unfold v; lia).
  assert (Hv3 : getVNode v s3 = mkVNode ty k STATEFUL_COMPONENT None None).
  { rewrite Hother by assumption. exact Hnew. }
  assert (Hlen3 : length (vnodes s3) = S v).
  { destruct Hsame as [-> _]. unfold s2, s1', s1, v. simpl. rewrite length_app. simpl. lia. }
  match goal with |- keys ?x = _ /\ _ => set (s4 := x) end.
  assert (Hgv : getVNode v s4
      = set_shapeFlag (Z.lor STATEFUL_COMPONENT COMPONENT_SHOULD_KEEP_ALIVE)
          (mkVNode ty k STATEFUL_COMPONENT None None)).
  { unfold s4, getVNode, setVNode. simpl. rewrite Reactivity.nth_alter_eq by lia.
    fold (getVNode v s3). rewrite Hv3. reflexivity. }
  assert (Hgcur : getVNode cur s4 = getVNode cur s3).
  { unfold s4, getVNode, setVNode. simpl. apply Reactivity.nth_alter_ne. exact Hvcur. }
  rewrite Hgv, Hgcur. unfold s4. simpl.
  assert (Hcur1 : getVNode cur s2 = getVNode cur s).
  { change (getVNode cur s2) with (getVNode cur s1). apply getVNode_old, Hcurlt. }
  destruct Hsame as [_ Hsame]. destruct (Hsame cur) as (Ht & Hky & Hcp).
  rewrite Hcur1 in Ht, Hky, Hcp.
  split.
  { rewrite Hk3. change (keys s2) with (keys s ++ [newkey]). rewrite Hkeys. simpl.
    rewrite CacheKey_eqb_refl. simpl. apply keys_delete_absent.
    intros Hin. apply in_app_or in Hin. destruct Hin as [Hin|[Heq|[]]]; [tauto|].
    destruct Hold as [_ Hne]. congruence. }
  split; [rewrite Hc3; reflexivity|].
  split; [rewrite Hi3; reflexivity|].
  split; [reflexivity|].
  split; [rewrite Hsub3; exact Hsub|].
  split; [rewrite Hpk3; reflexivity|].
  split; [rewrite length_alter; exact Hlen3|].
  split; [exact Ht|]. split; [exact Hky|]. split; [exact Hcp|].
  split; [reflexivity|]. split; [reflexivity|]. split; [reflexivity|].
  destruct Hres as [(Htr & Hpo & _)|(Heq & Htr & Hpo & Hfl)].
  - left. rewrite Htr, Hpo. change (post s2) with (post s). rewrite Hpost. split; reflexivity.
  - right. split; [exact Heq|]. rewrite Htr, Hpo. change (post s2) with (post s).
    rewrite Hpost. repeat split. exact Hfl.
Qed.

Lemma flush_fields es : forall s,
  keys (fold_left run_post es s) = keys s /\
  trace (fold_left run_post es s) = trace s /\
  pendingCacheKey (fold_left run_post es s) = pendingCacheKey s /\
  length (instances (fold_left run_post es s)) = length (instances s).
Proof.
  induction es as [|e es IH]; intros s; simpl; [auto|].
  destruct (IH (run_post s e)) as (-> & -> & -> & ->).
  destruct e; simpl; rewrite ?length_alter; auto.
  unfold cacheSubtree. destruct (pendingCacheKey s) eqn:E, (subTree s); simpl; rewrite ?E; auto.
Qed.

Lemma flush_cache_other k es : forall s,
  pendingCacheKey s <> Some k ->
  cache_get k (cache (fold_left run_post es s)) = cache_get k (cache s).
Proof.
  induction es as [|e es IH]; intros s Hp; simpl; [reflexivity|].
  assert (Hstep : pendingCacheKey (run_post s e) = pendingCacheKey s /\
                  cache_get k (cache (run_post s e)) = cache_get k (cache s)).
  { destruct e; simpl; auto. unfold cacheSubtree.
    destruct (pendingCacheKey s) as [pk|] eqn:E, (subTree s); auto. simpl.
    split; [exact E|]. rewrite cache_get_set.
    destruct (CacheKey_eqb k pk) eqn:E'; [|reflexivity].
    apply CacheKey_eqb_eq in E'. congruence. }
  destruct Hstep as [Hp' Hc]. rewrite IH by congruence. exact Hc.
Qed.

(** C7, on the updates where the code agrees with it.  Between two
    updates, with the key set at its maximum, let the slot yield a vnode
    whose key misses the cache, and let the cached vnode of the oldest key
    be the current one or differ from it in its component type.  Then the
    update moves the new key to the end of the key set, and the oldest key
    leaves the key set and the cache; the component instance of its entry
    is unmounted by the renderer, not deactivated, and its [isUnmounted] is
    set after the flush. *)
Theorem lru_eviction :
  forall (ty : nat) (k : option nat) (s : State) (cur : VNodeId) (m : nat),
    settled s cur ->
    max s = Some m -> 0 < m -> length (keys s) = m ->
    cache_get (key_of (mkVNode ty k 0 None None)) (cache s) = None ->
    keys_has (key_of (mkVNode ty k 0 None None)) (keys s) = false ->
    (forall oldest cached,
        hd_error (keys s) = Some oldest -> cache_get oldest (cache s) = Some cached ->
        type (getVNode cached s) <> type (getVNode cur s) \/ cached = cur) ->
    evicts_oldest ty k s.
Proof.
  intros ty k s cur m Hset Hmax Hm Hlen Hmiss Hnokey Hvictim oldest rest cached inst
    Hkeys Hget Hcomp.
  pose proof Hset as
    (Hpost & Hcur & Hsub & Hnd & Hkcur & Hcurlt & (icur & Hicur & Hicurlt) & Hcache).
  destruct (Hcache oldest cached Hget) as (Hclt & i' & Hi' & Hilt).
  rewrite Hcomp in Hi'. injection Hi' as <-.
  destruct (render_miss_full ty k s cur m oldest rest cached inst Hset Hmax Hm Hlen Hmiss
              Hnokey Hkeys Hget Hcomp) as
    (s2 & Hrender & Hk2 & Hc2 & Hi2 & Hcur2 & Hsub2 & Hpk2 & Hlen2 & Ht2 & Hky2 & Hcp2 &
     Htv & Hkv & Hfv & Hres).
  { apply (Hvictim oldest cached); [rewrite Hkeys; reflexivity|exact Hget]. }
  unfold update. 
  change (createVNode ty k s) with (length (vnodes s), snd (createVNode ty k s)).
  cbv iota beta. rewrite Hrender. cbv iota beta zeta. rewrite Hsub2.
  set (v := length (vnodes s)) in *.
  match goal with |- context [patch _ _ ?x] => set (s3 := x) end.
  assert (Hne : Nat.eqb cur v = false) by (apply Nat.eqb_neq; unfold v; lia).
  assert (Hdiff : isSameVNodeType (getVNode cur s3) (getVNode v s3) = false).
  { destruct (isSameVNodeType (getVNode cur s3) (getVNode v s3)) eqn:E; [|reflexivity].
    apply isSameVNodeType_key in E.
    change (getVNode cur s3) with (getVNode cur s2) in E.
    change (getVNode v s3) with (getVNode v s2) in E.
    assert (E1 : key_of (getVNode cur s2) = key_of (getVNode cur s))
      by (unfold key_of; rewrite Ht2, Hky2; reflexivity).
    assert (E2 : key_of (getVNode v s2) = key_of (mkVNode ty k 0 None None))
      by (unfold key_of; rewrite Htv, Hkv; reflexivity).
    rewrite E1, E2 in E. rewrite E in Hkcur. congruence. }
  (* the renderer unmounts the previous subtree *)
  assert (Hum : exists s4 ev eff,
    renderer_unmount cur s3 = Some s4 /\
    trace s4 = trace s2 ++ [ev] /\ post s4 = post s2 ++ [eff] /\
    vnodes s4 = vnodes s2 /\ instances s4 = instances s2 /\ keys s4 = keys s2 /\
    cache s4 = cache s2 /\ pendingCacheKey s4 = pendingCacheKey s2 /\
    subTree s4 = Some v /\
    (cached = cur -> has_flag (shapeFlag (getVNode cur s2)) COMPONENT_SHOULD_KEEP_ALIVE = false ->
       ev = EvUnmount inst /\ eff = SetUnmounted inst)).
  { unfold renderer_unmount, deactivate, unmountComponent.
    change (getVNode cur s3) with (getVNode cur s2). rewrite Hcp2, Hicur.
    destruct (has_flag (shapeFlag (getVNode cur s2)) COMPONENT_SHOULD_KEEP_ALIVE) eqn:Ef.
    - eexists _, _, _. split; [reflexivity|]. simpl. repeat (split; [reflexivity|]).
      intros _ Hf. discriminate.
    - eexists _, _, _. split; [reflexivity|]. simpl. repeat (split; [reflexivity|]).
      intros -> _. rewrite Hcomp in Hicur. injection Hicur as <-. split; reflexivity. }
  destruct Hum as (s4 & ev & eff & Hum & Htr4 & Hpo4 & Hv4 & Hi4 & Hk4 & Hc4 & Hpk4 & Hsub4 & Hcase4).
  unfold patch. rewrite Hne, Hdiff. simpl negb. cbv iota. rewrite Hum. simpl option_map.
  cbv iota beta.
  assert (Hfv4 : has_flag (shapeFlag (getVNode v s4)) COMPONENT_KEPT_ALIVE = false).
  { unfold getVNode. rewrite Hv4. exact Hfv. }
  rewrite Hfv4.
  eexists. split; [reflexivity|].
  unfold flushPost.
  match goal with |- context [fold_left run_post ?es ?st] =>
    set (es0 := es); set (st0 := st) end.
  destruct (flush_fields es0 st0) as (Hfk & Hft & Hfp & Hfl).
  assert (Hes : es0 = post s2 ++ [eff; CacheSubtree]).
  { unfold es0, mountComponent. simpl. rewrite Hpo4, <- app_assoc. reflexivity. }
  assert (Htr0 : trace st0 = trace s2 ++ [ev; EvMount (length (instances s))]).
  { unfold st0, mountComponent. simpl. rewrite Htr4, Hi4, Hi2, <- app_assoc. reflexivity. }
  assert (Hin : In (SetUnmounted inst) es0 /\ In (EvUnmount inst) (trace st0)).
  { rewrite Hes, Htr0. destruct Hres as [(Htr & Hpo)|(Heq & Htr & Hpo & Hfl2)].
    - rewrite Hpo, Htr. split; [left; reflexivity|].
      apply in_or_app. left. apply in_or_app. right. left. reflexivity.
    - destruct (Hcase4 Heq Hfl2) as [-> ->]. rewrite Hpo. split; [left; reflexivity|].
      apply in_or_app. right. left. reflexivity. }
  split; [rewrite Hfk; unfold st0, mountComponent; simpl; rewrite Hk4; exact Hk2|].
  split.
  { rewrite flush_cache_other.
    - unfold st0, mountComponent. simpl. rewrite Hc4, Hc2, cache_get_delete, CacheKey_eqb_refl.
      reflexivity.
    - unfold st0, mountComponent. simpl. rewrite Hpk4, Hpk2.
      intros Heq. injection Heq as Heq. rewrite Hkeys in Hnokey. simpl in Hnokey.
      rewrite Heq, CacheKey_eqb_refl in Hnokey. discriminate. }
  split; [rewrite Hft; apply Hin|].
  apply flush_unmounted; [|apply Hin].
  unfold st0, mountComponent. simpl. rewrite ?length_alter, length_app, Hi4, Hi2. simpl. lia.
Qed.

Lemma lru_eviction_witness :
  settled holding_A 0 /\
  exists s',
    update 2 None holding_A = Some s' /\
    keys s' = [KeyComp 2] /\
    cache_get (KeyComp 1) (cache s') = None /\
    In (EvUnmount 0) (trace s') /\
    isUnmounted (getInstance 0 s') = true.
Proof.
  assert (Hset : settled holding_A 0).
  { unfold settled. split; [reflexivity|]. split; [reflexivity|]. split; [reflexivity|].
    split; [repeat constructor; simpl; tauto|]. split; [reflexivity|].
    split; [vm_compute; lia|]. split; [exists 0; split; [reflexivity|vm_compute; lia]|].
    intros k v H. vm_compute in H.
    destruct k as [[|[|c]]|key]; try discriminate. injection H as <-.
    split; [vm_compute; lia|]. exists 0. split; [reflexivity|vm_compute; lia]. }
  split; [exact Hset|].
  assert (Hv : forall oldest cached,
    hd_error (keys holding_A) = Some oldest ->
    cache_get oldest (cache holding_A) = Some cached ->
    type (getVNode cached holding_A) <> type (getVNode 0 holding_A) \/ cached = 0).
  { intros oldest cached H1 H2. right.
    vm_compute in H1. injection H1 as <-. vm_compute in H2. injection H2 as <-. reflexivity. }
  exact (lru_eviction 2 None holding_A 0 1 Hset eq_refl (Nat.lt_0_succ 0) eq_refl eq_refl
           eq_refl Hv (KeyComp 1) [] 0 0 eq_refl eq_refl eq_refl).
Defined.

(** The third key of one component: the instance of the first key is
    deactivated for ever, and the instance of the second key is unmounted
    while its entry stays in the cache. *)
Example third_key_of_one_component :
  exists s',
    update 7 (Some 3) two_keys_of_one_component = Some s' /\
    keys s' = [KeyVal 2; KeyVal 3] /\
    cache s' = [(KeyVal 2, 1); (KeyVal 3, 2)] /\
    trace s' = [EvMount 0; EvDeactivate 0; EvMount 1; EvUnmount 1; EvMount 2] /\
    getInstance 0 s' = mkInstance true false /\
    getInstance 1 s' = mkInstance false true.
Proof.
  eexists. split; [vm_compute; reflexivity|]. repeat split.
Qed.

Lemma same_component_not_evicted : ~ evicts_oldest 7 (Some 3) two_keys_of_one_component.
Proof.
  intros H.
  destruct (H (KeyVal 1) [KeyVal 2] 0 0 eq_refl eq_refl eq_refl) as (s' & Hup & _ & _ & _ & Hun).
  vm_compute in Hup. injection Hup as <-. vm_compute in Hun. discriminate.
Qed.

End KeepAlive.

(** * The suspense boundary (Suspense.ts) *)

Module Suspense.

Definition SuspenseId := nat.
Definition InstanceId := nat.
Definition VNodeId := nat.

(** The fields of a boundary that [registerDep] and [resolve] use.  The
    branches are vnodes without transition. *)
Record SuspenseBoundary : Type := mkBoundary {
  parent : option SuspenseId;
  activeBranch : option VNodeId;
  pendingBranch : option VNodeId;
  deps : Z;
  pendingId : Z;
  isInFallback : bool;
  isHydrating : bool;
  isUnmounted : bool;
  effects : list nat
}.

Record ComponentInternalInstance : Type := mkInstance {
  i_isUnmounted : bool;
  suspenseId : Z;
  asyncResolved : bool
}.

Inductive Event : Type :=
| EvHandleError (i : InstanceId) (err : nat)
| EvHandleSetupResult (i : InstanceId) (result : option nat)
| EvSetupRenderEffect (i : InstanceId)
| EvUnmount (v : VNodeId)
| EvMove (v : VNodeId)
| EvOnResolve (b : SuspenseId).

Inductive Thrown : Type :=
| ErrorNoPendingBranch
| ErrorUnmountedBoundary
| TypeError.

Record State : Type := mkState {
  DEV : bool;
  boundaries : list SuspenseBoundary;
  instances : list ComponentInternalInstance;
  pendingPostFlushCbs : list nat;
  trace : list Event
}.

(** A call returns, or throws after the changes made so far. *)
Inductive Result : Type :=
| Ok (s : State)
| Throw (e : Thrown) (s : State).

Definition with_boundaries (x : list SuspenseBoundary) (s : State) : State :=
  mkState (DEV s) x (instances s) (pendingPostFlushCbs s) (trace s).

Definition with_instances (x : list ComponentInternalInstance) (s : State) : State :=
  mkState (DEV s) (boundaries s) x (pendingPostFlushCbs s) (trace s).

Definition with_post (x : list nat) (s : State) : State :=
  mkState (DEV s) (boundaries s) (instances s) x (trace s).

Definition log (e : Event) (s : State) : State :=
  mkState (DEV s) (boundaries s) (instances s) (pendingPostFlushCbs s) (trace s ++ [e]).

Definition noBoundary : SuspenseBoundary :=
  mkBoundary None None None 0 0 true false false [].

Definition noInstance : ComponentInternalInstance := mkInstance false 0 false.

Definition getBoundary (b : SuspenseId) (s : State) : SuspenseBoundary :=
  nth b (boundaries s) noBoundary.

Definition getInstance (i : InstanceId) (s : State) : ComponentInternalInstance :=
  nth i (instances s) noInstance.

Definition setBoundary (b : SuspenseId) (f : SuspenseBoundary -> SuspenseBoundary)
    (s : State) : State :=
  with_boundaries (alter f b (boundaries s)) s.

Definition setInstance (i : InstanceId)
    (f : ComponentInternalInstance -> ComponentInternalInstance) (s : State) : State :=
  with_instances (alter f i (instances s)) s.

Definition set_activeBranch (x : option VNodeId) (u : SuspenseBoundary) : SuspenseBoundary :=
  mkBoundary (parent u) x (pendingBranch u) (deps u) (pendingId u) (isInFallback u)
    (isHydrating u) (isUnmounted u) (effects u).

Definition set_pendingBranch (x : option VNodeId) (u : SuspenseBoundary) : SuspenseBoundary :=
  mkBoundary (parent u) (activeBranch u) x (deps u) (pendingId u) (isInFallback u)
    (isHydrating u) (isUnmounted u) (effects u).

Definition set_deps (x : Z) (u : SuspenseBoundary) : SuspenseBoundary :=
  mkBoundary (parent u) (activeBranch u) (pendingBranch u) x (pendingId u) (isInFallback u)
    (isHydrating u) (isUnmounted u) (effects u).

Definition set_isInFallback (x : bool) (u : SuspenseBoundary) : SuspenseBoundary :=
  mkBoundary (parent u) (activeBranch u) (pendingBranch u) (deps u) (pendingId u) x
    (isHydrating u) (isUnmounted u) (effects u).

Definition set_isHydrating (x : bool) (u : SuspenseBoundary) : SuspenseBoundary :=
  mkBoundary (parent u) (activeBranch u) (pendingBranch u) (deps u) (pendingId u)
    (isInFallback u) x (isUnmounted u) (effects u).

Definition set_effects (x : list nat) (u : SuspenseBoundary) : SuspenseBoundary :=
  mkBoundary (parent u) (activeBranch u) (pendingBranch u) (deps u) (pendingId u)
    (isInFallback u) (isHydrating u) (isUnmounted u) x.

Definition set_asyncResolved (x : bool) (c : ComponentInternalInstance)
    : ComponentInternalInstance :=
  mkInstance (i_isUnmounted c) (suspenseId c) x.

(** An optional vnode read as a condition. *)
Definition truthy {A : Type} (o : option A) : bool :=
  match o with Some _ => true | None => false end.

(** The [while (parent)] loop of [resolve]: the nearest ancestor with a
    pending branch.  The chain of parents is no longer than the heap. *)
Fixpoint pending_ancestor (turns : nat) (p : option SuspenseId) (s : State)
    : option SuspenseId :=
  match turns, p with
  | S t, Some b =>
      match pendingBranch (getBoundary b s) with
      | Some _ => Some b
      | None => pending_ancestor t (parent (getBoundary b s)) s
      end
  | _, _ => None
  end.

(** [setActiveBranch]; reading [branch.el] of [null] throws. *)
Definition setActiveBranch (b : SuspenseId) (branch : option VNodeId) (s : State) : Result :=
  let s1 := setBoundary b (set_activeBranch branch) s in
  match branch with
  | Some _ => Ok s1
  | None => Throw TypeError s1
  end.

(** [suspense.resolve(resume)].  The branches have no transition, so
    [delayEnter] is falsy; without a pending branch, reading
    [pendingBranch.transition], or else the renderer's [move] reading the
    fields of its vnode, throws before anything is unmounted. *)
Definition resolve (b : SuspenseId) (resume : bool) (s : State) : Result :=
  let u := getBoundary b s in
  if DEV s && negb resume && negb (truthy (pendingBranch u)) then Throw ErrorNoPendingBranch s
  else if DEV s && isUnmounted u then Throw ErrorUnmountedBoundary s
  else
    let activeBranch0 := activeBranch u in
    let pendingBranch0 := pendingBranch u in
    let effects0 := effects u in
    let moved :=
      if isHydrating u then Ok (setBoundary b (set_isHydrating false) s)
      else if negb resume then
        match pendingBranch0 with
        | Some p =>
            let s1 :=
              match activeBranch0 with
              | Some a => log (EvUnmount a) s
              | None => s
              end in
            Ok (log (EvMove p) s1)
        | None => Throw TypeError s
        end
      else Ok s in
    match moved with
    | Throw e s1 => Throw e s1
    | Ok s1 =>
        match setActiveBranch b pendingBranch0 s1 with
        | Throw e s2 => Throw e s2
        | Ok s2 =>
            let s3 := setBoundary b (set_pendingBranch None) s2 in
            let s4 := setBoundary b (set_isInFallback false) s3 in
            let s5 :=
              match pending_ancestor (length (boundaries s4)) (parent (getBoundary b s4)) s4 with
              | Some a => setBoundary a (fun x => set_effects (effects x ++ effects0) x) s4
              | None => with_post (pendingPostFlushCbs s4 ++ effects0) s4
              end in
            let s6 := setBoundary b (set_effects []) s5 in
            Ok (log (EvOnResolve b) s6)
        end
    end.

(** The synchronous part of [registerDep]: the value of
    [isInPendingSuspense], which the callbacks of the promise close
    over. *)
Definition registerDep (b : SuspenseId) (s : State) : bool * State :=
  let isInPendingSuspense := truthy (pendingBranch (getBoundary b s)) in
  (isInPendingSuspense,
   if isInPendingSuspense
   then setBoundary b (fun u => set_deps (deps u + 1) u) s
   else s).

(** How the promise [instance.asyncDep] settles. *)
Inductive Settlement : Type :=
| Fulfilled (asyncSetupResult : nat)
| Rejected (err : nat).

(** Modelled from the spec: [handleError] reports the error to the
    configured handler, or logs it, and returns. *)
Definition handleError (err : nat) (i : InstanceId) (s : State) : State :=
  log (EvHandleError i err) s.

(** The callback given to [then]; [handleSetupResult] and
    [setupRenderEffect] belong to the renderer and are recorded in the
    trace. *)
Definition then_callback (b : SuspenseId) (i : InstanceId) (isInPendingSuspense : bool)
    (asyncSetupResult : option nat) (s : State) : Result :=
  if i_isUnmounted (getInstance i s)
     || isUnmounted (getBoundary b s)
     || negb (pendingId (getBoundary b s) =? suspenseId (getInstance i s))%Z
  then Ok s
  else
    let s1 := setInstance i (set_asyncResolved true) s in
    let s2 := log (EvHandleSetupResult i asyncSetupResult) s1 in
    let s3 := log (EvSetupRenderEffect i) s2 in
    if isInPendingSuspense then
      let s4 := setBoundary b (fun u => set_deps (deps u - 1) u) s3 in
      if (deps (getBoundary b s4) =? 0)%Z then resolve b false s4 else Ok s4
    else Ok s3.

(** [asyncDep.catch(...).then(...)] once the promise has settled: a
    rejection goes through the callback given to [catch], whose result,
    [undefined], is handed on. *)
Definition settle (b : SuspenseId) (i : InstanceId) (isInPendingSuspense : bool)
    (o : Settlement) (s : State) : Result :=
  match o with
  | Fulfilled r => then_callback b i isInPendingSuspense (Some r) s
  | Rejected err => then_callback b i isInPendingSuspense None (handleError err i s)
  end.

(** ** A scenario *)

(** A boundary that waits for two async components, both of its pending
    branch 7, with the fallback 3 shown. *)
Definition two_pending_deps : State :=
  mkState true
    [mkBoundary None (Some 3) (Some 7) 2 0 true false false [11; 12]]
    [mkInstance false 0 false; mkInstance false 0 false] [] [].

(** ** Proofs *)

Lemma getBoundary_set_eq b f s :
  b < length (boundaries s) -> getBoundary b (setBoundary b f s) = f (getBoundary b s).
Proof. intros H. unfold getBoundary, setBoundary. simpl. apply Reactivity.nth_alter_eq, H. Qed.

Lemma getBoundary_set_ne a b f s :
  a <> b -> getBoundary b (setBoundary a f s) = getBoundary b s.
Proof. intros H. unfold getBoundary, setBoundary. simpl. apply Reactivity.nth_alter_ne, H. Qed.

Lemma setBoundary_length b f s : length (boundaries (setBoundary b f s)) = length (boundaries s).
Proof. unfold setBoundary. simpl. apply length_alter. Qed.

Lemma pending_ancestor_pending turns : forall p s a,
  pending_ancestor turns p s = Some a -> truthy (pendingBranch (getBoundary a s)) = true.
Proof.
  induction turns as [|t IH]; intros p s a H; simpl in H; [discriminate|].
  destruct p as [b|]; [|discriminate].
  destruct (pendingBranch (getBoundary b s)) eqn:E.
  - injection H as <-. rewrite E. reflexivity.
  - eapply IH, H.
Qed.

(** [resolve] on a boundary with a pending branch. *)
Lemma resolve_pending b s pb :
  b < length (boundaries s) ->
  pendingBranch (getBoundary b s) = Some pb ->
  isUnmounted (getBoundary b s) = false ->
  exists s',
    resolve b false s = Ok s' /\
    pendingBranch (getBoundary b s') = None /\
    activeBranch (getBoundary b s') = Some pb /\
    isInFallback (getBoundary b s') = false /\
    deps (getBoundary b s') = deps (getBoundary b s) /\
    effects (getBoundary b s') = [] /\
    (exists ev, trace s' = trace s ++ ev ++ [EvOnResolve b]).
Proof.
  intros Hb Hp Hu. unfold resolve. rewrite Hp, Hu. simpl truthy. simpl negb.
  rewrite !andb_false_r. cbv iota.
  assert (Hmoved : exists s1 ev,
    (if isHydrating (getBoundary b s) then Ok (setBoundary b (set_isHydrating false) s)
     else if true then
       Ok (log (EvMove pb) match activeBranch (getBoundary b s) with
                           | Some a => log (EvUnmount a) s
                           | None => s
                           end)
     else Ok s) = Ok s1 /\
    length (boundaries s1) = length (boundaries s) /\
    deps (getBoundary b s1) = deps (getBoundary b s) /\
    parent (getBoundary b s1) = parent (getBoundary b s) /\
    trace s1 = trace s ++ ev).
  { destruct (isHydrating (getBoundary b s)).
    - eexists _, []. split; [reflexivity|]. rewrite setBoundary_length.
      rewrite getBoundary_set_eq by exact Hb. simpl. rewrite app_nil_r. auto.
    - destruct (activeBranch (getBoundary b s)); eexists _, _; (split; [reflexivity|]);
        simpl; repeat split; try reflexivity.
      rewrite <- app_assoc. reflexivity. }
  destruct Hmoved as (s1 & ev & -> & Hl1 & Hd1 & Hpar1 & Ht1).
  unfold setActiveBranch. cbv iota beta zeta.
  set (s2 := setBoundary b (set_activeBranch (Some pb)) s1).
  set (s3 := setBoundary b (set_pendingBranch None) s2).
  set (s4 := setBoundary b (set_isInFallback false) s3).
  assert (Hl2 : b < length (boundaries s1)) by lia.
  assert (Hg4 : getBoundary b s4 =
    set_isInFallback false (set_pendingBranch None (set_activeBranch (Some pb) (getBoundary b s1)))).
  { unfold s4, s3, s2. rewrite !getBoundary_set_eq; rewrite ?setBoundary_length; auto. }
  assert (Hl4 : length (boundaries s4) = length (boundaries s1)).
  { unfold s4, s3, s2. rewrite !setBoundary_length. reflexivity. }
  match goal with |- context [setBoundary b (set_effects []) ?x] => set (s5 := x) end.
  assert (H5 : getBoundary b s5 = getBoundary b s4 /\ length (boundaries s5) = length (boundaries s4)
               /\ trace s5 = trace s1).
  { unfold s5. destruct (pending_ancestor _ _ s4) as [a|] eqn:Ea.
    - apply pending_ancestor_pending in Ea.
      assert (a <> b). { intros ->. rewrite Hg4 in Ea. discriminate. }
      rewrite getBoundary_set_ne by assumption. rewrite setBoundary_length. auto.
    - auto. }
  destruct H5 as (Hg5 & Hl5 & Ht5).
  eexists. split; [reflexivity|].
  change (getBoundary b (log (EvOnResolve b) (setBoundary b (set_effects []) s5)))
    with (getBoundary b (setBoundary b (set_effects []) s5)).
  rewrite getBoundary_set_eq by lia. rewrite Hg5, Hg4. simpl.
  repeat (split; [reflexivity|]). split; [exact Hd1|]. split; [reflexivity|].
  exists ev. rewrite Ht5, Ht1, <- app_assoc. reflexivity.
Qed.

Lemma resolve_without_pending_branch b s :
  pendingBranch (getBoundary b s) = None ->
  exists e s', resolve b false s = Throw e s'.
Proof.
  intros Hp. unfold resolve. rewrite Hp. simpl.
  destruct (DEV s); simpl; [eexists _, _; reflexivity|].
  destruct (isHydrating (getBoundary b s)); eexists _, _; reflexivity.
Qed.



End Suspense.

(** * The keyed children diff (renderer.ts) *)

Module Renderer.

(** The fields of a vnode that the diff of children reads. *)
Record VNode : Type := mkVNode {
  type : nat;
  key : option nat
}.

Definition noVNode : VNode := mkVNode 0 None.

(** Modelled from the spec: two vnodes are the same node for patch
    purposes iff their type is identical and their keys match. *)
Definition isSameVNodeType (n1 n2 : VNode) : bool :=
  Nat.eqb (type n1) (type n2) &&
  match key n1, key n2 with
  | Some a, Some b => Nat.eqb a b
  | None, None => true
  | _, _ => false
  end.

(** What [patchKeyedChildren] asks of the renderer, with the children
    named by their index in [c1] (old) or in [c2] (new); an anchor is the
    new child before whose element a node is inserted, [None] standing for
    [parentAnchor]. *)
Inductive Op : Type :=
| OpPatch (old new : nat)
| OpMount (new : nat) (anchor : option nat)
| OpUnmount (old : nat)
| OpMove (new : nat) (anchor : option nat).

(** ** [getSequence] *)

(** The binary search of [getSequence] for the first position of [result]
    whose entry of [arr] is not below [arrI]; the interval halves at each
    turn. *)
Fixpoint search (turns : nat) (arr result : list nat) (arrI u v : nat) : nat :=
  match turns with
  | 0 => u
  | S t =>
      if u <? v then
        let c := Nat.div2 (u + v) in
        if nth (nth c result 0) arr 0 <? arrI
        then search t arr result arrI (c + 1) v
        else search t arr result arrI u c
      else u
  end.

(** The body of the [for] loop of [getSequence], on [(p, result)]. *)
Definition getSequence_step (arr : list nat) (st : list nat * list nat) (i : nat)
    : list nat * list nat :=
  let '(p, result) := st in
  let arrI := nth i arr 0 in
  if negb (arrI =? 0) then
    let j := nth (length result - 1) result 0 in
    if nth j arr 0 <? arrI then (<[i := j]> p, result ++ [i])
    else
      let u := search (length result) arr result arrI 0 (length result - 1) in
      if arrI <? nth (nth u result 0) arr 0 then
        let p1 := if 0 <? u then <[i := nth (u - 1) result 0]> p else p in
        (p1, <[u := i]> result)
      else (p, result)
  else (p, result).

(** The loop [while (u-- > 0) { result[u] = v; v = p[v] }]. *)
Fixpoint backtrace (u : nat) (p result : list nat) (v : nat) : list nat :=
  match u with
  | 0 => result
  | S u' => backtrace u' p (<[u' := v]> result) (nth v p 0)
  end.

Definition getSequence (arr : list nat) : list nat :=
  let '(p, result) := fold_left (getSequence_step arr) (seq 0 (length arr)) (arr, [0]) in
  backtrace (length result) p result (nth (length result - 1) result 0).

(** ** [patchKeyedChildren] *)

(** Phase 1, sync from start.  [end1] and [end2] are [e1 + 1] and
    [e2 + 1]; a loop turn consumes one child of [c1]. *)
Fixpoint sync_from_start (turns : nat) (c1 c2 : list VNode) (i end1 end2 : nat)
    (ops : list Op) : nat * list Op :=
  match turns with
  | 0 => (i, ops)
  | S t =>
      if (i <? end1) && (i <? end2) then
        if isSameVNodeType (nth i c1 noVNode) (nth i c2 noVNode)
        then sync_from_start t c1 c2 (i + 1) end1 end2 (ops ++ [OpPatch i i])
        else (i, ops)
      else (i, ops)
  end.

(** Phase 2, sync from end. *)
Fixpoint sync_from_end (turns : nat) (c1 c2 : list VNode) (i end1 end2 : nat)
    (ops : list Op) : nat * nat * list Op :=
  match turns with
  | 0 => (end1, end2, ops)
  | S t =>
      if (i <? end1) && (i <? end2) then
        if isSameVNodeType (nth (end1 - 1) c1 noVNode) (nth (end2 - 1) c2 noVNode)
        then sync_from_end t c1 c2 i (end1 - 1) (end2 - 1)
               (ops ++ [OpPatch (end1 - 1) (end2 - 1)])
        else (end1, end2, ops)
      else (end1, end2, ops)
  end.

(** The anchor of the new child at [nextIndex]:
    [nextIndex + 1 < l2 ? c2[nextIndex + 1].el : parentAnchor]. *)
Definition anchor_of (c2 : list VNode) (nextIndex : nat) : option nat :=
  if nextIndex + 1 <? length c2 then Some (nextIndex + 1) else None.

(** [keyToNewIndexMap]. *)
Fixpoint map_get (k : nat) (m : list (nat * nat)) : option nat :=
  match m with
  | [] => None
  | (k', v) :: r => if Nat.eqb k k' then Some v else map_get k r
  end.

Fixpoint map_set (k v : nat) (m : list (nat * nat)) : list (nat * nat) :=
  match m with
  | [] => [(k, v)]
  | (k', v') :: r => if Nat.eqb k k' then (k', v) :: r else (k', v') :: map_set k v r
  end.

(** 5.1: the map from the keys of the new children to their index. *)
Definition build_keyToNewIndexMap (c2 : list VNode) (s2 end2 : nat) : list (nat * nat) :=
  fold_left (fun m i =>
               match key (nth i c2 noVNode) with
               | Some k => map_set k i m
               | None => m
               end)
    (seq s2 (end2 - s2)) [].

(** The search of a new child of the same type for an old child without
    key. *)
Fixpoint find_keyless (c2 : list VNode) (newIndexToOldIndexMap : list nat) (s2 : nat)
    (prevChild : VNode) (js : list nat) : option nat :=
  match js with
  | [] => None
  | j :: r =>
      if (nth (j - s2) newIndexToOldIndexMap 0 =? 0)
         && isSameVNodeType prevChild (nth j c2 noVNode)
      then Some j
      else find_keyless c2 newIndexToOldIndexMap s2 prevChild r
  end.

(** The variables of the loop 5.2. *)
Record Matching : Type := mkMatching {
  newIndexToOldIndexMap : list nat;
  patched : nat;
  moved : bool;
  maxNewIndexSoFar : nat;
  m_ops : list Op
}.

(** The body of the loop 5.2. *)
Definition match_old (c1 c2 : list VNode) (keyToNewIndexMap : list (nat * nat))
    (s2 end2 toBePatched : nat) (st : Matching) (i : nat) : Matching :=
  let prevChild := nth i c1 noVNode in
  if toBePatched <=? patched st then
    mkMatching (newIndexToOldIndexMap st) (patched st) (moved st) (maxNewIndexSoFar st)
      (m_ops st ++ [OpUnmount i])
  else
    let newIndex :=
      match key prevChild with
      | Some k => map_get k keyToNewIndexMap
      | None =>
          find_keyless c2 (newIndexToOldIndexMap st) s2 prevChild (seq s2 (end2 - s2))
      end in
    match newIndex with
    | None =>
        mkMatching (newIndexToOldIndexMap st) (patched st) (moved st) (maxNewIndexSoFar st)
          (m_ops st ++ [OpUnmount i])
    | Some newIndex =>
        let map1 := <[newIndex - s2 := i + 1]> (newIndexToOldIndexMap st) in
        let ge := maxNewIndexSoFar st <=? newIndex in
        mkMatching map1 (patched st + 1)
          (if ge then moved st else true)
          (if ge then newIndex else maxNewIndexSoFar st)
          (m_ops st ++ [OpPatch i newIndex])
    end.

(** The body of the loop 5.3, on [(j, ops)]; [j] is one more than the
    [j] of the source, which may be [-1]. *)
Definition place (c2 : list VNode) (map : list nat) (moved : bool)
    (increasingNewIndexSequence : list nat) (s2 : nat) (st : nat * list Op) (i : nat)
    : nat * list Op :=
  let '(j, ops) := st in
  let nextIndex := s2 + i in
  let anchor := anchor_of c2 nextIndex in
  if nth i map 0 =? 0 then (j, ops ++ [OpMount nextIndex anchor])
  else if moved then
    if (j =? 0) || negb (i =? nth (j - 1) increasingNewIndexSequence 0)
    then (j, ops ++ [OpMove nextIndex anchor])
    else (j - 1, ops)
  else (j, ops).

(** The indices [n - 1, ..., 0] of a loop that counts down. *)
Definition downto (n : nat) : list nat := rev (seq 0 n).

(** 5.3, move and mount. *)
Definition move_and_mount (c2 : list VNode) (map : list nat) (moved : bool) (s2 : nat)
    (ops : list Op) : list Op :=
  let increasingNewIndexSequence := if moved then getSequence map else [] in
  snd (fold_left (place c2 map moved increasingNewIndexSequence s2)
         (downto (length map)) (length increasingNewIndexSequence, ops)).

(** Phase 5, unknown sequence. *)
Definition unknown_sequence (c1 c2 : list VNode) (i end1 end2 : nat) (ops : list Op)
    : list Op :=
  let s1 := i in
  let s2 := i in
  let keyToNewIndexMap := build_keyToNewIndexMap c2 s2 end2 in
  let toBePatched := end2 - s2 in
  let st0 := mkMatching (repeat 0 toBePatched) 0 false 0 ops in
  let st := fold_left (match_old c1 c2 keyToNewIndexMap s2 end2 toBePatched)
              (seq s1 (end1 - s1)) st0 in
  move_and_mount c2 (newIndexToOldIndexMap st) (moved st) s2 (m_ops st).

(** [patchKeyedChildren], as the list of what it asks of the renderer.
    [normalizeVNode] and [cloneIfMounted] leave type and key alone. *)
Definition patchKeyedChildren (c1 c2 : list VNode) : list Op :=
  let l2 := length c2 in
  let '(i, ops1) := sync_from_start (length c1) c1 c2 0 (length c1) l2 [] in
  let '(end1, end2, ops2) := sync_from_end (length c1) c1 c2 i (length c1) l2 ops1 in
  if end1 <=? i then
    if i <? end2 then
      let anchor := if end2 <? l2 then Some end2 else None in
      ops2 ++ map (fun x => OpMount x anchor) (seq i (end2 - i))
    else ops2
  else if end2 <=? i then
    ops2 ++ map OpUnmount (seq i (end1 - i))
  else unknown_sequence c1 c2 i end1 end2 ops2.

(** ** Specification of the diff *)

(** The positions [l] of [arr], at least one, are in ascending order and
    so are their entries; the first position may be 0 whatever its entry,
    and no other position has the entry 0 (the entries are natural
    numbers, so an entry above another one is not 0). *)
Inductive increasing (arr : list nat) : list nat -> Prop :=
| inc_first x :
    x < length arr -> nth x arr 0 <> 0 \/ x = 0 -> increasing arr [x]
| inc_next l y x :
    increasing arr (l ++ [y]) -> y < x -> x < length arr ->
    nth y arr 0 < nth x arr 0 -> increasing arr ((l ++ [y]) ++ [x]).

(** The predecessors of [x] in [p]: [chain p x m] ends in [x] and has
    [m] elements. *)
Fixpoint chain (p : list nat) (x m : nat) : list nat :=
  match m with
  | 0 => []
  | S m' => chain p (nth x p 0) m' ++ [x]
  end.

(** What holds of [p] and [result] when the loop of [getSequence] has
    gone through the positions below [i]. *)
Definition tails (arr : list nat) (i : nat) (p result : list nat) : Prop :=
  length p = length arr /\ result <> [] /\
  (forall u, S u < length result ->
     nth (nth u result 0) arr 0 < nth (nth (S u) result 0) arr 0) /\
  (forall u, u < length result ->
     nth u result 0 < i /\ increasing arr (chain p (nth u result 0) (S u))) /\
  (forall l x, increasing arr (l ++ [x]) -> x < i ->
     length l < length result /\ nth (nth (length l) result 0) arr 0 <= nth x arr 0).

(** An increasing subsequence of the entries of [map] that are not 0,
    as the list of its positions. *)
Definition matched_increasing (map l : list nat) : Prop :=
  StronglySorted lt l /\
  StronglySorted lt (List.map (fun x => nth x map 0) l) /\
  List.Forall (fun x => x < length map /\ nth x map 0 <> 0) l.

(** The positions returned by [getSequence] whose entry is not 0. *)
Definition stable_positions (map : list nat) : list nat :=
  List.filter (fun x => negb (nth x map 0 =? 0)) (getSequence map).

(** What the loop 5.3 does at the position [i] of the new children left
    to patch, when a move was detected: a node without old node is
    mounted, a matched node is moved unless its position is one that
    [getSequence] returned. *)
Definition placed (c2 : list VNode) (map : list nat) (s2 i : nat) : list Op :=
  if nth i map 0 =? 0 then [OpMount (s2 + i) (anchor_of c2 (s2 + i))]
  else if existsb (Nat.eqb i) (getSequence map) then []
  else [OpMove (s2 + i) (anchor_of c2 (s2 + i))].

Definition is_move (op : Op) : bool :=
  match op with OpMove _ _ => true | _ => false end.

Definition count_moves (ops : list Op) : nat := length (List.filter is_move ops).

(** Every child has a key, and no key occurs twice. *)
Definition fully_keyed (c : list VNode) : Prop :=
  List.Forall (fun n => key n <> None) c /\ List.NoDup (List.map key c).

Definition count_nonzero (l : list nat) : nat :=
  length (List.filter (fun x => negb (x =? 0)) l).

(** What holds of the variables of the loop 5.2 when it has gone through
    the old children below [t] (the whole lists being left to patch). *)
Definition matching (c1 c2 : list VNode) (t : nat) (st : Matching) : Prop :=
  length (newIndexToOldIndexMap st) = length c2 /\
  (forall x, x < length c2 ->
     nth x (newIndexToOldIndexMap st) 0 <> 0 <->
     exists o, o < t /\ key (nth o c1 noVNode) = key (nth x c2 noVNode)) /\
  patched st = count_nonzero (newIndexToOldIndexMap st) /\
  (forall op, In op (m_ops st) ->
     (exists o x, op = OpPatch o x) \/
     (exists o, op = OpUnmount o /\ o < t /\
                ~ In (key (nth o c1 noVNode)) (List.map key c2))).

(** The claim as it is written: the positions [l] are an increasing
    subsequence of [arr], whatever the entries, and no increasing
    subsequence is longer. *)
Definition ascending_entries (arr l : list nat) : Prop :=
  StronglySorted lt l /\
  StronglySorted lt (List.map (fun x => nth x arr 0) l) /\
  List.Forall (fun x => x < length arr) l.

Definition longest_increasing (arr l : list nat) : Prop :=
  ascending_entries arr l /\
  forall l', ascending_entries arr l' -> length l' <= length l.

(** The old children [a b c d] and the new children [b x a c y], as
    vnodes of one type with the keys 1 to 4, 8 and 9. *)
Definition old_children : list VNode :=
  [mkVNode 1 (Some 1); mkVNode 1 (Some 2); mkVNode 1 (Some 3); mkVNode 1 (Some 4)].

Definition new_children : list VNode :=
  [mkVNode 1 (Some 2); mkVNode 1 (Some 9); mkVNode 1 (Some 1); mkVNode 1 (Some 3);
   mkVNode 1 (Some 8)].

(** ** Proofs *)

Lemma nth_insert_eq {A} (l : list A) i x d : i < length l -> nth i (<[i := x]> l) d = x.
Proof. intros H. rewrite nth_lookup, list_lookup_insert_eq by exact H. reflexivity. Qed.

Lemma nth_insert_ne {A} (l : list A) i j x d : i <> j -> nth j (<[i := x]> l) d = nth j l d.
Proof. intros H. rewrite !nth_lookup, list_lookup_insert_ne by exact H. reflexivity. Qed.

Lemma increasing_snoc_inv arr l x :
  increasing arr (l ++ [x]) ->
  x < length arr /\
  ((l = [] /\ (nth x arr 0 <> 0 \/ x = 0)) \/
   (exists l' y, l = l' ++ [y] /\ increasing arr (l' ++ [y]) /\ y < x /\
                 nth y arr 0 < nth x arr 0)).
Proof.
  intros H. inversion H as [x0 Hx Hz Heq|l0 y x0 Hinc Hyx Hx Hv Heq].
  - destruct l as [|a l]; simpl in Heq.
    + injection Heq as ->. split; [exact Hx|]. left. auto.
    + injection Heq as _ Heq. destruct l; discriminate.
  - apply app_inj_tail in Heq. destruct Heq as [<- <-].
    split; [exact Hx|]. right. exists l0, y. auto.
Qed.

Lemma increasing_bound arr l x : increasing arr (l ++ [x]) -> List.Forall (fun y => y < x) l.
Proof.
  revert x. induction l as [|a l IH] using rev_ind; intros x H; [constructor|].
  apply increasing_snoc_inv in H. destruct H as (_ & [[Hnil _]|(l' & y & Heq & Hinc & Hyx & _)]).
  - destruct l; discriminate.
  - apply app_inj_tail in Heq. destruct Heq as [-> ->].
    apply List.Forall_app. split.
    + eapply List.Forall_impl; [|apply IH, Hinc]. simpl. intros z Hz. lia.
    + repeat constructor. exact Hyx.
Qed.

Lemma increasing_nonempty arr l : increasing arr l -> exists l' x, l = l' ++ [x].
Proof. intros H. destruct H; [exists [], x|exists (l ++ [y]), x]; reflexivity. Qed.

Lemma chain_length p x m : length (chain p x m) = m.
Proof. revert x. induction m as [|m IH]; intros x; simpl; [reflexivity|]. rewrite length_app, IH. simpl. lia. Qed.

(** Writing [p] at a position outside the chain leaves the chain. *)
Lemma chain_insert p i v x m :
  List.Forall (fun y => y <> i) (chain p x m) -> chain (<[i := v]> p) x m = chain p x m.
Proof.
  revert x. induction m as [|m IH]; intros x H; simpl in *; [reflexivity|].
  apply List.Forall_app in H. destruct H as [H1 H2]. inversion H2; subst.
  rewrite nth_insert_ne by congruence. rewrite IH by exact H1. reflexivity.
Qed.

Lemma chain_below arr p x m i :
  increasing arr (chain p x (S m)) -> x < i -> List.Forall (fun y => y <> i) (chain p x (S m)).
Proof.
  simpl. intros H Hx. apply List.Forall_app. split.
  - eapply List.Forall_impl; [|apply (increasing_bound arr _ x H)]. simpl. intros; lia.
  - repeat constructor. lia.
Qed.

Lemma tails_mono arr i p result :
  tails arr i p result ->
  forall u u', u <= u' -> u' < length result ->
    nth (nth u result 0) arr 0 <= nth (nth u' result 0) arr 0.
Proof.
  intros (_ & _ & Hinc & _) u u' Hle Hlt. induction Hle as [|u' Hle IH]; [lia|].
  specialize (Hinc u' Hlt). specialize (IH ltac:(lia)). lia.
Qed.

Lemma search_spec arr result arrI turns : forall u v,
  (forall a b, a <= b -> b < length result ->
     nth (nth a result 0) arr 0 <= nth (nth b result 0) arr 0) ->
  u <= v -> v < length result -> v - u <= turns ->
  (forall c, c < u -> nth (nth c result 0) arr 0 < arrI) ->
  arrI <= nth (nth v result 0) arr 0 ->
  let r := search turns arr result arrI u v in
  r < length result /\
  (forall c, c < r -> nth (nth c result 0) arr 0 < arrI) /\
  arrI <= nth (nth r result 0) arr 0.
Proof.
  induction turns as [|t IH]; intros u v Hmono Huv Hv Ht Hlow Hhigh; simpl.
  - assert (u = v) by lia. subst. auto.
  - destruct (u <? v) eqn:E.
    + apply Nat.ltb_lt in E.
      assert (Hc : u <= Nat.div2 (u + v) < v).
      { rewrite Nat.div2_div. split.
        - apply Nat.div_le_lower_bound; lia.
        - apply Nat.Div0.div_lt_upper_bound; lia. }
      destruct (nth (nth (Nat.div2 (u + v)) result 0) arr 0 <? arrI) eqn:Ec.
      * apply Nat.ltb_lt in Ec. apply IH; try assumption; try lia.
        intros c Hcl. specialize (Hmono c (Nat.div2 (u + v)) ltac:(lia) ltac:(lia)). lia.
      * apply Nat.ltb_ge in Ec. apply IH; try assumption; try lia.
    + apply Nat.ltb_ge in E. assert (u = v) by lia. subst. auto.
Qed.

Lemma chain_last p x m : chain p x (S m) = chain p (nth x p 0) m ++ [x].
Proof. reflexivity. Qed.

(** A chain extended by the position [i] that the loop is at. *)
Lemma chain_extend arr p i j m :
  i < length p -> i < length arr ->
  increasing arr (chain p j (S m)) -> j < i -> nth j arr 0 < nth i arr 0 ->
  increasing arr (chain (<[i := j]> p) i (S (S m))).
Proof.
  intros Hip Hia Hinc Hji Hv.
  rewrite (chain_last _ i (S m)), nth_insert_eq by exact Hip.
  rewrite chain_insert by (apply (chain_below arr); assumption).
  rewrite chain_last in Hinc |- *. apply inc_next; assumption.
Qed.

Lemma tails_step_skip arr i p result :
  tails arr i p result -> 1 <= i -> nth i arr 0 = 0 -> tails arr (S i) p result.
Proof.
  intros (Hlen & Hne & Hinc & Hch & Hopt) Hi Hz.
  split; [exact Hlen|]. split; [exact Hne|]. split; [exact Hinc|]. split.
  - intros u Hu. destruct (Hch u Hu) as [H1 H2]. split; [lia|exact H2].
  - intros l x Hl Hx. destruct (Nat.eq_dec x i) as [->|Hxi]; [|apply Hopt; [exact Hl|lia]].
    apply increasing_snoc_inv in Hl.
    destruct Hl as (_ & [[_ [Hnz|H0]]|(l' & y & _ & _ & _ & Hv)]); lia.
Qed.

Lemma tails_step_push arr i p result :
  tails arr i p result -> i < length arr ->
  nth (nth (length result - 1) result 0) arr 0 < nth i arr 0 ->
  tails arr (S i) (<[i := nth (length result - 1) result 0]> p) (result ++ [i]).
Proof.
  intros HT Hia Hpush. pose proof (tails_mono arr i p result HT) as Hmono.
  destruct HT as (Hlen & Hne & Hinc & Hch & Hopt).
  set (k := length result) in *. set (j := nth (k - 1) result 0) in *.
  assert (Hk : 1 <= k) by (unfold k; destruct result; [congruence|simpl; lia]).
  destruct (Hch (k - 1) ltac:(lia)) as [Hji Hjinc]. fold j in Hji, Hjinc.
  replace (S (k - 1)) with k in Hjinc by lia.
  split; [rewrite length_insert; exact Hlen|].
  split; [destruct result; discriminate|].
  split; [|split].
  - intros u Hu. rewrite length_app in Hu. simpl in Hu. fold k in Hu.
    destruct (Nat.eq_dec (S u) k) as [E|E].
    + rewrite app_nth1 by (fold k; lia). rewrite (app_nth2 _ _ _ (n := S u)) by (fold k; lia).
      fold k. replace (S u - k) with 0 by lia. simpl.
      replace u with (k - 1) by lia. exact Hpush.
    + rewrite !app_nth1 by (fold k; lia). apply Hinc. fold k. lia.
  - intros u Hu. rewrite length_app in Hu. simpl in Hu. fold k in Hu.
    destruct (Nat.eq_dec u k) as [->|E].
    + rewrite app_nth2 by (fold k; lia). fold k. rewrite Nat.sub_diag. simpl nth.
      split; [lia|].
      destruct k as [|k']; [lia|].
      apply (chain_extend arr); try assumption; lia.
    + rewrite app_nth1 by (fold k; lia).
      destruct (Hch u ltac:(fold k; lia)) as [H1 H2]. split; [lia|].
      rewrite chain_insert; [exact H2|]. apply (chain_below arr); assumption.
  - intros l x Hl Hx. rewrite length_app. simpl. fold k.
    destruct (Nat.eq_dec x i) as [->|Hxi].
    + apply increasing_snoc_inv in Hl.
      destruct Hl as (_ & [[-> _]|(l' & y & -> & Hl' & Hyi & Hv)]).
      * simpl. split; [lia|]. rewrite app_nth1 by (fold k; lia).
        specialize (Hmono 0 (k - 1) ltac:(lia) ltac:(lia)). fold j in Hmono. lia.
      * destruct (Hopt l' y Hl' Hyi) as [Hll Hlv]. fold k in Hll.
        rewrite length_app. simpl. split; [lia|].
        destruct (Nat.eq_dec (length l' + 1) k) as [E|E].
        -- rewrite app_nth2 by (fold k; lia). fold k. replace (length l' + 1 - k) with 0 by lia.
           simpl. lia.
        -- rewrite app_nth1 by (fold k; lia).
           specialize (Hmono (length l' + 1) (k - 1) ltac:(lia) ltac:(lia)). fold j in Hmono. lia.
    + destruct (Hopt l x Hl ltac:(lia)) as [Hll Hlv]. fold k in Hll. split; [lia|].
      rewrite app_nth1 by (fold k; lia). exact Hlv.
Qed.

(** What the binary search tells about an increasing sequence that ends
    at the position [i] of the loop: its length is at most [u + 1]. *)
Lemma tails_new_end arr i p result u l :
  tails arr i p result ->
  u < length result ->
  (forall c, c < u -> nth (nth c result 0) arr 0 < nth i arr 0) ->
  nth i arr 0 <= nth (nth u result 0) arr 0 ->
  increasing arr (l ++ [i]) ->
  length l <= u /\
  (length l < u -> nth (nth (length l) result 0) arr 0 < nth i arr 0).
Proof.
  intros HT Hu Hlow Hhigh Hl. pose proof (tails_mono arr i p result HT) as Hmono.
  destruct HT as (_ & _ & _ & _ & Hopt).
  apply increasing_snoc_inv in Hl.
  destruct Hl as (_ & [[-> _]|(l' & y & -> & Hl' & Hyi & Hv)]).
  - simpl. split; [lia|]. intros H. apply Hlow, H.
  - destruct (Hopt l' y Hl' Hyi) as [Hll Hlv].
    rewrite length_app. simpl.
    assert (length l' < u).
    { destruct (Nat.lt_ge_cases (length l') u) as [H|H]; [exact H|].
      specialize (Hmono u (length l') H Hll). lia. }
    split; [lia|]. intros H'. apply Hlow, H'.
Qed.

Lemma tails_step_keep arr i p result u :
  tails arr i p result ->
  u < length result ->
  (forall c, c < u -> nth (nth c result 0) arr 0 < nth i arr 0) ->
  nth i arr 0 = nth (nth u result 0) arr 0 ->
  tails arr (S i) p result.
Proof.
  intros HT Hu Hlow Heq. pose proof (tails_mono arr i p result HT) as Hmono.
  pose proof HT as (Hlen & Hne & Hinc & Hch & Hopt).
  split; [exact Hlen|]. split; [exact Hne|]. split; [exact Hinc|]. split.
  - intros c Hc. destruct (Hch c Hc) as [H1 H2]. split; [lia|exact H2].
  - intros l x Hl Hx. destruct (Nat.eq_dec x i) as [->|Hxi]; [|apply Hopt; [exact Hl|lia]].
    destruct (tails_new_end arr i p result u l HT Hu Hlow ltac:(lia) Hl) as [H1 H2].
    split; [lia|].
    destruct (Nat.eq_dec (length l) u) as [E|E]; [rewrite E; lia|].
    specialize (H2 ltac:(lia)). lia.
Qed.

Lemma tails_step_replace arr i p result u :
  tails arr i p result -> i < length arr -> nth i arr 0 <> 0 ->
  u < length result ->
  (forall c, c < u -> nth (nth c result 0) arr 0 < nth i arr 0) ->
  nth i arr 0 < nth (nth u result 0) arr 0 ->
  tails arr (S i)
    (if 0 <? u then <[i := nth (u - 1) result 0]> p else p) (<[u := i]> result).
Proof.
  intros HT Hia Hnz Hu Hlow Hlt. pose proof (tails_mono arr i p result HT) as Hmono.
  pose proof HT as (Hlen & Hne & Hinc & Hch & Hopt).
  set (p1 := if 0 <? u then <[i := nth (u - 1) result 0]> p else p).
  assert (Hlen1 : length p1 = length arr).
  { unfold p1. destruct (0 <? u); [rewrite length_insert|]; exact Hlen. }
  assert (Hold : forall c, c < length result ->
            chain p1 (nth c result 0) (S c) = chain p (nth c result 0) (S c)).
  { intros c Hc. unfold p1. destruct (0 <? u); [|reflexivity].
    destruct (Hch c Hc) as [H1 H2]. apply chain_insert, (chain_below arr); assumption. }
  split; [exact Hlen1|].
  split; [intros E; apply (f_equal (@length nat)) in E; rewrite length_insert in E;
          destruct result; [congruence|discriminate]|].
  split; [|split].
  - intros c Hc. rewrite length_insert in Hc.
    destruct (Nat.eq_dec c u) as [->|E1].
    + rewrite nth_insert_eq by lia. rewrite nth_insert_ne by lia.
      specialize (Hinc u Hc). lia.
    + rewrite (nth_insert_ne _ u c) by lia.
      destruct (Nat.eq_dec (S c) u) as [<-|E2].
      * rewrite nth_insert_eq by lia. apply Hlow. lia.
      * rewrite nth_insert_ne by lia. apply Hinc, Hc.
  - intros c Hc. rewrite length_insert in Hc.
    destruct (Nat.eq_dec c u) as [->|E1].
    + rewrite nth_insert_eq by lia. split; [lia|].
      unfold p1. destruct u as [|u']; simpl Nat.ltb; cbv iota.
      * simpl. apply inc_first; [exact Hia|left; exact Hnz].
      * destruct (Hch u' ltac:(lia)) as [H1 H2].
        replace (S u' - 1) with u' by lia.
        apply (chain_extend arr); try assumption; try lia. apply Hlow. lia.
    + rewrite nth_insert_ne by lia. destruct (Hch c Hc) as [H1 H2].
      split; [lia|]. rewrite Hold by exact Hc. exact H2.
  - intros l x Hl Hx. rewrite length_insert.
    destruct (Nat.eq_dec x i) as [->|Hxi].
    + destruct (tails_new_end arr i p result u l HT Hu Hlow ltac:(lia) Hl) as [H1 H2].
      split; [lia|].
      destruct (Nat.eq_dec (length l) u) as [E|E].
      * rewrite E, nth_insert_eq by lia. lia.
      * rewrite nth_insert_ne by lia. specialize (H2 ltac:(lia)). lia.
    + destruct (Hopt l x Hl ltac:(lia)) as [Hll Hlv]. split; [exact Hll|].
      destruct (Nat.eq_dec (length l) u) as [E|E].
      * rewrite E, nth_insert_eq by lia. rewrite E in Hlv. lia.
      * rewrite nth_insert_ne by lia. exact Hlv.
Qed.

Lemma getSequence_step_tails arr i p result :
  tails arr i p result -> 1 <= i -> i < length arr ->
  tails arr (S i) (fst (getSequence_step arr (p, result) i))
    (snd (getSequence_step arr (p, result) i)).
Proof.
  intros HT Hi Hia. pose proof (tails_mono arr i p result HT) as Hmono.
  unfold getSequence_step.
  destruct (nth i arr 0 =? 0) eqn:Ez; simpl negb; cbv iota.
  - apply Nat.eqb_eq in Ez. apply tails_step_skip; assumption.
  - apply Nat.eqb_neq in Ez.
    destruct (nth (nth (length result - 1) result 0) arr 0 <? nth i arr 0) eqn:Ep.
    + apply Nat.ltb_lt in Ep. simpl. apply tails_step_push; assumption.
    + apply Nat.ltb_ge in Ep.
      assert (Hk : 1 <= length result).
      { destruct HT as (_ & Hne & _). destruct result; [congruence|simpl; lia]. }
      destruct (search_spec arr result (nth i arr 0) (length result) 0 (length result - 1))
        as (Hu & Hlow & Hhigh); try lia.
      { exact Hmono. }
      set (u := search (length result) arr result (nth i arr 0) 0 (length result - 1)) in *.
      destruct (nth i arr 0 <? nth (nth u result 0) arr 0) eqn:Er.
      * apply Nat.ltb_lt in Er. simpl. apply tails_step_replace; assumption.
      * apply Nat.ltb_ge in Er. simpl. apply (tails_step_keep arr i p result u); try assumption.
        lia.
Qed.

Lemma getSequence_step_first arr : getSequence_step arr (arr, [0]) 0 = (arr, [0]).
Proof.
  unfold getSequence_step. destruct (nth 0 arr 0 =? 0); simpl; [reflexivity|].
  rewrite Nat.ltb_irrefl. reflexivity.
Qed.

Lemma tails_first arr : 1 <= length arr -> tails arr 1 arr [0].
Proof.
  intros Hn. split; [reflexivity|]. split; [discriminate|]. split; [simpl; intros; lia|].
  split.
  - intros u Hu. simpl in Hu. assert (u = 0) by lia. subst. simpl. split; [lia|].
    apply inc_first; [lia|right; reflexivity].
  - intros l x Hl Hx. assert (x = 0) by lia. subst.
    pose proof (increasing_bound arr l 0 Hl) as Hb.
    destruct l as [|a l]; [simpl; lia|]. inversion Hb; lia.
Qed.

Lemma getSequence_loop_tails arr k : forall i p result,
  tails arr i p result -> 1 <= i -> i + k <= length arr ->
  tails arr (i + k) (fst (fold_left (getSequence_step arr) (seq i k) (p, result)))
    (snd (fold_left (getSequence_step arr) (seq i k) (p, result))).
Proof.
  induction k as [|k IH]; intros i p result HT Hi Hk.
  - simpl. rewrite Nat.add_0_r. exact HT.
  - change (seq i (S k)) with (i :: seq (S i) k). cbn [fold_left].
    pose proof (getSequence_step_tails arr i p result HT Hi ltac:(lia)) as HT'.
    destruct (getSequence_step arr (p, result) i) as [p' result'].
    replace (i + S k) with (S i + k) by lia. apply (IH (S i) p' result'); [exact HT'|lia|lia].
Qed.

Lemma skipn_insert_here {A} (l : list A) u v :
  u < length l -> skipn u (<[u := v]> l) = v :: skipn (S u) l.
Proof.
  revert u. induction l as [|a l IH]; intros u Hu; simpl in Hu; [lia|].
  destruct u; simpl; [reflexivity|]. apply IH. lia.
Qed.

Lemma backtrace_chain p : forall u result v,
  u <= length result -> backtrace u p result v = chain p v u ++ skipn u result.
Proof.
  induction u as [|u IH]; intros result v Hu; simpl; [reflexivity|].
  rewrite IH by (rewrite length_insert; lia).
  rewrite skipn_insert_here by lia. rewrite <- app_assoc. reflexivity.
Qed.

(** [getSequence] returns the chain that ends in the last entry of
    [result]. *)
Lemma getSequence_tails arr :
  1 <= length arr ->
  exists p result,
    tails arr (length arr) p result /\
    getSequence arr = chain p (nth (length result - 1) result 0) (length result).
Proof.
  intros Hn. unfold getSequence.
  destruct (length arr) as [|n] eqn:En; [lia|].
  change (seq 0 (S n)) with (0 :: seq 1 n). cbn [fold_left].
  rewrite getSequence_step_first.
  pose proof (getSequence_loop_tails arr n 1 arr [0]) as HT.
  rewrite En in HT. specialize (HT (tails_first arr ltac:(lia)) ltac:(lia) ltac:(lia)).
  destruct (fold_left (getSequence_step arr) (seq 1 n) (arr, [0])) as [p result].
  exists p, result. split; [exact HT|].
  rewrite backtrace_chain by lia. rewrite skipn_all, app_nil_r. reflexivity.
Qed.

Lemma getSequence_increasing arr :
  1 <= length arr ->
  increasing arr (getSequence arr) /\
  forall l, increasing arr l -> length l <= length (getSequence arr).
Proof.
  intros Hn. destruct (getSequence_tails arr Hn) as (p & result & HT & ->).
  destruct HT as (_ & Hne & _ & Hch & Hopt).
  assert (Hk : 1 <= length result) by (destruct result; [congruence|simpl; lia]).
  split.
  - destruct (Hch (length result - 1) ltac:(lia)) as [_ H].
    replace (S (length result - 1)) with (length result) in H by lia. exact H.
  - intros l Hl. rewrite chain_length.
    destruct (increasing_nonempty arr l Hl) as (l' & x & ->).
    pose proof (increasing_snoc_inv arr l' x Hl) as [Hx _].
    destruct (Hopt l' x Hl Hx) as [H _]. rewrite length_app. simpl. lia.
Qed.

(** *** [increasing] and sorted lists *)

Lemma sorted_lt_snoc (l : list nat) x :
  StronglySorted lt l -> List.Forall (fun y => y < x) l -> StronglySorted lt (l ++ [x]).
Proof.
  induction 1 as [|y l Hs IH Hall]; intros Hx; simpl.
  - repeat constructor.
  - inversion Hx; subst. constructor; [apply IH; assumption|].
    apply List.Forall_app. split; [exact Hall|]. repeat constructor. assumption.
Qed.

Lemma sorted_lt_snoc_inv (l : list nat) x :
  StronglySorted lt (l ++ [x]) -> StronglySorted lt l /\ List.Forall (fun y => y < x) l.
Proof.
  induction l as [|y l IH]; simpl; intros H; [split; constructor|].
  inversion H as [|? ? Hs Hall]; subst. destruct (IH Hs) as [H1 H2].
  apply List.Forall_app in Hall. destruct Hall as [Ha Hb]. inversion Hb; subst.
  split; constructor; assumption.
Qed.

Lemma increasing_entries_bound arr l x :
  increasing arr (l ++ [x]) -> List.Forall (fun y => nth y arr 0 < nth x arr 0) l.
Proof.
  revert x. induction l as [|a l IH] using rev_ind; intros x H; [constructor|].
  apply increasing_snoc_inv in H. destruct H as (_ & [[Hnil _]|(l' & y & Heq & Hinc & _ & Hv)]).
  - destruct l; discriminate.
  - apply app_inj_tail in Heq. destruct Heq as [-> ->].
    apply List.Forall_app. split.
    + eapply List.Forall_impl; [|apply IH, Hinc]. simpl. intros z Hz. lia.
    + repeat constructor. exact Hv.
Qed.

(** An [increasing] list is sorted by position and by entry, its
    positions are positions of [arr], and only its first position may have
    the entry 0, when it is the position 0. *)
Lemma increasing_sorted arr l :
  increasing arr l ->
  StronglySorted lt l /\
  StronglySorted lt (map (fun x => nth x arr 0) l) /\
  List.Forall (fun x => x < length arr) l /\
  match l with
  | [] => False
  | x :: r => (nth x arr 0 <> 0 \/ x = 0) /\ List.Forall (fun y => nth y arr 0 <> 0) r
  end.
Proof.
  induction 1 as [x Hx Hz|l y x Hinc IH Hyx Hx Hv].
  - repeat split; try (repeat constructor; assumption). exact Hz.
  - destruct IH as (S1 & S2 & B & Z).
    split; [|split; [|split]].
    + apply sorted_lt_snoc; [exact S1|].
      pose proof (increasing_bound arr l y Hinc) as Hb.
      apply List.Forall_app. split; [|repeat constructor; exact Hyx].
      eapply List.Forall_impl; [|exact Hb]. simpl. intros; lia.
    + rewrite map_app. simpl. apply sorted_lt_snoc; [exact S2|].
      pose proof (increasing_entries_bound arr l y Hinc) as Hb.
      rewrite map_app. simpl. apply List.Forall_app. split; [|repeat constructor; exact Hv].
      apply List.Forall_forall. intros z Hz. apply in_map_iff in Hz.
      destruct Hz as (w & <- & Hw). rewrite List.Forall_forall in Hb. specialize (Hb w Hw). lia.
    + apply List.Forall_app. split; [exact B|repeat constructor; exact Hx].
    + destruct (l ++ [y]) as [|a r] eqn:E; [destruct Z|]. simpl.
      destruct Z as [Z1 Z2]. split; [exact Z1|].
      apply List.Forall_app. split; [exact Z2|]. repeat constructor. lia.
Qed.

(** Conversely. *)
Lemma sorted_increasing arr l :
  l <> [] ->
  StronglySorted lt l ->
  StronglySorted lt (map (fun x => nth x arr 0) l) ->
  List.Forall (fun x => x < length arr) l ->
  (forall x r, l = x :: r -> nth x arr 0 <> 0 \/ x = 0) ->
  increasing arr l.
Proof.
  induction l as [|x l IH] using rev_ind; intros Hne S1 S2 B Z; [congruence|].
  apply sorted_lt_snoc_inv in S1. destruct S1 as [S1 F1].
  rewrite map_app in S2. simpl in S2. apply sorted_lt_snoc_inv in S2. destruct S2 as [S2 F2].
  apply List.Forall_app in B. destruct B as [B Bx]. inversion Bx; subst.
  destruct l as [|a l'] using rev_ind.
  - apply inc_first; [assumption|]. apply (Z x []). reflexivity.
  - clear IHl'. apply inc_next.
    + apply IH; try assumption.
      * destruct l'; discriminate.
      * intros z r E. apply (Z z (r ++ [x])). rewrite E. reflexivity.
    + apply List.Forall_app in F1. destruct F1 as [_ F1]. inversion F1; assumption.
    + assumption.
    + rewrite map_app in F2. apply List.Forall_app in F2. destruct F2 as [_ F2].
      inversion F2; assumption.
Qed.

Lemma filter_nonzero_all (map l : list nat) :
  List.Forall (fun y => nth y map 0 <> 0) l ->
  List.filter (fun x => negb (nth x map 0 =? 0)) l = l.
Proof.
  induction 1 as [|y l Hy Hl IH]; simpl; [reflexivity|].
  apply Nat.eqb_neq in Hy. rewrite Hy. simpl. rewrite IH. reflexivity.
Qed.

(** [getSequence] returns a longest increasing subsequence of the entries
    that are not 0, preceded by the position 0 when the entry there is
    0. *)
Lemma getSequence_stable map :
  1 <= length map ->
  matched_increasing map (stable_positions map) /\
  (forall l, matched_increasing map l -> length l <= length (stable_positions map)) /\
  (getSequence map = stable_positions map \/
   (nth 0 map 0 = 0 /\ getSequence map = 0 :: stable_positions map)).
Proof.
  intros Hn. destruct (getSequence_increasing map Hn) as [Hinc Hopt].
  destruct (increasing_sorted map _ Hinc) as (S1 & S2 & B & Z).
  unfold stable_positions.
  destruct (getSequence map) as [|x r] eqn:E; [destruct Z|].
  destruct Z as [Zx Zr].
  inversion S1 as [|? ? S1r F1]; subst. simpl in S2.
  inversion S2 as [|? ? S2r F2]; subst. inversion B as [|? ? Bx Br]; subst.
  assert (Hr : matched_increasing map r).
  { split; [exact S1r|]. split; [exact S2r|].
    rewrite List.Forall_forall in Br, Zr |- *. intros y Hy. split; auto. }
  simpl. rewrite (filter_nonzero_all map r Zr).
  destruct (nth x map 0 =? 0) eqn:Ex; simpl.
  - apply Nat.eqb_eq in Ex. destruct Zx as [Zx| ->]; [congruence|].
    split; [exact Hr|]. split; [|right; auto].
    intros l (L1 & L2 & L3). destruct l as [|a l]; [simpl; lia|].
    assert (Hpos : List.Forall (fun y => 0 < y) (a :: l)).
    { eapply List.Forall_impl; [|exact L3]. simpl. intros y [_ Hy].
      destruct y; [congruence|lia]. }
    assert (H0 : increasing map (0 :: a :: l)).
    { apply sorted_increasing.
      - discriminate.
      - constructor; assumption.
      - simpl. constructor; [exact L2|]. rewrite Ex.
        apply List.Forall_forall. intros z Hz.
        change (nth a map 0 :: List.map (fun x => nth x map 0) l)
          with (List.map (fun x => nth x map 0) (a :: l)) in Hz.
        apply in_map_iff in Hz. destruct Hz as (w & <- & Hw).
        rewrite List.Forall_forall in L3. destruct (L3 w Hw). lia.
      - constructor; [lia|]. eapply List.Forall_impl; [|exact L3]. simpl. tauto.
      - intros z r' Heq. injection Heq as <- _. right. reflexivity. }
    specialize (Hopt _ H0). simpl in Hopt |- *. lia.
  - apply Nat.eqb_neq in Ex.
    split; [|split; [|left; reflexivity]].
    + split; [exact S1|]. split; [exact S2|]. constructor; [split; assumption|apply Hr].
    + intros l (L1 & L2 & L3). destruct l as [|a l]; [simpl; lia|].
      apply Hopt. apply sorted_increasing; try assumption.
      * discriminate.
      * eapply List.Forall_impl; [|exact L3]. simpl. tauto.
      * intros z r' Heq. injection Heq as <- _. left.
        inversion L3 as [|? ? [_ Ha] _]; subst. exact Ha.
Qed.

Lemma downto_S n : downto (S n) = n :: downto n.
Proof. unfold downto. rewrite seq_S, rev_app_distr. reflexivity. Qed.

Lemma existsb_eqb_In i l : existsb (Nat.eqb i) l = true <-> In i l.
Proof.
  rewrite existsb_exists. split.
  - intros (x & Hx & E). apply Nat.eqb_eq in E. subst. exact Hx.
  - intros H. exists i. split; [exact H|apply Nat.eqb_refl].
Qed.

Lemma place_eq c2 map moved sq s2 j ops i :
  place c2 map moved sq s2 (j, ops) i =
    if nth i map 0 =? 0 then (j, ops ++ [OpMount (s2 + i) (anchor_of c2 (s2 + i))])
    else if moved then
      if (j =? 0) || negb (i =? nth (j - 1) sq 0)
      then (j, ops ++ [OpMove (s2 + i) (anchor_of c2 (s2 + i))])
      else (j - 1, ops)
    else (j, ops).
Proof. reflexivity. Qed.

Section Walk.
Variable c2 : list VNode.
Variable map : list nat.
Variable s2 : nat.
Let sq := getSequence map.
Hypothesis Hasc : forall a b, a < b -> b < length sq -> nth a sq 0 < nth b sq 0.
Hypothesis Hzero : forall a, a < length sq -> nth (nth a sq 0) map 0 = 0 -> nth a sq 0 = 0.

Lemma walk_member n j :
  j <= length sq ->
  (forall t, t < j -> nth t sq 0 < S n) ->
  (forall t, j <= t -> t < length sq -> S n <= nth t sq 0) ->
  In n sq <-> (0 < j /\ nth (j - 1) sq 0 = n).
Proof using Hasc.
  intros Hj Hlow Hhigh. split.
  - intros Hin. apply (In_nth _ _ 0) in Hin. destruct Hin as (t & Ht & Hn).
    destruct (Nat.lt_ge_cases t j) as [Htj|Htj].
    + split; [lia|]. destruct (Nat.eq_dec t (j - 1)) as [->|Hne]; [exact Hn|].
      pose proof (Hasc t (j - 1) ltac:(lia) ltac:(lia)). pose proof (Hlow (j - 1) ltac:(lia)). lia.
    + specialize (Hhigh t Htj Ht). lia.
  - intros [Hj0 Hn]. rewrite <- Hn. apply nth_In. lia.
Qed.

Lemma walk_fold n : forall j ops,
  j <= length sq ->
  (forall t, t < j -> nth t sq 0 < n) ->
  (forall t, j <= t -> t < length sq -> n <= nth t sq 0) ->
  snd (fold_left (place c2 map true sq s2) (downto n) (j, ops)) =
    ops ++ flat_map (placed c2 map s2) (downto n).
Proof using Hasc Hzero.
  induction n as [|n IH]; intros j ops Hj Hlow Hhigh.
  - simpl. rewrite app_nil_r. reflexivity.
  - rewrite downto_S. cbn [fold_left flat_map].
    pose proof (walk_member n j Hj Hlow Hhigh) as Hmem.
    rewrite place_eq. unfold placed at 1. fold sq.
    destruct (nth n map 0 =? 0) eqn:Ez.
    + (* mounted *)
      destruct n as [|n'].
      { simpl. reflexivity. }
      rewrite IH; [rewrite <- app_assoc; reflexivity|exact Hj| |].
      * intros t Ht. specialize (Hlow t Ht).
        destruct (Nat.eq_dec (nth t sq 0) (S n')) as [E|E]; [|lia].
        apply Nat.eqb_eq in Ez. rewrite <- E in Ez. apply Hzero in Ez; lia.
      * intros t Ht1 Ht2. specialize (Hhigh t Ht1 Ht2). lia.
    + destruct ((j =? 0) || negb (n =? nth (j - 1) sq 0)) eqn:Em.
      * (* moved *)
        assert (Hnot : ~ In n sq).
        { intros Hin. apply Hmem in Hin. destruct Hin as [Hj0 Hn].
          apply orb_true_iff in Em. destruct Em as [Em|Em].
          - apply Nat.eqb_eq in Em. lia.
          - apply negb_true_iff, Nat.eqb_neq in Em. congruence. }
        assert (Hex : existsb (Nat.eqb n) sq = false).
        { destruct (existsb (Nat.eqb n) sq) eqn:E; [|reflexivity].
          apply existsb_eqb_In in E. contradiction. }
        rewrite Hex. rewrite IH; [rewrite <- app_assoc; reflexivity|exact Hj| |].
        -- intros t Ht. specialize (Hlow t Ht).
           destruct (Nat.eq_dec (nth t sq 0) n) as [E|E]; [|lia].
           exfalso. apply Hnot. rewrite <- E. apply nth_In. lia.
        -- intros t Ht1 Ht2. specialize (Hhigh t Ht1 Ht2). lia.
      * (* left in place *)
        apply orb_false_iff in Em. destruct Em as [Ej En].
        apply Nat.eqb_neq in Ej. apply negb_false_iff, Nat.eqb_eq in En.
        assert (Hex : existsb (Nat.eqb n) sq = true).
        { apply existsb_eqb_In, Hmem. split; [lia|congruence]. }
        rewrite Hex. simpl app. rewrite IH; [reflexivity|lia| |].
        -- intros t Ht. pose proof (Hasc t (j - 1) ltac:(lia) ltac:(lia)). lia.
        -- intros t Ht1 Ht2. destruct (Nat.eq_dec t (j - 1)) as [->|E]; [lia|].
           specialize (Hhigh t ltac:(lia) Ht2). lia.
Qed.
End Walk.

Lemma getSequence_nth_facts map :
  1 <= length map ->
  (forall a b, a < b -> b < length (getSequence map) ->
     nth a (getSequence map) 0 < nth b (getSequence map) 0) /\
  (forall a, a < length (getSequence map) -> nth a (getSequence map) 0 < length map) /\
  (forall a, a < length (getSequence map) ->
     nth (nth a (getSequence map) 0) map 0 = 0 -> nth a (getSequence map) 0 = 0).
Proof.
  intros Hn. destruct (getSequence_increasing map Hn) as [Hinc _].
  destruct (increasing_sorted map _ Hinc) as (S1 & _ & B & Z).
  split; [|split].
  - intros a b Hab Hb. apply (Scheduler.StronglySorted_nth lt _ 0 S1); assumption.
  - intros a Ha. rewrite List.Forall_forall in B. apply B, nth_In, Ha.
  - intros a Ha Hz. destruct (getSequence map) as [|x r]; [destruct Z|].
    destruct Z as [Zx Zr]. destruct a as [|a]; simpl in *.
    + destruct Zx; [congruence|assumption].
    + rewrite List.Forall_forall in Zr. exfalso. apply (Zr (nth a r 0)); [apply nth_In; lia|exact Hz].
Qed.

(** The loop 5.3 after a move was detected. *)
Lemma move_and_mount_moved c2 map s2 ops :
  1 <= length map ->
  move_and_mount c2 map true s2 ops =
    ops ++ flat_map (placed c2 map s2) (downto (length map)).
Proof.
  intros Hn. destruct (getSequence_nth_facts map Hn) as (Hasc & Hb & Hz).
  unfold move_and_mount.
  apply (walk_fold c2 map s2 Hasc Hz (length map) (length (getSequence map)) ops).
  - lia.
  - intros t Ht. apply Hb, Ht.
  - intros t Ht1 Ht2. lia.
Qed.

Lemma map_get_set k k' v m :
  map_get k (map_set k' v m) = if Nat.eqb k k' then Some v else map_get k m.
Proof.
  induction m as [|[x w] m IH]; simpl.
  - destruct (Nat.eqb k k'); reflexivity.
  - destruct (Nat.eqb k' x) eqn:E; simpl.
    + apply Nat.eqb_eq in E. subst x. destruct (Nat.eqb k k'); reflexivity.
    + rewrite IH. destruct (Nat.eqb k x) eqn:E'; [|reflexivity].
      apply Nat.eqb_eq in E'. subst x.
      destruct (Nat.eqb k k') eqn:E''; [|reflexivity].
      apply Nat.eqb_eq in E''. subst. rewrite Nat.eqb_refl in E. discriminate.
Qed.

Lemma keys_nth_inj c a b :
  List.NoDup (List.map key c) -> a < length c -> b < length c ->
  key (nth a c noVNode) = key (nth b c noVNode) -> a = b.
Proof.
  intros Hnd Ha Hb E.
  apply (proj1 (List.NoDup_nth (List.map key c) None) Hnd); rewrite ?length_map; try assumption.
  change None with (key noVNode). rewrite !map_nth. exact E.
Qed.

Lemma key_In c a : a < length c -> In (key (nth a c noVNode)) (List.map key c).
Proof. intros H. apply in_map, nth_In, H. Qed.

Lemma key_In_inv c k : In k (List.map key c) -> exists a, a < length c /\ key (nth a c noVNode) = k.
Proof.
  intros H. apply in_map_iff in H. destruct H as (n & <- & Hn).
  apply (In_nth _ _ noVNode) in Hn. destruct Hn as (a & Ha & <-). exists a. auto.
Qed.

(** 5.1 on children with distinct keys: the map sends a key to the index
    of the new child that has it. *)
Lemma build_keyToNewIndexMap_spec c2 t k :
  fully_keyed c2 -> t <= length c2 ->
  forall x,
    map_get k (fold_left (fun m i =>
                            match key (nth i c2 noVNode) with
                            | Some k => map_set k i m
                            | None => m
                            end) (seq 0 t) []) = Some x <->
    x < t /\ key (nth x c2 noVNode) = Some k.
Proof.
  intros [Hk Hnd]. induction t as [|t IH]; intros Ht x.
  - simpl. split; [discriminate|lia].
  - rewrite seq_S, fold_left_app. simpl.
    destruct (key (nth t c2 noVNode)) as [kt|] eqn:Et.
    + rewrite map_get_set. destruct (Nat.eqb k kt) eqn:E.
      * apply Nat.eqb_eq in E. subst kt. split.
        -- intros H. injection H as <-. split; [lia|exact Et].
        -- intros [Hx Hkx]. f_equal. apply (keys_nth_inj c2); try assumption; try lia. congruence.
      * rewrite IH by lia. apply Nat.eqb_neq in E. split.
        -- intros [Hx Hkx]. split; [lia|exact Hkx].
        -- intros [Hx Hkx]. split; [|exact Hkx].
           destruct (Nat.eq_dec x t) as [->|]; [congruence|lia].
    + exfalso. rewrite List.Forall_forall in Hk. apply (Hk (nth t c2 noVNode)); [|exact Et].
      apply nth_In. lia.
Qed.

Lemma count_nonzero_le l : count_nonzero l <= length l.
Proof. unfold count_nonzero. apply List.filter_length_le. Qed.

Lemma count_nonzero_full l :
  length l <= count_nonzero l -> forall x, x < length l -> nth x l 0 <> 0.
Proof.
  unfold count_nonzero. induction l as [|a l IH]; simpl; intros H x Hx; [lia|].
  destruct (a =? 0) eqn:E; simpl in H.
  - pose proof (List.filter_length_le (fun x => negb (x =? 0)) l). lia.
  - destruct x; [apply Nat.eqb_neq, E|]. apply IH; lia.
Qed.

Lemma count_nonzero_insert l x v :
  x < length l -> nth x l 0 = 0 -> v <> 0 ->
  count_nonzero (<[x := v]> l) = count_nonzero l + 1.
Proof.
  unfold count_nonzero. revert x. induction l as [|a l IH]; simpl; intros x Hx Hz Hv; [lia|].
  destruct x as [|x]; simpl.
  - subst a. simpl. apply Nat.eqb_neq in Hv. rewrite Hv. simpl. lia.
  - destruct (a =? 0); simpl; rewrite IH by (try lia; assumption); reflexivity.
Qed.

Lemma match_old_matching c1 c2 km t st :
  fully_keyed c1 -> fully_keyed c2 ->
  (forall k x, map_get k km = Some x <-> x < length c2 /\ key (nth x c2 noVNode) = Some k) ->
  t < length c1 ->
  matching c1 c2 t st ->
  matching c1 c2 (S t) (match_old c1 c2 km 0 (length c2) (length c2) st t).
Proof.
  intros [Hk1 Hnd1] [Hk2 Hnd2] Hkm Ht (I1 & I2 & I3 & I4).
  assert (Hops : forall op, In op (m_ops st) ->
     (exists o x, op = OpPatch o x) \/
     (exists o, op = OpUnmount o /\ o < S t /\
                ~ In (key (nth o c1 noVNode)) (List.map key c2))).
  { intros op Hin. destruct (I4 op Hin) as [H|(o & -> & Ho & Hn)]; [left; exact H|].
    right. exists o. split; [reflexivity|]. split; [lia|exact Hn]. }
  assert (Hunique : forall o x, o < t -> x < length c2 ->
            key (nth o c1 noVNode) = key (nth x c2 noVNode) ->
            key (nth t c1 noVNode) <> key (nth x c2 noVNode)).
  { intros o x Ho Hx E1 E2.
    assert (o = t) by (apply (keys_nth_inj c1); try assumption; try lia; congruence). lia. }
  unfold match_old.
  destruct (length c2 <=? patched st) eqn:Efull.
  - apply Nat.leb_le in Efull. rewrite I3, <- I1 in Efull.
    pose proof (count_nonzero_full _ Efull) as Hall. rewrite I1 in Hall.
    assert (Habsent : forall x, x < length c2 ->
              key (nth t c1 noVNode) <> key (nth x c2 noVNode)).
    { intros x Hx. destruct (proj1 (I2 x Hx) (Hall x Hx)) as (o & Ho & E).
      apply (Hunique o x); assumption. }
    split; [exact I1|]. split; [|split; [exact I3|]]; simpl.
    + intros x Hx. split.
      * intros H. destruct (proj1 (I2 x Hx) H) as (o & Ho & E). exists o. split; [lia|exact E].
      * intros _. apply Hall, Hx.
    + intros op Hin. apply in_app_or in Hin. destruct Hin as [Hin|[<-|[]]]; [apply Hops, Hin|].
      right. exists t. split; [reflexivity|]. split; [lia|].
      intros Hin. apply key_In_inv in Hin. destruct Hin as (x & Hx & E).
      apply (Habsent x Hx). congruence.
  - destruct (key (nth t c1 noVNode)) as [k|] eqn:Ek.
    2:{ exfalso. rewrite List.Forall_forall in Hk1. apply (Hk1 (nth t c1 noVNode)); [|exact Ek].
        apply nth_In, Ht. }
    destruct (map_get k km) as [x'|] eqn:Eg.
    + apply Hkm in Eg. destruct Eg as [Hx' Ekx'].
      assert (Hzero : nth x' (newIndexToOldIndexMap st) 0 = 0).
      { destruct (Nat.eq_dec (nth x' (newIndexToOldIndexMap st) 0) 0) as [E|E]; [exact E|].
        destruct (proj1 (I2 x' Hx') E) as (o & Ho & Eo).
        exfalso. apply (Hunique o x' Ho Hx' Eo). congruence. }
      rewrite Nat.sub_0_r.
      split; [simpl; rewrite length_insert; exact I1|].
      split; [|split]; simpl.
      * intros x Hx. destruct (Nat.eq_dec x x') as [->|Hne].
        -- rewrite nth_insert_eq by lia. split; [|lia].
           intros _. exists t. split; [lia|congruence].
        -- rewrite nth_insert_ne by lia. split.
           ++ intros H. destruct (proj1 (I2 x Hx) H) as (o & Ho & E). exists o. split; [lia|exact E].
           ++ intros (o & Ho & E). destruct (Nat.eq_dec o t) as [->|Hot].
              ** exfalso. apply Hne. apply (keys_nth_inj c2); try assumption. congruence.
              ** apply (I2 x Hx). exists o. split; [lia|exact E].
      * rewrite I3. symmetry. apply count_nonzero_insert; [lia|exact Hzero|lia].
      * intros op Hin. apply in_app_or in Hin. destruct Hin as [Hin|[<-|[]]]; [apply Hops, Hin|].
        left. eexists _, _. reflexivity.
    + assert (Habsent : forall x, x < length c2 ->
                Some k <> key (nth x c2 noVNode)).
      { intros x Hx E. assert (H : map_get k km = Some x) by (apply Hkm; split; [exact Hx|congruence]).
        congruence. }
      split; [exact I1|]. split; [|split; [exact I3|]]; simpl.
      * intros x Hx. split.
        -- intros H. destruct (proj1 (I2 x Hx) H) as (o & Ho & E). exists o. split; [lia|exact E].
        -- intros (o & Ho & E). destruct (Nat.eq_dec o t) as [->|Hot].
           ++ exfalso. apply (Habsent x Hx). congruence.
           ++ apply (I2 x Hx). exists o. split; [lia|exact E].
      * intros op Hin. apply in_app_or in Hin. destruct Hin as [Hin|[<-|[]]]; [apply Hops, Hin|].
        right. exists t. split; [reflexivity|]. split; [lia|].
        intros Hin. apply key_In_inv in Hin. destruct Hin as (x & Hx & E).
        apply (Habsent x Hx). congruence.
Qed.

Lemma matching_loop c1 c2 km :
  fully_keyed c1 -> fully_keyed c2 ->
  (forall k x, map_get k km = Some x <-> x < length c2 /\ key (nth x c2 noVNode) = Some k) ->
  forall t st0,
    t <= length c1 -> matching c1 c2 0 st0 ->
    matching c1 c2 t
      (fold_left (match_old c1 c2 km 0 (length c2) (length c2)) (seq 0 t) st0).
Proof.
  intros H1 H2 Hkm. induction t as [|t IH]; intros st0 Ht H0; [exact H0|].
  rewrite seq_S, fold_left_app. simpl.
  apply match_old_matching; try assumption; try lia. apply IH; [lia|exact H0].
Qed.

Lemma matching_start c1 c2 : matching c1 c2 0 (mkMatching (repeat 0 (length c2)) 0 false 0 []).
Proof.
  split; [apply repeat_length|]. split; [|split]; simpl.
  - intros x Hx. rewrite nth_repeat. split; [congruence|]. intros (o & Ho & _). lia.
  - unfold count_nonzero. induction (length c2); simpl; auto.
  - intros op [].
Qed.

(** The loop 5.3, whatever [moved] and the sequence: it mounts the new
    children whose entry is 0, and otherwise only moves, at most one node
    for each position. *)
Lemma place_loop c2 map moved sq s2 l : forall j ops,
  exists new,
    snd (fold_left (place c2 map moved sq s2) l (j, ops)) = ops ++ new /\
    (forall op, In op new ->
       (exists i, In i l /\ nth i map 0 = 0 /\ op = OpMount (s2 + i) (anchor_of c2 (s2 + i))) \/
       (exists x a, op = OpMove x a)) /\
    count_moves new <= length l.
Proof.
  induction l as [|i l IH]; intros j ops.
  - exists []. simpl. rewrite app_nil_r. split; [reflexivity|]. split; [intros op []|].
    unfold count_moves. simpl. lia.
  - cbn [fold_left]. unfold place at 2.
    destruct (nth i map 0 =? 0) eqn:Ez.
    + destruct (IH j (ops ++ [OpMount (s2 + i) (anchor_of c2 (s2 + i))])) as (new & -> & Hops & Hc).
      exists (OpMount (s2 + i) (anchor_of c2 (s2 + i)) :: new).
      split; [rewrite <- app_assoc; reflexivity|]. split.
      * intros op [<-|Hin].
        -- left. exists i. split; [left; reflexivity|]. split; [apply Nat.eqb_eq, Ez|reflexivity].
        -- destruct (Hops op Hin) as [(i' & Hi' & H)|H]; [left; exists i'; split; [right; exact Hi'|exact H]|right; exact H].
      * unfold count_moves in *. simpl. lia.
    + destruct moved.
      * destruct ((j =? 0) || negb (i =? nth (j - 1) sq 0)).
        -- destruct (IH j (ops ++ [OpMove (s2 + i) (anchor_of c2 (s2 + i))])) as (new & -> & Hops & Hc).
           exists (OpMove (s2 + i) (anchor_of c2 (s2 + i)) :: new).
           split; [rewrite <- app_assoc; reflexivity|]. split.
           ++ intros op [<-|Hin]; [right; eexists _, _; reflexivity|].
              destruct (Hops op Hin) as [(i' & Hi' & H)|H]; [left; exists i'; split; [right; exact Hi'|exact H]|right; exact H].
           ++ unfold count_moves in *. simpl. lia.
        -- destruct (IH (j - 1) ops) as (new & -> & Hops & Hc).
           exists new. split; [reflexivity|]. split.
           ++ intros op Hin.
              destruct (Hops op Hin) as [(i' & Hi' & H)|H]; [left; exists i'; split; [right; exact Hi'|exact H]|right; exact H].
           ++ simpl. lia.
      * destruct (IH j ops) as (new & -> & Hops & Hc).
        exists new. split; [reflexivity|]. split.
        -- intros op Hin.
           destruct (Hops op Hin) as [(i' & Hi' & H)|H]; [left; exists i'; split; [right; exact Hi'|exact H]|right; exact H].
        -- simpl. lia.
Qed.

Lemma count_moves_app a b : count_moves (a ++ b) = count_moves a + count_moves b.
Proof. unfold count_moves. rewrite List.filter_app, length_app. reflexivity. Qed.

Lemma In_downto i n : In i (downto n) -> i < n.
Proof. unfold downto. rewrite <- in_rev, in_seq. lia. Qed.

(** Phase 5 on two lists of children with distinct keys, none of which
    was synced: an old child is unmounted only when its key is not among
    the new ones, a new child is mounted only when its key is not among
    the old ones, and there are no more moves than new children. *)
Lemma unknown_sequence_keyed c1 c2 :
  fully_keyed c1 -> fully_keyed c2 ->
  let ops := unknown_sequence c1 c2 0 (length c1) (length c2) [] in
  (forall o, In (OpUnmount o) ops ->
     o < length c1 /\ ~ In (key (nth o c1 noVNode)) (List.map key c2)) /\
  (forall x a, In (OpMount x a) ops ->
     x < length c2 /\ ~ In (key (nth x c2 noVNode)) (List.map key c1)) /\
  count_moves ops <= length c2.
Proof.
  intros H1 H2. cbv zeta. unfold unknown_sequence. cbv zeta.
  rewrite !Nat.sub_0_r.
  set (km := build_keyToNewIndexMap c2 0 (length c2)).
  assert (Hkm : forall k x, map_get k km = Some x <->
                  x < length c2 /\ key (nth x c2 noVNode) = Some k).
  { intros k x. unfold km, build_keyToNewIndexMap. rewrite Nat.sub_0_r.
    apply build_keyToNewIndexMap_spec; [exact H2|lia]. }
  pose proof (matching_loop c1 c2 km H1 H2 Hkm (length c1) _ (Nat.le_refl _)
                (matching_start c1 c2)) as HM.
  set (st := fold_left (match_old c1 c2 km 0 (length c2) (length c2)) (seq 0 (length c1))
               (mkMatching (repeat 0 (length c2)) 0 false 0 [])) in *.
  destruct HM as (I1 & I2 & I3 & I4).
  unfold move_and_mount.
  destruct (place_loop c2 (newIndexToOldIndexMap st) (moved st)
              (if moved st then getSequence (newIndexToOldIndexMap st) else []) 0
              (downto (length (newIndexToOldIndexMap st)))
              (length (if moved st then getSequence (newIndexToOldIndexMap st) else []))
              (m_ops st)) as (new & Hnew & Hops & Hc).
  rewrite Hnew.
  assert (Hold_moves : count_moves (m_ops st) = 0).
  { unfold count_moves. clear -I4. induction (m_ops st) as [|op l IH]; [reflexivity|].
    simpl. destruct (I4 op (or_introl eq_refl)) as [(o & x & ->)|(o & -> & _)]; simpl;
      apply IH; intros op' Hin; apply I4; right; exact Hin. }
  split; [|split].
  - intros o Hin. apply in_app_or in Hin. destruct Hin as [Hin|Hin].
    + destruct (I4 _ Hin) as [(o' & x & E)|(o' & E & Ho & Hn)]; [discriminate|].
      injection E as <-. auto.
    + destruct (Hops _ Hin) as [(i & _ & _ & E)|(x & a & E)]; discriminate.
  - intros x a Hin. apply in_app_or in Hin. destruct Hin as [Hin|Hin].
    + destruct (I4 _ Hin) as [(o' & x' & E)|(o' & E & _)]; discriminate.
    + destruct (Hops _ Hin) as [(i & Hi & Hz & E)|(x' & a' & E)]; [|discriminate].
      injection E as -> _. apply In_downto in Hi. rewrite I1 in Hi.
      split; [exact Hi|]. intros Hk. apply key_In_inv in Hk. destruct Hk as (o & Ho & E).
      assert (Hnz : nth i (newIndexToOldIndexMap st) 0 <> 0).
      { apply (I2 i Hi). exists o. split; [exact Ho|exact E]. }
      simpl in Hz. congruence.
  - rewrite count_moves_app, Hold_moves. unfold downto in Hc.
    rewrite length_rev, length_seq, I1 in Hc. exact Hc.
Qed.

Lemma isSameVNodeType_refl n : isSameVNodeType n n = true.
Proof.
  unfold isSameVNodeType. rewrite Nat.eqb_refl. destruct (key n); [apply Nat.eqb_refl|reflexivity].
Qed.

Lemma isSameVNodeType_same_key n1 n2 : isSameVNodeType n1 n2 = true -> key n1 = key n2.
Proof.
  unfold isSameVNodeType. intros H. apply andb_true_iff in H. destruct H as [_ H].
  destruct (key n1), (key n2); try discriminate; [|reflexivity].
  apply Nat.eqb_eq in H. congruence.
Qed.

Lemma fully_keyed_rev l : fully_keyed l -> fully_keyed (rev l).
Proof.
  intros [Hk Hnd]. split.
  - apply List.Forall_forall. intros n Hn. apply in_rev in Hn.
    rewrite List.Forall_forall in Hk. apply Hk, Hn.
  - rewrite map_rev. apply List.NoDup_rev, Hnd.
Qed.

(** Reversing at least two children with distinct keys: nothing is
    synced, the whole lists go to phase 5. *)
Lemma patchKeyedChildren_rev l :
  fully_keyed l -> 2 <= length l ->
  patchKeyedChildren l (rev l) = unknown_sequence l (rev l) 0 (length l) (length (rev l)) [].
Proof.
  intros Hk Hn. pose proof Hk as [_ Hnd].
  assert (Hfirst : isSameVNodeType (nth 0 l noVNode) (nth 0 (rev l) noVNode) = false).
  { match goal with |- ?x = false => destruct x eqn:E end; [|reflexivity].
    apply isSameVNodeType_same_key in E. rewrite rev_nth in E by lia.
    apply (keys_nth_inj l) in E; try assumption; lia. }
  assert (Hlast : isSameVNodeType (nth (length l - 1) l noVNode)
                    (nth (length l - 1) (rev l) noVNode) = false).
  { match goal with |- ?x = false => destruct x eqn:E end; [|reflexivity].
    apply isSameVNodeType_same_key in E. rewrite rev_nth in E by lia.
    apply (keys_nth_inj l) in E; try assumption; lia. }
  unfold patchKeyedChildren. rewrite length_rev.
  destruct (length l) as [|[|n]] eqn:En; try lia.
  assert (H1 : sync_from_start (S (S n)) l (rev l) 0 (S (S n)) (S (S n)) [] = (0, [])).
  { cbn [sync_from_start]. simpl Nat.ltb. simpl andb. cbv iota. rewrite Hfirst. reflexivity. }
  rewrite H1.
  assert (H2 : sync_from_end (S (S n)) l (rev l) 0 (S (S n)) (S (S n)) []
               = (S (S n), S (S n), [])).
  { cbn [sync_from_end]. simpl Nat.ltb. simpl andb. cbv iota. rewrite Hlast. reflexivity. }
  rewrite H2. reflexivity.
Qed.

(** Reversing a list of children with distinct keys moves at most as many
    nodes as there are, and neither mounts nor unmounts any. *)
Lemma reverse_keyed l :
  fully_keyed l ->
  count_moves (patchKeyedChildren l (rev l)) <= length l /\
  forall op, In op (patchKeyedChildren l (rev l)) ->
    (exists o x, op = OpPatch o x) \/ (exists x a, op = OpMove x a).
Proof.
  intros Hk.
  destruct (Nat.lt_ge_cases (length l) 2) as [Hsmall|Hbig].
  - destruct l as [|a [|b l]]; [| |simpl in Hsmall; lia].
    + split; [apply Nat.le_refl|intros op []].
    + unfold patchKeyedChildren. simpl. rewrite isSameVNodeType_refl. simpl.
      split; [unfold count_moves; simpl; lia|].
      intros op [<-|[]]. left. eexists _, _. reflexivity.
  - rewrite (patchKeyedChildren_rev l Hk Hbig).
    destruct (unknown_sequence_keyed l (rev l) Hk (fully_keyed_rev l Hk)) as (Hu & Hm & Hc).
    rewrite length_rev in *.
    split; [exact Hc|].
    intros op Hin. destruct op as [o x|x a|o|x a].
    + left. eexists _, _. reflexivity.
    + exfalso. destruct (Hm x a Hin) as [Hx Hno]. apply Hno.
      rewrite <- (rev_involutive l) at 2. rewrite map_rev, <- in_rev. apply key_In. 
      rewrite length_rev. exact Hx.
    + exfalso. destruct (Hu o Hin) as [Ho Hno]. apply Hno.
      rewrite map_rev, <- in_rev. apply key_In, Ho.
    + right. eexists _, _. reflexivity.
Qed.

(** C2 (amended).  In phase 5 of [patchKeyedChildren], for a map
    [newIndexToOldIndexMap] of at least one entry:
    - [getSequence] returns the positions of a longest increasing
      subsequence of the non-zero entries of the map (the entries of the
      matched nodes), preceded by position 0 when the entry there is 0;
      an entry 0 is never counted as an element of the subsequence;
    - when a reorder was detected, the backward walk 5.3 asks, for each
      position from the last to the first, exactly what [placed] says: a
      mount before the next sibling where the entry is 0, nothing where the
      position belongs to the sequence, and otherwise one move before the
      next sibling;
    - reversing a list of children with distinct keys asks for at most as
      many moves as there are children, and for patches and moves only. *)
Theorem keyed_diff_stable_sequence :
  forall (c2 : list VNode) (map : list nat) (s2 : nat) (ops : list Op),
    1 <= length map ->
    (matched_increasing map (stable_positions map) /\
     (forall l, matched_increasing map l -> length l <= length (stable_positions map)) /\
     (getSequence map = stable_positions map \/
      (nth 0 map 0 = 0 /\ getSequence map = 0 :: stable_positions map))) /\
    move_and_mount c2 map true s2 ops =
      ops ++ flat_map (placed c2 map s2) (downto (length map)) /\
    (forall l, fully_keyed l ->
       count_moves (patchKeyedChildren l (rev l)) <= length l /\
       forall op, In op (patchKeyedChildren l (rev l)) ->
         (exists o x, op = OpPatch o x) \/ (exists x a, op = OpMove x a)).
Proof.
  intros c2 map s2 ops Hn.
  split; [apply getSequence_stable, Hn|].
  split; [apply move_and_mount_moved, Hn|].
  intros l Hl. apply reverse_keyed, Hl.
Qed.

Lemma keyed_diff_stable_sequence_witness :
  stable_positions [2; 0; 1; 3; 0] = [2; 3] /\
  matched_increasing [2; 0; 1; 3; 0] (stable_positions [2; 0; 1; 3; 0]) /\
  move_and_mount new_children [2; 0; 1; 3; 0] true 0 [] =
    [OpMount 4 None; OpMount 1 (Some 2); OpMove 0 (Some 1)] /\
  fully_keyed old_children /\
  count_moves (patchKeyedChildren old_children (rev old_children)) <= 4.
Proof.
  split; [reflexivity|].
  destruct (keyed_diff_stable_sequence new_children [2; 0; 1; 3; 0] 0 [])
    as ((H1 & _) & H2 & H3); [simpl; lia|].
  split; [exact H1|]. split; [rewrite H2; reflexivity|].
  assert (Hk : fully_keyed old_children).
  { split.
    - repeat constructor; discriminate.
    - simpl. repeat constructor; simpl; intuition discriminate. }
  split; [exact Hk|]. exact (proj1 (H3 old_children Hk)).
Defined.

(** The scenario of the witness: the diff of [a b c d] against
    [b x a c y] reaches the loop 5.3 with this map. *)
Example reorder_with_inserts :
  patchKeyedChildren old_children new_children =
    [OpPatch 0 2; OpPatch 1 0; OpPatch 2 3; OpUnmount 3;
     OpMount 4 None; OpMount 1 (Some 2); OpMove 0 (Some 1)] /\
  let st := fold_left
              (match_old old_children new_children
                 (build_keyToNewIndexMap new_children 0 5) 0 5 5)
              (seq 0 4) (mkMatching (repeat 0 5) 0 false 0 []) in
  newIndexToOldIndexMap st = [2; 0; 1; 3; 0] /\ moved st = true.
Proof. split; [reflexivity|]. split; reflexivity. Qed.

(** The entries 0, 1 and 3 at the positions 1, 2 and 3 are an increasing
    subsequence of three entries; [getSequence] returns two positions. *)
Lemma getSequence_skips_new_nodes :
  ~ longest_increasing [2; 0; 1; 3; 0] (getSequence [2; 0; 1; 3; 0]).
Proof.
  intros [_ H]. specialize (H [1; 2; 3]).
  assert (Ha : ascending_entries [2; 0; 1; 3; 0] [1; 2; 3]).
  { split; [|split]; simpl; repeat constructor. }
  specialize (H Ha). vm_compute in H. lia.
Qed.

End Renderer.
